(** * optable-pkglib, package [io]: framing, chunking and closer shims

    A shallow embedding of [io/frame.go], [io/chunk.go] and [io/shim.go],
    with the parts of the Go standard library they call ([io.ReadFull],
    [encoding/binary] varints, [bufio.Scanner] with [bufio.ScanLines],
    [bufio.Writer], [bytes.LastIndexByte], [sync.Once]) modelled next to
    them.

    Conventions.
    - A [[]byte] is a [list byte]; slices are values, so the reuse of the
      decode buffer by the length-prefixed reader is invisible (every
      caller in the package copies a frame before reading the next one).
    - [uint64] values are [N] with the wrap-around written out; [int]
      values that may be negative are [Z].
    - A Go [(value, error)] pair whose value is meaningless when the error
      is set is a sum [value + error].
    - A run-time panic is [None] in an [option].
    - [make] returns for a size that the program or its caller chose
      (the chunker's window, the scanner's buffer, the writer's buffer).
      The decode buffer of the length-prefixed reader takes its size from
      the stream: there [make] returns up to the reader's [allocLimit]
      and not beyond.
    - The loops that drain a reader or a chunker end only when the reader
      does, so they take fuel and return [None] when it runs out; the
      properties give a fuel that is enough.
    - Calls are sequential: [sync.Once] is a flag. *)

From Stdlib Require Import Strings.Byte Strings.String.
From Stdlib Require Import List ZArith NArith Lia Bool Arith.
From Stdlib Require Import Wf_nat.
Import ListNotations.

Set Implicit Arguments.
Unset Strict Implicit.

(** ** Bytes *)

Definition frame := list byte.

(** [byte(x)] for an unsigned [x]: the low eight bits. *)
Definition byte_of_N (n : N) : byte :=
  match Byte.of_N (n mod 256) with
  | Some b => b
  | None => x00
  end.

Definition newline : byte := x0a.   (* '\n' *)
Definition carriage : byte := x0d.  (* '\r' *)

Definition bytes_of_string (s : string) : list byte := list_byte_of_string s.

(** ** Errors

    The sentinel errors the package creates or tests for with [errors.Is].
    [OtherErr] stands for any error of an underlying reader or closer; no
    error in this file wraps another one, so [errors.Is] is equality. *)

Inductive error : Type :=
| EOF                 (* io.EOF *)
| ErrUnexpectedEOF    (* io.ErrUnexpectedEOF *)
| ErrTooLong          (* bufio.ErrTooLong *)
| errOverflow         (* encoding/binary: varint overflows a 64-bit integer *)
| InvalidArgErr       (* chunk.go *)
| NoFrameFoundErr     (* chunk.go *)
| OtherErr (code : nat).

Definition error_eqb (a b : error) : bool :=
  match a, b with
  | EOF, EOF | ErrUnexpectedEOF, ErrUnexpectedEOF | ErrTooLong, ErrTooLong
  | errOverflow, errOverflow | InvalidArgErr, InvalidArgErr
  | NoFrameFoundErr, NoFrameFoundErr => true
  | OtherErr x, OtherErr y => Nat.eqb x y
  | _, _ => false
  end.

Definition errors_Is (err : option error) (target : error) : bool :=
  match err with
  | Some e => error_eqb e target
  | None => false
  end.

(** ** Byte sources ([io.Reader])

    A source holds the bytes it has not delivered yet and the error it
    reports once they are consumed: [EOF] for [bytes.Buffer],
    [bytes.Reader] and files, another error for a source that breaks. *)

Record Reader : Type := mkReader {
  unread : list byte;
  atEnd : error
}.

Definition bytes_NewReader (b : list byte) : Reader := mkReader b EOF.

(** [io.MultiReader] over in-memory readers: their contents back to back. *)
Definition io_MultiReader (rs : list Reader) : Reader :=
  mkReader (concat (map unread rs)) EOF.

(** [io.ReadFull(r, buf)] with [len(buf) = n]: the bytes read, the error
    and the source afterwards. [ReadAtLeast] keeps reading until [n] bytes
    arrived or the source reported an error; [EOF] after at least one byte
    becomes [ErrUnexpectedEOF]. *)
Definition io_ReadFull (r : Reader) (n : nat)
  : list byte * option error * Reader :=
  if n <=? length (unread r) then
    (firstn n (unread r), None, mkReader (skipn n (unread r)) (atEnd r))
  else
    let err := if error_eqb (atEnd r) EOF && negb (length (unread r) =? 0)
               then ErrUnexpectedEOF else atEnd r in
    (unread r, Some err, mkReader [] (atEnd r)).

(** [ReadByte] of the [bufio.Reader] wrapped around the source. *)
Definition ReadByte (r : Reader) : (byte + error) * Reader :=
  match unread r with
  | [] => (inr (atEnd r), r)
  | b :: rest => (inl b, mkReader rest (atEnd r))
  end.

(** ** Byte sinks ([io.Writer]) *)

Class Writer (W : Type) : Type :=
  io_Write : W -> list byte -> (nat * option error) * W.

(** [bytes.Buffer]: appends, never fails. *)
Definition Buffer := list byte.

#[export] Instance Buffer_Writer : Writer Buffer :=
  fun w p => ((length p, None), w ++ p).

(** A sink that accepts [room] more bytes and then fails with [OtherErr 0],
    reporting the bytes it took (a full disk, a closed pipe). *)
Record LimitedSink : Type := mkSink { taken : list byte; room : nat }.

#[export] Instance LimitedSink_Writer : Writer LimitedSink :=
  fun w p =>
    if length p <=? room w then
      ((length p, None), mkSink (taken w ++ p) (room w - length p))
    else
      ((room w, Some (OtherErr 0)), mkSink (taken w ++ firstn (room w) p) 0).

(** ** [encoding/binary]: unsigned varints *)

Definition uint64 (n : N) : N := n mod 2 ^ 64.

Definition MaxVarintLen32 : nat := 5.
Definition MaxVarintLen64 : nat := 10.

(** [binary.PutUvarint(buf, x)] with [len(buf) = slots]: the bytes stored
    in [buf[:n]], or [None] for the index-out-of-range panic when [buf] is
    too small.

      i := 0
      for x >= 0x80 { buf[i] = byte(x) | 0x80; x >>= 7; i++ }
      buf[i] = byte(x)
      return i + 1 *)
Fixpoint PutUvarint (slots : nat) (x : N) : option (list byte) :=
  match slots with
  | O => None
  | S slots' =>
      if (0x80 <=? x)%N then
        match PutUvarint slots' (N.shiftr x 7) with
        | Some rest => Some (byte_of_N (N.lor (x mod 256) 0x80) :: rest)
        | None => None
        end
      else Some [byte_of_N x]
  end.

(** [binary.ReadUvarint(r)]; [n] counts the iterations left of
    [for i := 0; i < MaxVarintLen64; i++], [x] and [s] are the loop's
    accumulator and shift. Input that ends inside a prefix is reported as
    [ErrUnexpectedEOF] (Go 1.19 and later; earlier releases pass [EOF]
    through: nothing below depends on which). *)
Fixpoint ReadUvarint_loop (n i : nat) (x s : N) (r : Reader)
  : (N + error) * Reader :=
  match n with
  | O => (inr errOverflow, r)
  | S n' =>
      match ReadByte r with
      | (inr err, r') =>
          (inr (if (0 <? i) && error_eqb err EOF
                then ErrUnexpectedEOF else err), r')
      | (inl b, r') =>
          let bn := Byte.to_N b in
          if (bn <? 0x80)%N then
            if (i =? MaxVarintLen64 - 1) && (1 <? bn)%N
            then (inr errOverflow, r')
            else (inl (N.lor x (uint64 (N.shiftl bn s))), r')
          else
            ReadUvarint_loop n' (S i)
              (N.lor x (uint64 (N.shiftl (N.land bn 0x7f) s))) (s + 7)%N r'
      end
  end.

Definition ReadUvarint (r : Reader) : (N + error) * Reader :=
  ReadUvarint_loop MaxVarintLen64 0 0%N 0%N r.

(** ** [frame.go]: the length-prefixed format *)

Class FrameWriter (T : Type) : Type :=
  fw_Write : T -> frame -> option (nat * option error) * T.

(** [Read] returns a frame or an error; [None] is a call that panics. *)
Class FrameReader (T : Type) : Type :=
  Read : T -> option ((frame + error) * T).

(** The closure returned by [NewVarLenFrameWriter(w)] captures the sink
    and a scratch array of [MaxVarintLen32] bytes. *)
Record varLenFrameWriter (W : Type) : Type := mkVarLenWriter {
  vw_sink : W
}.

Definition NewVarLenFrameWriter {W} (w : W) : varLenFrameWriter W :=
  mkVarLenWriter w.

Definition varLen_Write {W} `{Writer W} (fw : varLenFrameWriter W)
    (payload : frame) : option (nat * option error) * varLenFrameWriter W :=
  match PutUvarint MaxVarintLen32 (uint64 (N.of_nat (length payload))) with
  | None => (None, fw)
  | Some prefix =>
      let '((sync, err), w1) := io_Write (vw_sink fw) prefix in
      match err with
      | Some e => (Some (sync, Some e), mkVarLenWriter w1)
      | None =>
          let '((n, err2), w2) := io_Write w1 payload in
          (Some (n + sync, err2), mkVarLenWriter w2)
      end
  end.

#[export] Instance varLen_FrameWriter {W} `{Writer W}
  : FrameWriter (varLenFrameWriter W) := varLen_Write.

Definition varlenFrameReaderBufferSize : N := 256.

(** The run time's bound on one allocation ([maxAlloc] of
    [runtime/malloc.go], [1 << 48] on 64-bit platforms): [make] panics
    with "makeslice: len out of range" for a longer slice. *)
Definition maxAlloc : N := 2 ^ 48.

(** The closure returned by [NewVarLenFrameReader(r)] captures the
    buffered source and the decode buffer, of which only the capacity
    matters here. [allocLimit] is the longest slice that [make] returns
    on the machine the closure runs on: [maxAlloc] at best, less where
    memory is short; a longer one makes [make] panic or the process
    abort. *)
Record varLenFrameReader : Type := mkVarLenReader {
  bufReader : Reader;
  bufCap : N;
  allocLimit : N
}.

(** The reader on a machine whose memory is no limit. *)
Definition NewVarLenFrameReader (r : Reader) : varLenFrameReader :=
  mkVarLenReader r varlenFrameReaderBufferSize maxAlloc.

(** [None]: [buf = make([]byte, payloadLen)] did not return. The length
    comes from the stream, and the buffer is allocated before any byte of
    the payload is read. *)
Definition varLen_Read (fr : varLenFrameReader)
  : option ((frame + error) * varLenFrameReader) :=
  match ReadUvarint (bufReader fr) with
  | (inr err, r1) =>
      Some (inr err, mkVarLenReader r1 (bufCap fr) (allocLimit fr))
  | (inl payloadLen, r1) =>
      if (bufCap fr <? payloadLen)%N && (allocLimit fr <? payloadLen)%N
      then None
      else
        let cap := if (bufCap fr <? payloadLen)%N then payloadLen
                   else bufCap fr in
        let '(got, err, r2) := io_ReadFull r1 (N.to_nat payloadLen) in
        if errors_Is err EOF
        then Some (inr ErrUnexpectedEOF, mkVarLenReader r2 cap (allocLimit fr))
        else match err with
             | Some e => Some (inr e, mkVarLenReader r2 cap (allocLimit fr))
             | None => Some (inl got, mkVarLenReader r2 cap (allocLimit fr))
             end
  end.

#[export] Instance varLen_FrameReader : FrameReader varLenFrameReader :=
  varLen_Read.

(** ** [frame.go]: draining and composing readers *)

(** [ReadAllFrames(r)]; the loop runs until the reader reports an error,
    so it is given fuel: [None] means that the call does not return, the
    fuel ran out first or a [Read] panicked. The result is Go's
    [(frames, nil)] or [(nil, err)]. *)
Fixpoint ReadAllFrames_loop {T} `{FrameReader T} (fuel : nat) (r : T)
    (frames : list frame) : option (list frame + error) :=
  match fuel with
  | O => None
  | S fuel' =>
      match Read r with
      | None => None
      | Some (inr err, _) =>
          if error_eqb err EOF then Some (inl frames) else Some (inr err)
      | Some (inl f, r') => ReadAllFrames_loop fuel' r' (frames ++ [f])
      end
  end.

Definition ReadAllFrames {T} `{FrameReader T} (fuel : nat) (r : T)
  : option (list frame + error) :=
  ReadAllFrames_loop fuel r [].

(** [multiFrameReader.Read]: the loop drops exhausted readers from the
    front of the slice. *)
Record multiFrameReader (T : Type) : Type := mkMulti { readers : list T }.

Fixpoint multi_Read_loop {T} `{FrameReader T} (rs : list T)
  : option ((frame + error) * list T) :=
  match rs with
  | [] => Some (inr EOF, [])
  | r0 :: rest =>
      match Read r0 with
      | None => None
      | Some (inr err, r0') =>
          if error_eqb err EOF then multi_Read_loop rest
          else Some (inr err, r0' :: rest)
      | Some (inl f, r0') => Some (inl f, r0' :: rest)
      end
  end.

#[export] Instance multi_FrameReader {T} `{FrameReader T}
  : FrameReader (multiFrameReader T) :=
  fun m =>
    match multi_Read_loop (readers m) with
    | Some (res, rs) => Some (res, mkMulti rs)
    | None => None
    end.

Definition MultiFrameReader {T} (rs : list T) : multiFrameReader T :=
  mkMulti rs.

(** [sliceFrameReader]. *)
Record sliceFrameReader : Type := mkSlice {
  sl_frames : list frame;
  sl_pos : nat
}.

#[export] Instance slice_FrameReader : FrameReader sliceFrameReader :=
  fun s =>
    if sl_pos s =? length (sl_frames s) then Some (inr EOF, s)
    else Some (inl (nth (sl_pos s) (sl_frames s) []),
               mkSlice (sl_frames s) (S (sl_pos s))).

Definition SliceFrameReader (frames : list frame) : sliceFrameReader :=
  mkSlice frames 0.

(** ** [unit]: sizes *)

Module unit.
Definition Byte : N := 1.
Definition Kibibyte : N := Byte * 1024.
Definition Mebibyte : N := Kibibyte * 1024.
End unit.

(** ** [bufio.Scanner] with the [bufio.ScanLines] split function *)

(** The first line of the input: its bytes up to the first ['\n'], and
    what follows that ['\n'] when there is one. *)
Fixpoint break_line (data : list byte) : list byte * option (list byte) :=
  match data with
  | [] => ([], None)
  | c :: rest =>
      if Byte.eqb c newline then ([], Some rest)
      else let (l, r) := break_line rest in (c :: l, r)
  end.

(** [dropCR] of [bufio]: drops one trailing ['\r']. *)
Definition dropCR (data : list byte) : list byte :=
  if (0 <? length data) && Byte.eqb (last data x00) carriage
  then removelast data else data.

(** The scanner over a source. [pending] holds the bytes from the start of
    the next token on, buffered or still in the source; [serr] is the
    scanner's sticky error [s.err], set when reading stopped. The buffer
    has [bufsize] bytes and may not grow ([scanner.Buffer(buf, 0)]): a
    token is cut out as soon as the buffered bytes hold a ['\n'], more is
    read while they do not, and [ErrTooLong] is raised when the buffer is
    full of bytes without one. *)
Record Scanner : Type := mkScanner {
  pending : list byte;
  src_end : error;
  serr : option error;
  bufsize : N
}.

Definition after_line (rest : option (list byte)) : list byte :=
  match rest with
  | Some r => r
  | None => []
  end.

(** [Scan()]: [Some token] for [true], [None] for [false]. *)
Definition Scan (s : Scanner) : option frame * Scanner :=
  match serr s with
  | Some _ =>
      (* reading is over: the split function is given what is buffered,
         with atEOF set *)
      match pending s with
      | [] => (None, s)
      | _ :: _ =>
          let (l, rest) := break_line (pending s) in
          (Some (dropCR l),
           mkScanner (after_line rest) (src_end s) (serr s) (bufsize s))
      end
  | None =>
      let (l, rest) := break_line (pending s) in
      if (bufsize s <=? N.of_nat (length l))%N then
        (None, mkScanner (firstn (N.to_nat (bufsize s)) (pending s))
                 (src_end s) (Some ErrTooLong) (bufsize s))
      else
        match rest with
        | Some r =>
            (Some (dropCR l), mkScanner r (src_end s) None (bufsize s))
        | None =>
            (* no '\n' left: the source is read to its end *)
            match l with
            | [] => (None, mkScanner [] (src_end s) (Some (src_end s))
                             (bufsize s))
            | _ :: _ => (Some (dropCR l),
                         mkScanner [] (src_end s) (Some (src_end s))
                           (bufsize s))
            end
        end
  end.

(** [Err()]: the sticky error unless it is [io.EOF]. *)
Definition Scanner_Err (s : Scanner) : option error :=
  match serr s with
  | Some e => if error_eqb e EOF then None else Some e
  | None => None
  end.

Definition bufio_NewScanner (r : Reader) (size : N) : Scanner :=
  mkScanner (unread r) (atEnd r) None size.

Lemma break_line_Some data l r :
  break_line data = (l, Some r) -> length l + S (length r) = length data.
Proof.
  revert l r. induction data as [|c rest IH]; simpl; intros l r E.
  - discriminate.
  - destruct (Byte.eqb c newline).
    + inversion E; subst. simpl. reflexivity.
    + destruct (break_line rest) as [l' r'] eqn:B.
      inversion E; subst. simpl. rewrite <- (IH l' r eq_refl). reflexivity.
Qed.

Lemma break_line_None data l :
  break_line data = (l, None) -> l = data.
Proof.
  revert l. induction data as [|c rest IH]; simpl; intros l E.
  - inversion E. reflexivity.
  - destruct (Byte.eqb c newline); [discriminate|].
    destruct (break_line rest) as [l' r'] eqn:B.
    inversion E; subst. f_equal. apply IH. reflexivity.
Qed.

(** A successful [Scan] consumes at least one byte. *)
Lemma Scan_progress s tok s' :
  Scan s = (Some tok, s') -> length (pending s') < length (pending s).
Proof.
  unfold Scan. destruct (serr s).
  - destruct (pending s) as [|c p] eqn:P; [discriminate|].
    destruct (break_line (c :: p)) as [l rest] eqn:B. intros E.
    inversion E; subst; simpl. destruct rest as [r|]; simpl.
    + apply break_line_Some in B. simpl in *. lia.
    + lia.
  - destruct (break_line (pending s)) as [l rest] eqn:B.
    destruct (bufsize s <=? N.of_nat (length l))%N; [discriminate|].
    destruct rest as [r|].
    + intros E; inversion E; subst; simpl.
      apply break_line_Some in B. lia.
    + apply break_line_None in B. destruct l; [discriminate|].
      intros E; inversion E; subst; simpl. rewrite <- B. simpl. lia.
Qed.

(** ** [frame.go]: the newline-delimited format *)

Record newlineFrameReader : Type := mkNewlineReader {
  scanner : Scanner;
  skipEmpty : bool
}.

Definition NewNewlineDelimitedFrameReader (r : Reader) (skipEmpty : bool)
  : newlineFrameReader :=
  mkNewlineReader (bufio_NewScanner r unit.Mebibyte) skipEmpty.

Definition pending_bytes (fr : newlineFrameReader) : nat :=
  length (pending (scanner fr)).

(** One turn of the loop in the reader's closure:

      for {
        if !scanner.Scan() { err := scanner.Err(); if err == nil { err = io.EOF }; return nil, err }
        line := scanner.Bytes()
        if skipEmpty && len(line) == 0 { continue }
        return line, nil
      }

    [again] is the loop itself, for a reader with less input pending:
    every line scanned shortens the pending input. *)
Definition newline_Read_body (fr : newlineFrameReader)
    (again : forall fr', pending_bytes fr' < pending_bytes fr ->
                         (frame + error) * newlineFrameReader)
  : (frame + error) * newlineFrameReader :=
  match Scan (scanner fr) as res return Scan (scanner fr) = res -> _ with
  | (None, s') => fun _ =>
      (inr (match Scanner_Err s' with Some err => err | None => EOF end),
       mkNewlineReader s' (skipEmpty fr))
  | (Some line, s') => fun scanned =>
      if skipEmpty fr && (length line =? 0)
      then again (mkNewlineReader s' (skipEmpty fr)) (Scan_progress scanned)
      else (inl line, mkNewlineReader s' (skipEmpty fr))
  end eq_refl.

Definition newline_Read
  : newlineFrameReader -> (frame + error) * newlineFrameReader :=
  Fix (well_founded_ltof _ pending_bytes)
    (fun _ => ((frame + error) * newlineFrameReader)%type)
    newline_Read_body.

#[export] Instance newline_FrameReader : FrameReader newlineFrameReader :=
  fun fr => Some (newline_Read fr).

(** The writer's closure captures the sink and the flag [first]. *)
Record newlineFrameWriter (W : Type) : Type := mkNewlineWriter {
  nw_sink : W;
  nw_first : bool
}.

Definition NewNewlineDelimitedFrameWriter {W} (w : W) : newlineFrameWriter W :=
  mkNewlineWriter w true.

Definition newline_Write {W} `{Writer W} (fw : newlineFrameWriter W)
    (payload : frame) : option (nat * option error) * newlineFrameWriter W :=
  if nw_first fw then
    let '(res, w1) := io_Write (nw_sink fw) payload in
    (Some res, mkNewlineWriter w1 false)
  else
    let '((written, err), w1) := io_Write (nw_sink fw) [newline] in
    match err with
    | Some e => (Some (written, Some e), mkNewlineWriter w1 false)
    | None =>
        let '((n, err2), w2) := io_Write w1 payload in
        (Some (n + written, err2), mkNewlineWriter w2 false)
    end.

#[export] Instance newline_FrameWriter {W} `{Writer W}
  : FrameWriter (newlineFrameWriter W) := newline_Write.

(** ** [chunk.go]: the newline-delimited chunker *)

Class ChunkReader (C R : Type) : Type :=
  NextChunk : C -> (R + error) * C.

(** [bytes.LastIndexByte(s, c)]: the index of the last [c] in [s], or -1. *)
Fixpoint LastIndexByte (s : list byte) (c : byte) : Z :=
  match s with
  | [] => -1
  | b :: rest =>
      let k := LastIndexByte rest c in
      if (0 <=? k)%Z then (k + 1)%Z
      else if Byte.eqb b c then 0%Z else (-1)%Z
  end.

(** [r] is [None] once the chunker has set its reader to [nil]. *)
Record delimitedChunker : Type := mkChunker {
  r : option Reader;
  delimiter : byte;
  chunkSize : Z;
  prev : list byte
}.

(** The [reader] argument is [None] for a [nil] interface value. *)
Definition NewNewlineDelimitedChunkReader (reader : option Reader)
    (chunkSize : Z) : delimitedChunker + error :=
  if (chunkSize <? 0)%Z then inr InvalidArgErr
  else match reader with
       | None => inr InvalidArgErr
       | Some rd => inl (mkChunker (Some rd) newline chunkSize [])
       end.

(** The second half of [NextChunk], from [var buffers []io.Reader] on:
    [src] is the value left in [c.r] and [buf] the bytes the read left in
    the window. *)
Definition cut_chunk (c : delimitedChunker) (src : option Reader)
    (buf : list byte) : (newlineFrameReader + error) * delimitedChunker :=
  let '(buffers, prev1) :=
    if 0 <? length (prev c) then ([bytes_NewReader (prev c)], [])
    else ([], prev c) in
  let pos := LastIndexByte buf (delimiter c) in
  if (pos =? -1)%Z then
    if (Z.of_nat (length buf) =? chunkSize c)%Z then
      (inr NoFrameFoundErr,
       mkChunker src (delimiter c) (chunkSize c) prev1)
    else
      (inl (NewNewlineDelimitedFrameReader
              (io_MultiReader (buffers ++ [bytes_NewReader buf])) true),
       mkChunker src (delimiter c) (chunkSize c) prev1)
  else
    (inl (NewNewlineDelimitedFrameReader
            (io_MultiReader
               (buffers ++ [bytes_NewReader (firstn (Z.to_nat pos) buf)]))
            true),
     mkChunker src (delimiter c) (chunkSize c) (skipn (Z.to_nat pos) buf)).

Definition delimitedChunker_NextChunk (c : delimitedChunker)
  : (newlineFrameReader + error) * delimitedChunker :=
  match r c with
  | None => (inr EOF, c)
  | Some rd =>
      let '(got, err, rd') := io_ReadFull rd (Z.to_nat (chunkSize c)) in
      if errors_Is err ErrUnexpectedEOF || errors_Is err EOF then
        (* c.r = nil; buf = buf[:n] *)
        cut_chunk c None got
      else
        match err with
        | Some e =>
            (inr e, mkChunker (Some rd') (delimiter c) (chunkSize c) (prev c))
        | None => cut_chunk c (Some rd') got
        end
  end.

#[export] Instance delimitedChunker_ChunkReader
  : ChunkReader delimitedChunker newlineFrameReader :=
  delimitedChunker_NextChunk.

(** [ReadAllChunks(chunker)], with fuel like [ReadAllFrames]; the chunker
    is returned too, to observe its final state. *)
Fixpoint ReadAllChunks_loop {C R} `{ChunkReader C R} (fuel : nat)
    (chunker : C) (readers : list R) : option ((list R + error) * C) :=
  match fuel with
  | O => None
  | S fuel' =>
      match NextChunk chunker with
      | (inr err, c') =>
          if error_eqb err EOF then Some (inl readers, c')
          else Some (inr err, c')
      | (inl reader, c') => ReadAllChunks_loop fuel' c' (readers ++ [reader])
      end
  end.

Definition ReadAllChunks {C R} `{ChunkReader C R} (fuel : nat) (chunker : C)
  : option ((list R + error) * C) :=
  ReadAllChunks_loop fuel chunker [].

(** ** [shim.go]: closers

    A closer acts on the state of the world outside the program (files,
    sockets, counters) and reports an error or [nil]. *)

Section Closers.
Variable World : Type.

Definition Closer : Type := World -> option error * World.

(** [CloserFn]: a closure is a closer. *)
Definition CloserFn (f : World -> option error * World) : Closer := f.

Record chainedCloser (W : Type) : Type := mkChained {
  cc_Writer : W;
  cs : list Closer
}.

Definition NewChainedCloser {W} (w : W) (cs : list Closer)
  : chainedCloser W := mkChained w cs.

(** [for _, c := range w.cs { if err := c.Close(); err != nil { return err } }] *)
Fixpoint close_range (cs : list Closer) (w : World) : option error * World :=
  match cs with
  | [] => (None, w)
  | c :: rest =>
      match c w with
      | (Some err, w') => (Some err, w')
      | (None, w') => close_range rest w'
      end
  end.

Definition chainedCloser_Close {W} (c : chainedCloser W) (w : World)
  : option error * World := close_range (cs c) w.

(** [closeOnce]; [once_done] is the state of its [sync.Once]. *)
Record closeOnce : Type := mkCloseOnce {
  closer : Closer;
  err : option error;
  once_done : bool
}.

Definition SafeCloser (closer : Closer) : closeOnce :=
  mkCloseOnce closer None false.

(** [c.once.Do(func() { c.err = c.closer.Close() }); return c.err] *)
Definition closeOnce_Close (c : closeOnce) (w : World)
  : option error * (closeOnce * World) :=
  if once_done c then (err c, (c, w))
  else
    let (e, w') := closer c w in
    (e, (mkCloseOnce (closer c) e true, w')).

(** [n] calls of [Close] in a row and their results, in call order. *)
Fixpoint close_times (n : nat) (c : closeOnce) (w : World)
  : list (option error) * (closeOnce * World) :=
  match n with
  | O => ([], (c, w))
  | S n' =>
      let '(e, (c', w')) := closeOnce_Close c w in
      let '(es, final) := close_times n' c' w' in
      (e :: es, final)
  end.
End Closers.

(** Observing invocations: [logged i c] is the closer [c] that also
    appends its position [i] and its result to a log kept in the world. *)
Definition Log : Type := list (nat * option error).

Definition logged {World} (i : nat) (c : Closer World)
  : Closer (World * Log) :=
  fun '(w, log) => let (e, w') := c w in (e, (w', log ++ [(i, e)])).

Fixpoint logged_from {World} (i : nat) (cs : list (Closer World))
  : list (Closer (World * Log)) :=
  match cs with
  | [] => []
  | c :: rest => logged i c :: logged_from (S i) rest
  end.

(** ** [shim.go]: the buffered write-closer

    [bufio.Writer] over a sink of type [S]: the sticky error [b.err], the
    bytes buffered ([b.buf[:b.n]]), the size of the buffer ([len(b.buf)])
    and the sink [b.wr]. *)
Record bufio_Writer (S : Type) : Type := mkBufio {
  bw_err : option error;
  bw_buf : list byte;
  bw_size : nat;
  bw_wr : S
}.
Arguments mkBufio {S} _ _ _ _.
Arguments bw_err {S} _.
Arguments bw_buf {S} _.
Arguments bw_size {S} _.
Arguments bw_wr {S} _.

Definition defaultBufSize : Z := 4096.

(** [io.ErrShortWrite], one of the errors [OtherErr] stands for. *)
Definition ErrShortWrite : error := OtherErr 1.

(** What asserting that the sink [w] is a [*bufio.Writer] gives when
    it is one: the length of its buffer ([len(b.buf)]) and its
    [Flush]; its [Write] is the sink's. *)
Record is_bufio_Writer (S : Type) : Type := mkIsBufio {
  buf_len : S -> nat;
  sink_Flush : S -> option error * S
}.
Arguments mkIsBufio {S} _ _.
Arguments buf_len {S} _ _.
Arguments sink_Flush {S} _ _.

(** The [*bufio.Writer] that [bufio.NewWriterSize] returns: the sink
    itself, or a new writer over the sink. *)
Inductive Writer_ref (S : Type) : Type :=
| sink_itself (m : is_bufio_Writer S) (w : S)
| new_Writer (b : bufio_Writer S).
Arguments sink_itself {S} _ _.
Arguments new_Writer {S} _.

(** [bufio.NewWriterSize(w, size)]:

      b, ok := w.[*Writer]        (the type assertion)
      if ok && len(b.buf) >= size { return b }
      if size <= 0 { size = defaultBufSize }
      return &Writer{buf: make([]byte, size), wr: w}

    [is_bufio] is the outcome of the type assertion. *)
Definition bufio_NewWriterSize {S : Type} (is_bufio : option (is_bufio_Writer S))
    (w : S) (size : Z) : Writer_ref S :=
  let fresh :=
    new_Writer
      (mkBufio None [] (Z.to_nat (if (size <=? 0)%Z then 4096%Z else size)) w) in
  match is_bufio with
  | Some m => if (size <=? Z.of_nat (buf_len m w))%Z then sink_itself m w
              else fresh
  | None => fresh
  end.

Definition Available {S : Type} (b : bufio_Writer S) : nat :=
  bw_size b - length (bw_buf b).

(** [Flush]:

      if b.err != nil { return b.err }
      if b.n == 0 { return nil }
      n, err := b.wr.Write(b.buf[0:b.n])
      if n < b.n && err == nil { err = io.ErrShortWrite }
      if err != nil { (shift the unwritten bytes down); b.n -= n; b.err = err; return err }
      b.n = 0
      return nil *)
Definition bufio_Flush {S : Type} `{Writer S} (b : bufio_Writer S)
  : option error * bufio_Writer S :=
  match bw_err b with
  | Some e => (Some e, b)
  | None =>
      if length (bw_buf b) =? 0 then (None, b)
      else
        let '((n, err), w') := io_Write (bw_wr b) (bw_buf b) in
        let err' := match err with
                    | None => if n <? length (bw_buf b)
                              then Some ErrShortWrite else None
                    | Some e => Some e
                    end in
        match err' with
        | Some e => (Some e, mkBufio (Some e) (skipn n (bw_buf b)) (bw_size b) w')
        | None => (None, mkBufio None [] (bw_size b) w')
        end
  end.

(** [Write]; [nn] is the count so far, [fuel] bounds the turns of

      for len(p) > b.Available() && b.err == nil {
        var n int
        if b.Buffered() == 0 { n, b.err = b.wr.Write(p) }
        else { n = copy(b.buf[b.n:], p); b.n += n; b.Flush() }
        nn += n
        p = p[n:]
      }
      if b.err != nil { return nn, b.err }
      n := copy(b.buf[b.n:], p); b.n += n; nn += n
      return nn, nil

    and [None] means that the fuel ran out. *)
Fixpoint bufio_Write_loop {S : Type} `{Writer S} (fuel : nat)
    (b : bufio_Writer S) (p : list byte) (nn : nat)
  : option ((nat * option error) * bufio_Writer S) :=
  if (Available b <? length p)
     && match bw_err b with None => true | Some _ => false end
  then
    match fuel with
    | O => None
    | S fuel' =>
        if length (bw_buf b) =? 0 then
          let '((n, err), w') := io_Write (bw_wr b) p in
          bufio_Write_loop fuel' (mkBufio err (bw_buf b) (bw_size b) w')
            (skipn n p) (nn + n)
        else
          let n := Available b in
          let '(_, b') :=
            bufio_Flush (mkBufio (bw_err b) (bw_buf b ++ firstn n p)
                           (bw_size b) (bw_wr b)) in
          bufio_Write_loop fuel' b' (skipn n p) (nn + n)
    end
  else
    match bw_err b with
    | Some e => Some ((nn, Some e), b)
    | None =>
        Some ((nn + length p, None),
              mkBufio None (bw_buf b ++ p) (bw_size b) (bw_wr b))
    end.

Definition bufio_Write {S : Type} `{Writer S} (fuel : nat)
    (b : bufio_Writer S) (p : list byte)
  : option ((nat * option error) * bufio_Writer S) :=
  bufio_Write_loop fuel b p 0.

(** [buf.Write] and [buf.Flush] for the writer that
    [bufio.NewWriterSize] returned. *)
Definition buf_Write {S : Type} `{Writer S} (fuel : nat) (buf : Writer_ref S)
    (p : list byte) : option ((nat * option error) * Writer_ref S) :=
  match buf with
  | sink_itself m w =>
      let (res, w') := io_Write w p in Some (res, sink_itself m w')
  | new_Writer b =>
      match bufio_Write fuel b p with
      | Some (res, b') => Some (res, new_Writer b')
      | None => None
      end
  end.

Definition buf_Flush {S : Type} `{Writer S} (buf : Writer_ref S)
  : option error * Writer_ref S :=
  match buf with
  | sink_itself m w => let (e, w') := sink_Flush m w in (e, sink_itself m w')
  | new_Writer b => let (e, b') := bufio_Flush b in (e, new_Writer b')
  end.

(** The closer of the sink, acting on the buffer that holds the sink or
    is the sink. *)
Definition close_sink {S : Type} (close : S -> option error * S)
  : Closer (Writer_ref S) :=
  fun buf =>
    match buf with
    | sink_itself m w => let (e, w') := close w in (e, sink_itself m w')
    | new_Writer b =>
        let (e, w') := close (bw_wr b) in
        (e, new_Writer (mkBufio (bw_err b) (bw_buf b) (bw_size b) w'))
    end.

(** [NewBufferWriteCloserSize(w, size)]. The buffer [buf] is shared by the
    embedded writer and by the first closer, so it is the world the
    closers act on; the result is the chained closer, whose embedded
    writer is [buf]'s [Write] on that world, and the world at the start.
    [is_bufio] is the outcome of asserting [w] to be a [*bufio.Writer]
    inside [bufio.NewWriterSize], and [closer] the outcome of
    [w.(io.Closer)]:
    the sink's [Close] when it has one. *)
Definition NewBufferWriteCloserSize {S : Type} `{Writer S}
    (is_bufio : option (is_bufio_Writer S))
    (closer : option (S -> option error * S)) (w : S) (size : Z)
  : chainedCloser (Writer_ref S)
      (nat -> Writer_ref S -> list byte ->
       option ((nat * option error) * Writer_ref S))
    * Writer_ref S :=
  let size := if (size <? 0)%Z then defaultBufSize else size in
  let buf := bufio_NewWriterSize is_bufio w size in
  let closers :=
    [CloserFn buf_Flush]
      ++ match closer with
         | Some close => [close_sink close]
         | None => []
         end in
  (NewChainedCloser buf_Write closers, buf).

Definition NewBufferWriteCloser {S : Type} `{Writer S}
    (is_bufio : option (is_bufio_Writer S))
    (closer : option (S -> option error * S)) (w : S) :=
  NewBufferWriteCloserSize is_bufio closer w defaultBufSize.

(** ** The test harness of [chunk_test.go]

    [assertChunkReaderRoundTrip] compares the frames of a stream decoded
    directly with the frames decoded chunk after chunk. *)

Definition direct_frames (fuel : nat) (stream : list byte)
  : option (list frame + error) :=
  ReadAllFrames fuel
    (NewNewlineDelimitedFrameReader (bytes_NewReader stream) true).

Definition chunked_frames (fuel : nat) (stream : list byte) (size : Z)
  : option (list frame + error) :=
  match NewNewlineDelimitedChunkReader (Some (bytes_NewReader stream)) size with
  | inr e => Some (inr e)
  | inl chunker =>
      match ReadAllChunks fuel chunker with
      | None => None
      | Some (inr e, _) => Some (inr e)
      | Some (inl cursors, _) => ReadAllFrames fuel (MultiFrameReader cursors)
      end
  end.

(** * Vocabulary of the properties *)

Unset Implicit Arguments.

(** ** Draining a reader

    [Drains r fs e]: reading [r] until it reports an error yields the
    frames [fs], then the error [e] ([EOF] at the normal end). *)

Inductive Drains {T : Type} `{FrameReader T} : T -> list frame -> error -> Prop :=
| Drains_stop (r r' : T) (e : error) :
    Read r = Some (inr e, r') -> Drains r [] e
| Drains_frame (r r' : T) (f : frame) (fs : list frame) (e : error) :
    Read r = Some (inl f, r') -> Drains r' fs e -> Drains r (f :: fs) e.

(** What [ReadAllFrames] returns for a reader that drains to [fs] and [e]. *)
Definition drained (fs : list frame) (e : error) : list frame + error :=
  if error_eqb e EOF then inl fs else inr e.

(** ** Cursors over in-memory bytes *)

(** The cursor over in-memory bytes [d], as [cut_chunk] builds it, for a
    scanner buffer of [B] bytes; and the same cursor once its scanner has
    seen the end of the input. *)
Definition cursor (B : N) (d : list byte) : newlineFrameReader :=
  mkNewlineReader (mkScanner d EOF None B) true.

Definition spent_cursor (B : N) : newlineFrameReader :=
  mkNewlineReader (mkScanner [] EOF (Some EOF) B) true.

(** ** Lines and windows of a stream *)

(** The lines of a stream: the runs of bytes between delimiters, a last
    one after the last delimiter included (it may be empty). *)
Fixpoint lines (data : list byte) : list (list byte) :=
  match data with
  | [] => [[]]
  | c :: rest =>
      if Byte.eqb c newline then [] :: lines rest
      else match lines rest with
           | l :: ls => (c :: l) :: ls
           | [] => [[c]]
           end
  end.

(** Every line is shorter than the chunk size: a window of [size] bytes
    cannot lie inside one line. *)
Definition short_lines (size : Z) (data : list byte) : Prop :=
  Forall (fun l => (Z.of_nat (length l) < size)%Z) (lines data).

(** The bytes the chunker's last read gets: what is left of the stream
    after the reads that filled their window. *)
Definition last_read (size : nat) (stream : list byte) : list byte :=
  skipn (size * (length stream / size)) stream.

(** A window with nothing after its last delimiter, if it has one. *)
Definition ends_clean (w : list byte) : Prop :=
  ~ In newline w \/ exists w', w = w' ++ [newline].

(** ** The carry of the chunker *)

(** What C10 says about a call that found a delimiter in the window
    [got]: the cursor's content is the old carry followed by the bytes
    before the last delimiter, the new carry is that delimiter followed by
    the bytes after it, and a cursor built on this carry and the next
    window reads as if the carry's delimiter were not there. *)
Definition carry_invariant (c : delimitedChunker) (got : list byte) : Prop :=
  exists content tail c',
    got = content ++ newline :: tail /\ ~ In newline tail /\
    NextChunk c =
      (inl (NewNewlineDelimitedFrameReader
              (bytes_NewReader (prev c ++ content)) true), c') /\
    prev c' = newline :: tail /\
    forall next : list byte,
      Read (NewNewlineDelimitedFrameReader
              (bytes_NewReader (prev c' ++ next)) true)
      = Read (NewNewlineDelimitedFrameReader
                (bytes_NewReader (tail ++ next)) true).

(** ** Streams, payloads and closers of the tests *)

Definition c_bob : list byte := bytes_of_string "c:bob"%string.

(** The three closers of [TestChainedCloser]: each increments the shared
    counter [seq] and stores it in its own barrier. The world is the
    counter and the barriers [a], [b], [c]. *)
Definition isClosed (barrier : nat) : Closer (nat * (nat * nat * nat)) :=
  fun '(seq, (a, b, c)) =>
    let seq' := S seq in
    (None, (seq', match barrier with
                  | 0 => (seq', b, c)
                  | 1 => (a, seq', c)
                  | _ => (a, b, seq')
                  end)).

(** A payload of [2 ^ 35] zero bytes (32 GiB). *)
Definition huge_payload : frame := repeat x00 (N.to_nat (2 ^ 35)).

(** [basicTestFraming]: write the payloads in order, each without error. *)
Fixpoint write_frames {T : Type} `{FrameWriter T} (w : T)
    (payloads : list frame) : option T :=
  match payloads with
  | [] => Some w
  | p :: rest =>
      match fw_Write w p with
      | (Some (_, None), w') => write_frames w' rest
      | _ => None
      end
  end.

(** The bytes of one frame on the wire. *)
Definition frame_bytes (p : frame) : list byte :=
  match PutUvarint MaxVarintLen32 (uint64 (N.of_nat (length p))) with
  | Some enc => enc ++ p
  | None => []
  end.

Definition payload_fits (p : frame) : Prop :=
  (N.of_nat (length p) < 2 ^ 35)%N.

(** ** Lines, tokens and frames of the newline-delimited format *)

(** The newline-delimited reader over in-memory bytes [d] followed by the
    source's final error [e0], with a scanner buffer of [B] bytes; and the
    same reader once its scanner has seen the end of the input. *)
Definition line_reader (B : N) (e0 : error) (skip : bool) (d : list byte)
  : newlineFrameReader :=
  mkNewlineReader (mkScanner d e0 None B) skip.

Definition spent_reader (B : N) (e0 : error) (skip : bool)
  : newlineFrameReader :=
  mkNewlineReader (mkScanner [] e0 (Some e0) B) skip.

(** The lines that make a token: all of them but an empty last one. *)
Fixpoint tokens (ls : list (list byte)) : list (list byte) :=
  match ls with
  | [] => []
  | l :: rest =>
      match rest with
      | [] => if length l =? 0 then [] else [l]
      | _ :: _ => l :: tokens rest
      end
  end.

Definition kept (skip : bool) (toks : list frame) : list frame :=
  if skip then filter (fun t => negb (length t =? 0)) toks else toks.

Definition decoded (skip : bool) (data : list byte) : list frame :=
  kept skip (map dropCR (tokens (lines data))).

(** A line that the scanner's buffer of [B] bytes can hold. *)
Definition fits (B : N) (l : list byte) : Prop := (N.of_nat (length l) < B)%N.

(** One line of one mebibyte. *)
Definition long_line : list byte := repeat x61 (N.to_nat unit.Mebibyte).

(** What the newline-delimited writer leaves in its sink: the payloads
    with a ['\n'] between them. *)
Definition joined (ps : list frame) : list byte :=
  match ps with
  | [] => []
  | p :: rest => p ++ concat (map (cons newline) rest)
  end.

(** A payload that the newline-delimited format carries unchanged. *)
Definition line_payload (p : frame) : Prop :=
  ~ In newline p /\ dropCR p = p /\ (N.of_nat (length p) < unit.Mebibyte)%N.

(** The payloads, each followed by ["\r\n"]. *)
Definition crlf_stream (ps : list frame) : list byte :=
  concat (map (fun p => p ++ [carriage; newline]) ps).

(** ** The chunker over a whole stream *)

(** The bytes a cursor was made over. *)
Definition chunk_bytes (fr : newlineFrameReader) : list byte :=
  pending (scanner fr).

(** The bytes the chunker has not read yet. *)
Definition source_left (c : delimitedChunker) : list byte :=
  match r c with
  | Some rd => unread rd
  | None => []
  end.

(** A carry: nothing, or the last delimiter of a window and what
    followed it. *)
Definition carry_ok (p : list byte) : Prop :=
  p = [] \/ exists tail, p = newline :: tail /\ ~ In newline tail.

(** Some window of [size] bytes, counted from the start of the stream,
    is full and holds no delimiter. *)
Definition blind_window (size : nat) (stream : list byte) : Prop :=
  exists k, size * k + size <= length stream
            /\ ~ In newline (firstn size (skipn (size * k) stream)).

(** The states of a chunker made by [NewNewlineDelimitedChunkReader] over
    a source that ends with [io.EOF]. *)
Definition chunker_ok (c : delimitedChunker) : Prop :=
  (0 <= chunkSize c)%Z /\ delimiter c = newline
  /\ match r c with Some rd => atEnd rd = EOF | None => True end
  /\ carry_ok (prev c)
  /\ (Z.of_nat (length (prev c)) <= chunkSize c)%Z.

(** A source that fails with anything but the end of the stream. *)
Definition broken (rd : Reader) : Prop :=
  atEnd rd <> EOF /\ atEnd rd <> ErrUnexpectedEOF.

(** ** Writes through a buffer *)

(** Writing the payloads in order through the embedded writer of a
    write-closer, each call returning its payload's length and no error. *)
Fixpoint write_all {World : Type}
    (wr : World -> list byte -> option ((nat * option error) * World))
    (b : World) (payloads : list (list byte)) : option World :=
  match payloads with
  | [] => Some b
  | p :: rest =>
      match wr b p with
      | Some ((n, None), b') =>
          if n =? length p then write_all wr b' rest else None
      | _ => None
      end
  end.

(** The bytes a buffered writer over a [bytes.Buffer] has accepted: those
    in the sink, then those still in the buffer. *)
Definition accepted (b : bufio_Writer Buffer) : list byte :=
  bw_wr b ++ bw_buf b.

(** ** The decode buffer of the length-prefixed reader *)

(** [Read] has a buffer for a payload of [n] bytes: the one it holds is
    long enough, or [make] can give one. *)
Definition allocates (fr : varLenFrameReader) (n : N) : Prop :=
  (n <= bufCap fr \/ n <= allocLimit fr)%N.

(** The length prefix of [2 ^ 63]: nine continuation bytes without
    payload bits, then the bit 63. *)
Definition prefix_of_2_63 : list byte := repeat x80 9 ++ [x01].

(** * Properties *)

(** ** Bytes, errors and reads *)

Lemma byte_eqb_spec (a b : byte) : reflect (a = b) (Byte.eqb a b).
Proof.
  destruct (Byte.eqb a b) eqn:E; constructor.
  - now apply Byte.byte_dec_bl.
  - now apply Byte.eqb_false.
Qed.

Lemma error_eqb_spec (a b : error) : reflect (a = b) (error_eqb a b).
Proof.
  destruct a, b; simpl; try (constructor; congruence).
  destruct (Nat.eqb_spec code code0); constructor; congruence.
Qed.

Lemma io_ReadFull_full (rd : Reader) (n : nat) :
  n <= length (unread rd) ->
  io_ReadFull rd n =
    (firstn n (unread rd), None, mkReader (skipn n (unread rd)) (atEnd rd)).
Proof.
  intros Hn. unfold io_ReadFull.
  destruct (Nat.leb_spec n (length (unread rd))); [reflexivity | lia].
Qed.

Lemma io_ReadFull_short (rd : Reader) (n : nat) :
  length (unread rd) < n -> atEnd rd = EOF ->
  io_ReadFull rd n =
    (unread rd,
     Some (match unread rd with [] => EOF | _ :: _ => ErrUnexpectedEOF end),
     mkReader [] EOF).
Proof.
  intros Hn He. unfold io_ReadFull.
  destruct (Nat.leb_spec n (length (unread rd))); [lia|].
  rewrite He. destruct (unread rd); reflexivity.
Qed.

(** ** [bytes.LastIndexByte] *)

Lemma LastIndexByte_bounds (s : list byte) (c : byte) :
  (-1 <= LastIndexByte s c < Z.of_nat (length s))%Z.
Proof.
  induction s as [|b rest IH]; simpl length; simpl LastIndexByte; [lia|].
  destruct (Z.leb_spec 0 (LastIndexByte rest c)).
  - lia.
  - destruct (Byte.eqb b c); lia.
Qed.

Lemma LastIndexByte_absent (s : list byte) (c : byte) :
  LastIndexByte s c = (-1)%Z <-> ~ In c s.
Proof.
  induction s as [|b rest IH]; simpl LastIndexByte.
  - simpl. tauto.
  - pose proof (LastIndexByte_bounds rest c) as Hb.
    destruct (Z.leb_spec 0 (LastIndexByte rest c)).
    + split; [lia|]. intros Hn. exfalso. apply Hn. right.
      destruct (in_dec Byte.byte_eq_dec c rest) as [i|n]; [exact i|].
      apply IH in n. lia.
    + assert (Hr : LastIndexByte rest c = (-1)%Z) by lia.
      apply IH in Hr.
      destruct (byte_eqb_spec b c) as [->|Hne]; simpl.
      * split; [lia|]. intros Hn. exfalso. apply Hn. now left.
      * split; [|reflexivity]. intros _ [E|i]; [congruence|tauto].
Qed.

Lemma LastIndexByte_present (s : list byte) (c : byte) :
  In c s -> (0 <= LastIndexByte s c)%Z.
Proof.
  intros Hin. pose proof (LastIndexByte_bounds s c).
  destruct (Z.eq_dec (LastIndexByte s c) (-1)) as [E|E]; [|lia].
  apply LastIndexByte_absent in E. contradiction.
Qed.

(** The bytes before the last delimiter, the delimiter, and a tail
    without delimiter. *)
Lemma LastIndexByte_cut (s : list byte) (c : byte) :
  (0 <= LastIndexByte s c)%Z ->
  exists tail,
    s = firstn (Z.to_nat (LastIndexByte s c)) s ++ c :: tail /\
    skipn (Z.to_nat (LastIndexByte s c)) s = c :: tail /\
    ~ In c tail.
Proof.
  induction s as [|b rest IH]; simpl LastIndexByte; [lia|].
  pose proof (LastIndexByte_bounds rest c) as Hb.
  destruct (Z.leb_spec 0 (LastIndexByte rest c)) as [Hk|Hk].
  - intros _. destruct (IH Hk) as (tail & E1 & E2 & E3).
    exists tail. rewrite Z2Nat.inj_add by lia.
    replace (Z.to_nat (LastIndexByte rest c) + Z.to_nat 1)
      with (S (Z.to_nat (LastIndexByte rest c))) by lia.
    simpl. rewrite <- E1. auto.
  - destruct (byte_eqb_spec b c) as [->|Hne]; [|lia].
    intros _. exists rest. simpl. repeat split.
    apply LastIndexByte_absent. lia.
Qed.

(** ** The newline-delimited reader, one step at a time *)

Lemma newline_Read_step (fr : newlineFrameReader) :
  newline_Read fr =
  match Scan (scanner fr) with
  | (None, s') =>
      (inr (match Scanner_Err s' with Some e => e | None => EOF end),
       mkNewlineReader s' (skipEmpty fr))
  | (Some line, s') =>
      if skipEmpty fr && (length line =? 0)
      then newline_Read (mkNewlineReader s' (skipEmpty fr))
      else (inl line, mkNewlineReader s' (skipEmpty fr))
  end.
Proof.
  unfold newline_Read at 1. rewrite Corelib.Init.Wf.Fix_eq.
  - unfold newline_Read_body at 1.
    generalize (@Scan_progress (scanner fr)).
    destruct (Scan (scanner fr)) as [[line|] s']; intros HP; [|reflexivity].
    destruct (skipEmpty fr && (length line =? 0)); reflexivity.
  - intros x f g Hfg. unfold newline_Read_body.
    generalize (@Scan_progress (scanner x)).
    destruct (Scan (scanner x)) as [[line|] s']; intros HP; [|reflexivity].
    destruct (skipEmpty x && (length line =? 0)); [apply Hfg | reflexivity].
Qed.

(** A reader that skips empty lines behaves the same with a ['\n'] put in
    front of its input. *)
Lemma newline_Read_leading_newline (rest : list byte) :
  Read (NewNewlineDelimitedFrameReader (bytes_NewReader (newline :: rest)) true)
  = Read (NewNewlineDelimitedFrameReader (bytes_NewReader rest) true).
Proof.
  unfold Read, newline_FrameReader.
  rewrite newline_Read_step. reflexivity.
Qed.

(** ** The chunker: construction *)

Lemma NewNewlineDelimitedChunkReader_negative (reader : option Reader) (size : Z) :
  (size < 0)%Z -> NewNewlineDelimitedChunkReader reader size = inr InvalidArgErr.
Proof.
  intros H. unfold NewNewlineDelimitedChunkReader.
  destruct (Z.ltb_spec size 0); [reflexivity | lia].
Qed.

Lemma NewNewlineDelimitedChunkReader_nil (size : Z) :
  NewNewlineDelimitedChunkReader None size = inr InvalidArgErr.
Proof.
  unfold NewNewlineDelimitedChunkReader. destruct (size <? 0)%Z; reflexivity.
Qed.

Lemma NewNewlineDelimitedChunkReader_positive (rd : Reader) (size : Z) :
  (0 < size)%Z ->
  NewNewlineDelimitedChunkReader (Some rd) size
  = inl (mkChunker (Some rd) newline size []).
Proof.
  intros H. unfold NewNewlineDelimitedChunkReader.
  destruct (Z.ltb_spec size 0); [lia | reflexivity].
Qed.

(** C3 fails at zero: a chunk size of zero with a reader that is not nil
    passes the constructor's check [chunkSize < 0]. *)
Lemma NewNewlineDelimitedChunkReader_zero :
  NewNewlineDelimitedChunkReader (Some (bytes_NewReader [])) 0
  = inl (mkChunker (Some (bytes_NewReader [])) newline 0 [])
  /\ NewNewlineDelimitedChunkReader (Some (bytes_NewReader [])) 0
     <> inr InvalidArgErr.
Proof. split; [reflexivity | discriminate]. Qed.

(** ** The chunker: one call *)

Lemma cut_chunk_skipEmpty c src buf fr c' :
  cut_chunk c src buf = (inl fr, c') -> skipEmpty fr = true.
Proof.
  unfold cut_chunk.
  destruct (0 <? length (prev c));
    destruct (LastIndexByte buf (delimiter c) =? -1)%Z;
    try destruct (Z.of_nat (length buf) =? chunkSize c)%Z;
    intros E; inversion E; reflexivity.
Qed.

Lemma NextChunk_skipEmpty (c : delimitedChunker) fr c' :
  NextChunk c = (inl fr, c') -> skipEmpty fr = true.
Proof.
  unfold NextChunk, delimitedChunker_ChunkReader, delimitedChunker_NextChunk.
  destruct (r c) as [rd|]; [|discriminate].
  destruct (io_ReadFull rd (Z.to_nat (chunkSize c))) as [[got e] rd'].
  destruct (errors_Is e ErrUnexpectedEOF || errors_Is e EOF).
  - apply cut_chunk_skipEmpty.
  - destruct e; [discriminate|]. apply cut_chunk_skipEmpty.
Qed.

(** The content handed to the cursor is the carry followed by the bytes
    of the window that belong to the chunk. *)
Lemma chunk_content (carry part : list byte) :
  io_MultiReader
    ((if 0 <? length carry then [bytes_NewReader carry] else [])
       ++ [bytes_NewReader part])
  = bytes_NewReader (carry ++ part).
Proof.
  unfold io_MultiReader, bytes_NewReader.
  destruct carry as [|b carry]; simpl; now rewrite ?app_nil_r.
Qed.

Lemma cut_chunk_without_delimiter c src buf :
  ~ In (delimiter c) buf ->
  cut_chunk c src buf =
    if (Z.of_nat (length buf) =? chunkSize c)%Z then
      (inr NoFrameFoundErr, mkChunker src (delimiter c) (chunkSize c) [])
    else
      (inl (NewNewlineDelimitedFrameReader
              (bytes_NewReader (prev c ++ buf)) true),
       mkChunker src (delimiter c) (chunkSize c) []).
Proof.
  intros Hno. apply LastIndexByte_absent in Hno.
  unfold cut_chunk. rewrite Hno. simpl.
  rewrite <- chunk_content.
  destruct (prev c) as [|b p]; simpl;
    destruct (Z.of_nat (length buf) =? chunkSize c)%Z; reflexivity.
Qed.

Lemma cut_chunk_with_delimiter c src buf :
  In (delimiter c) buf ->
  exists content tail,
    buf = content ++ delimiter c :: tail /\ ~ In (delimiter c) tail /\
    cut_chunk c src buf =
      (inl (NewNewlineDelimitedFrameReader
              (bytes_NewReader (prev c ++ content)) true),
       mkChunker src (delimiter c) (chunkSize c) (delimiter c :: tail)).
Proof.
  intros Hin. apply LastIndexByte_present in Hin.
  destruct (LastIndexByte_cut _ _ Hin) as (tail & E1 & E2 & E3).
  exists (firstn (Z.to_nat (LastIndexByte buf (delimiter c))) buf), tail.
  split; [exact E1|]. split; [exact E3|].
  unfold cut_chunk.
  destruct (Z.eqb_spec (LastIndexByte buf (delimiter c)) (-1)); [lia|].
  rewrite E2, <- chunk_content.
  destruct (prev c) as [|b p]; reflexivity.
Qed.

Lemma NextChunk_full_read (c : delimitedChunker) (rd : Reader) :
  r c = Some rd ->
  (0 <= chunkSize c <= Z.of_nat (length (unread rd)))%Z ->
  NextChunk c =
    cut_chunk c
      (Some (mkReader (skipn (Z.to_nat (chunkSize c)) (unread rd)) (atEnd rd)))
      (firstn (Z.to_nat (chunkSize c)) (unread rd)).
Proof.
  intros Hr Hk.
  unfold NextChunk, delimitedChunker_ChunkReader, delimitedChunker_NextChunk.
  rewrite Hr, io_ReadFull_full by lia. reflexivity.
Qed.

Lemma NextChunk_short_read (c : delimitedChunker) (rd : Reader) :
  r c = Some rd ->
  (Z.of_nat (length (unread rd)) < chunkSize c)%Z -> atEnd rd = EOF ->
  NextChunk c = cut_chunk c None (unread rd).
Proof.
  intros Hr Hk He.
  unfold NextChunk, delimitedChunker_ChunkReader, delimitedChunker_NextChunk.
  rewrite Hr, io_ReadFull_short by (lia || assumption).
  destruct (unread rd); reflexivity.
Qed.

Lemma NextChunk_exhausted (c : delimitedChunker) :
  r c = None -> NextChunk c = (inr EOF, c).
Proof.
  intros Hr.
  unfold NextChunk, delimitedChunker_ChunkReader, delimitedChunker_NextChunk.
  now rewrite Hr.
Qed.

(** What a chunker of size zero is good for: every call reads zero bytes,
    finds no delimiter in a window that is as long as the chunk size, and
    fails; the reader is never consumed and the end of the stream never
    reached. *)
Lemma zero_size_chunker_stuck (rd : Reader) (carry : list byte) :
  NextChunk (mkChunker (Some rd) newline 0 carry)
  = (inr NoFrameFoundErr, mkChunker (Some rd) newline 0 []).
Proof.
  rewrite (NextChunk_full_read (mkChunker (Some rd) newline 0 carry) rd eq_refl)
    by (simpl; lia).
  rewrite cut_chunk_without_delimiter by (simpl; tauto).
  destruct rd as [u e]. reflexivity.
Qed.

(** C3, amended: the constructor returns the "invalid argument" error and
    no chunker for every negative chunk size, whatever the reader, and for
    a nil reader, whatever the chunk size; it succeeds for every chunk
    size that is zero or positive with a reader that is not nil. The
    chunker of size zero then fails every [NextChunk] with
    [NoFrameFoundErr]. *)
Theorem NewNewlineDelimitedChunkReader_checks (reader : option Reader)
    (size : Z) :
  ((size < 0)%Z \/ reader = None ->
   NewNewlineDelimitedChunkReader reader size = inr InvalidArgErr)
  /\ (forall rd, reader = Some rd -> (0 <= size)%Z ->
      NewNewlineDelimitedChunkReader reader size
      = inl (mkChunker (Some rd) newline size []))
  /\ (forall rd carry,
      fst (NextChunk (mkChunker (Some rd) newline 0 carry))
      = inr NoFrameFoundErr).
Proof.
  split; [|split].
  - intros [Hneg| ->].
    + now apply NewNewlineDelimitedChunkReader_negative.
    + apply NewNewlineDelimitedChunkReader_nil.
  - intros rd -> Hsize. unfold NewNewlineDelimitedChunkReader.
    destruct (Z.ltb_spec size 0); [lia | reflexivity].
  - intros rd carry. now rewrite zero_size_chunker_stuck.
Qed.

Lemma NewNewlineDelimitedChunkReader_checks_witness :
  NewNewlineDelimitedChunkReader (Some (bytes_NewReader [x61])) (-1)
  = inr InvalidArgErr
  /\ NewNewlineDelimitedChunkReader None 128 = inr InvalidArgErr
  /\ NewNewlineDelimitedChunkReader (Some (bytes_NewReader [x61])) 128
     = inl (mkChunker (Some (bytes_NewReader [x61])) newline 128 []).
Proof.
  split; [|split].
  - apply (proj1 (NewNewlineDelimitedChunkReader_checks
                    (Some (bytes_NewReader [x61])) (-1))).
    left. lia.
  - apply (proj1 (NewNewlineDelimitedChunkReader_checks None 128)).
    right. reflexivity.
  - apply (proj1 (proj2 (NewNewlineDelimitedChunkReader_checks
                           (Some (bytes_NewReader [x61])) 128))
             (bytes_NewReader [x61]) eq_refl).
    lia.
Defined.

(** C4: a call whose read fills the whole window ([chunkSize] bytes, no
    error) with bytes none of which is the delimiter fails with
    [NoFrameFoundErr]; a call whose read is cut short by the end of the
    input and finds no delimiter returns a cursor over the bytes that
    remain (the carry, then the bytes just read) unchanged, and leaves the
    chunker exhausted with an empty carry. *)
Theorem NextChunk_without_delimiter (c : delimitedChunker) (rd : Reader) :
  r c = Some rd ->
  ((0 <= chunkSize c <= Z.of_nat (length (unread rd)))%Z ->
   ~ In (delimiter c) (firstn (Z.to_nat (chunkSize c)) (unread rd)) ->
   fst (NextChunk c) = inr NoFrameFoundErr)
  /\
  ((Z.of_nat (length (unread rd)) < chunkSize c)%Z ->
   atEnd rd = EOF ->
   ~ In (delimiter c) (unread rd) ->
   NextChunk c =
     (inl (NewNewlineDelimitedFrameReader
             (bytes_NewReader (prev c ++ unread rd)) true),
      mkChunker None (delimiter c) (chunkSize c) [])).
Proof.
  intros Hr. split.
  - intros Hk Hno.
    rewrite (NextChunk_full_read _ _ Hr Hk), cut_chunk_without_delimiter by exact Hno.
    rewrite length_firstn.
    destruct (Z.eqb_spec
                (Z.of_nat (Nat.min (Z.to_nat (chunkSize c)) (length (unread rd))))
                (chunkSize c)); [reflexivity | lia].
  - intros Hk He Hno.
    rewrite (NextChunk_short_read _ _ Hr Hk He), cut_chunk_without_delimiter by exact Hno.
    destruct (Z.eqb_spec (Z.of_nat (length (unread rd))) (chunkSize c));
      [lia | reflexivity].
Qed.

Lemma NextChunk_without_delimiter_witness :
  fst (NextChunk
         (mkChunker (Some (bytes_NewReader [x61; x62; x63; x64])) newline 2 []))
  = inr NoFrameFoundErr
  /\
  NextChunk
    (mkChunker (Some (bytes_NewReader [x63; x64])) newline 4 [x0a; x61; x62])
  = (inl (NewNewlineDelimitedFrameReader
            (bytes_NewReader [x0a; x61; x62; x63; x64]) true),
     mkChunker None newline 4 []).
Proof.
  split.
  - apply (proj1 (NextChunk_without_delimiter
                    (mkChunker (Some (bytes_NewReader [x61; x62; x63; x64]))
                       newline 2 [])
                    (bytes_NewReader [x61; x62; x63; x64]) eq_refl)).
    + simpl. lia.
    + simpl. intros [H|[H|[]]]; discriminate H.
  - apply (proj2 (NextChunk_without_delimiter
                    (mkChunker (Some (bytes_NewReader [x63; x64]))
                       newline 4 [x0a; x61; x62])
                    (bytes_NewReader [x63; x64]) eq_refl)).
    + simpl. lia.
    + reflexivity.
    + simpl. intros [H|[H|[]]]; discriminate H.
Defined.

(** C10: whenever the read of a call leaves a window [got] that holds a
    delimiter, the chunk excludes the last delimiter of the window, the
    carry is non-empty and starts with ['\n'], and the empty line this
    carry puts in front of the next chunk is skipped; every cursor the
    chunker returns has empty-line skipping enabled. *)
Theorem NextChunk_delimiter_invariant (c : delimitedChunker) (rd : Reader)
    (got : list byte) (e : option error) (rd' : Reader) :
  r c = Some rd -> delimiter c = newline ->
  io_ReadFull rd (Z.to_nat (chunkSize c)) = (got, e, rd') ->
  e = None \/ e = Some EOF \/ e = Some ErrUnexpectedEOF ->
  In newline got ->
  carry_invariant c got
  /\ (forall c0 fr c0', NextChunk c0 = (inl fr, c0') -> skipEmpty fr = true).
Proof.
  intros Hr Hd Hread He Hin. split; [|apply NextChunk_skipEmpty].
  assert (Hcut : exists src, NextChunk c = cut_chunk c src got).
  { unfold NextChunk, delimitedChunker_ChunkReader, delimitedChunker_NextChunk.
    rewrite Hr, Hread.
    destruct He as [->|[->| ->]]; simpl; eexists; reflexivity. }
  destruct Hcut as [src Hcut].
  rewrite <- Hd in Hin.
  destruct (cut_chunk_with_delimiter c src got Hin) as (content & tail & E1 & E2 & E3).
  rewrite Hd in E1, E2, E3.
  exists content, tail. eexists.
  split; [exact E1|]. split; [exact E2|].
  split; [rewrite Hcut; exact E3|].
  split; [reflexivity|].
  intros next. simpl. apply newline_Read_leading_newline.
Qed.

Lemma NextChunk_delimiter_invariant_witness :
  carry_invariant
    (mkChunker (Some (bytes_NewReader [x61; x0a; x62; x63])) newline 3 [])
    [x61; x0a; x62]
  /\ (forall c0 fr c0', NextChunk c0 = (inl fr, c0') -> skipEmpty fr = true).
Proof.
  apply (NextChunk_delimiter_invariant
           (mkChunker (Some (bytes_NewReader [x61; x0a; x62; x63])) newline 3 [])
           (bytes_NewReader [x61; x0a; x62; x63])
           [x61; x0a; x62] None (mkReader [x63] EOF)).
  - reflexivity.
  - reflexivity.
  - reflexivity.
  - left. reflexivity.
  - simpl. right. left. reflexivity.
Defined.

(** ** The chunker: exhaustion *)

(** A short read that holds a delimiter: the bytes before its last
    delimiter go into the chunk, the delimiter and what follows it into
    the carry, and the reader is gone; the call after it returns
    end-of-stream without looking at the carry. *)
Lemma short_read_carry_is_dropped (c : delimitedChunker) (rd : Reader)
    (content tail : list byte) :
  r c = Some rd -> atEnd rd = EOF ->
  (Z.of_nat (length (unread rd)) < chunkSize c)%Z ->
  unread rd = content ++ delimiter c :: tail -> ~ In (delimiter c) tail ->
  exists c1,
    NextChunk c
    = (inl (NewNewlineDelimitedFrameReader
              (bytes_NewReader (prev c ++ content)) true), c1)
    /\ r c1 = None /\ prev c1 = delimiter c :: tail
    /\ NextChunk c1 = (inr EOF, c1).
Proof.
  intros Hr Hend Hshort Hbuf Htail.
  rewrite (NextChunk_short_read c rd Hr Hshort Hend).
  assert (Hin : In (delimiter c) (unread rd)).
  { rewrite Hbuf. apply in_or_app. right. now left. }
  destruct (cut_chunk_with_delimiter c None (unread rd) Hin)
    as (content' & tail' & E & Htail' & ->).
  assert (Hsame : content' = content /\ tail' = tail).
  { rewrite Hbuf in E. clear - E Htail Htail'.
    revert content' E. induction content as [|b content IH]; intros content' E.
    - destruct content' as [|b' content']; simpl in E.
      + inversion E. auto.
      + inversion E; subst. exfalso. apply Htail.
        apply in_or_app. right. now left.
    - destruct content' as [|b' content']; simpl in E.
      + inversion E; subst. exfalso. apply Htail'.
        apply in_or_app. right. now left.
      + inversion E; subst. destruct (IH _ H1) as [-> ->]. auto. }
  destruct Hsame as [-> ->].
  eexists. split; [reflexivity|]. cbn [r prev].
  split; [reflexivity|]. split; [reflexivity|].
  now apply NextChunk_exhausted.
Qed.

(** C2, at an input where the code departs from it. The stream is
    ["a\nb"] and the chunk size 128. The first call reads the three bytes,
    short of 128, so the source is exhausted; it returns the chunk ["a"]
    and keeps the carry ["\nb"]. The next call returns end-of-stream at
    once, and so does every later one: the carry is never delivered. *)
Theorem NextChunk_drops_final_carry :
  exists c0 c1,
    NewNewlineDelimitedChunkReader
      (Some (bytes_NewReader [x61; x0a; x62])) 128 = inl c0 /\
    NextChunk c0 =
      (inl (NewNewlineDelimitedFrameReader (bytes_NewReader [x61]) true), c1) /\
    r c1 = None /\ prev c1 = [x0a; x62] /\
    NextChunk c1 = (inr EOF, c1) /\
    chunked_frames 4 [x61; x0a; x62] 128 = Some (inl [[x61]]) /\
    direct_frames 4 [x61; x0a; x62] = Some (inl [[x61]; [x62]]).
Proof.
  eexists. eexists.
  split; [reflexivity|].
  split; [vm_compute; reflexivity|].
  repeat split.
Qed.

(** Once the reader is gone, every call returns end-of-stream and changes
    nothing. *)
Lemma ReadAllChunks_exhausted (c : delimitedChunker) (fuel : nat)
    (cursors : list newlineFrameReader) :
  r c = None ->
  ReadAllChunks_loop (S fuel) c cursors = Some (inl cursors, c).
Proof.
  intros Hr. simpl. now rewrite (NextChunk_exhausted _ Hr).
Qed.

(** ** The chunker: boundary streams *)

(** C7 fails on its first case: chunking the empty stream yields one
    chunk, not zero. *)
Lemma empty_stream_one_chunk :
  ReadAllChunks 2 (mkChunker (Some (bytes_NewReader [])) newline 128 [])
  = Some (inl [NewNewlineDelimitedFrameReader (bytes_NewReader []) true],
          mkChunker None newline 128 [])
  /\ NewNewlineDelimitedChunkReader (Some (bytes_NewReader [])) 128
     = inl (mkChunker (Some (bytes_NewReader [])) newline 128 [])
  /\ ~ (exists c',
         ReadAllChunks 2 (mkChunker (Some (bytes_NewReader [])) newline 128 [])
         = Some (inl [], c')).
Proof.
  split; [reflexivity|]. split; [reflexivity|].
  intros [c' H]. vm_compute in H. discriminate H.
Qed.

(** A stream shorter than the chunk size is read by one short call; the
    call after it finds the chunker exhausted. *)
Lemma ReadAllChunks_one_window (stream : list byte) (size : Z) (fuel : nat) :
  (Z.of_nat (length stream) < size)%Z -> 2 <= fuel ->
  ReadAllChunks fuel (mkChunker (Some (bytes_NewReader stream)) newline size [])
  = match cut_chunk (mkChunker (Some (bytes_NewReader stream)) newline size [])
            None stream with
    | (inl cursor, c') => Some (inl [cursor], c')
    | (inr e, c') => Some (inr e, c')
    end.
Proof.
  intros Hs Hf. destruct fuel as [|[|fuel]]; try lia.
  unfold ReadAllChunks. cbn [ReadAllChunks_loop].
  rewrite (NextChunk_short_read
             (mkChunker (Some (bytes_NewReader stream)) newline size [])
             (bytes_NewReader stream) eq_refl)
    by (simpl; auto).
  simpl unread.
  destruct (In_dec Byte.byte_eq_dec newline stream) as [Hin|Hno].
  - destruct (cut_chunk_with_delimiter
                (mkChunker (Some (bytes_NewReader stream)) newline size [])
                None stream Hin) as (content & tail & _ & _ & ->).
    cbn [ReadAllChunks_loop app].
    rewrite NextChunk_exhausted by reflexivity. reflexivity.
  - rewrite cut_chunk_without_delimiter by exact Hno.
    cbn [chunkSize delimiter prev].
    destruct (Z.eqb_spec (Z.of_nat (length stream)) size); [lia|].
    cbn [ReadAllChunks_loop app].
    rewrite NextChunk_exhausted by reflexivity. reflexivity.
Qed.

(** C7, amended: with a chunk size of six bytes or more, chunking the
    empty stream yields one chunk, which decodes to no frame; chunking
    and decoding ["c:bob"] yields the one frame ["c:bob"], and so does
    ["c:bob\n"], whose trailing empty line is skipped. *)
Theorem chunker_boundary_streams (size : Z) (fuel : nat) :
  (6 <= size)%Z -> 3 <= fuel ->
  (NewNewlineDelimitedChunkReader (Some (bytes_NewReader [])) size
   = inl (mkChunker (Some (bytes_NewReader [])) newline size [])
   /\ ReadAllChunks fuel (mkChunker (Some (bytes_NewReader [])) newline size [])
      = Some (inl [NewNewlineDelimitedFrameReader (bytes_NewReader []) true],
              mkChunker None newline size [])
   /\ chunked_frames fuel [] size = Some (inl []))
  /\ chunked_frames fuel c_bob size = Some (inl [c_bob])
  /\ chunked_frames fuel (c_bob ++ [newline]) size = Some (inl [c_bob]).
Proof.
  intros Hs Hf.
  assert (Hempty :
    ReadAllChunks fuel (mkChunker (Some (bytes_NewReader [])) newline size [])
    = Some (inl [NewNewlineDelimitedFrameReader (bytes_NewReader []) true],
            mkChunker None newline size [])).
  { rewrite ReadAllChunks_one_window by (simpl; lia).
    rewrite cut_chunk_without_delimiter by (simpl; tauto).
    cbn [chunkSize delimiter prev].
    destruct (Z.eqb_spec (Z.of_nat (length (@nil byte))) size);
      [simpl in *; lia | reflexivity]. }
  destruct fuel as [|[|[|fuel]]]; try lia.
  unfold chunked_frames.
  rewrite !NewNewlineDelimitedChunkReader_positive by lia.
  repeat split.
  - exact Hempty.
  - rewrite Hempty. reflexivity.
  - rewrite ReadAllChunks_one_window by (simpl; lia).
    rewrite cut_chunk_without_delimiter
      by (simpl; intros H; repeat destruct H as [H|H]; discriminate || tauto).
    cbn [chunkSize delimiter prev].
    destruct (Z.eqb_spec (Z.of_nat (length c_bob)) size);
      [simpl in *; lia | reflexivity].
  - destruct (Z.eq_dec size 6) as [->|Hne].
    + reflexivity.
    + rewrite ReadAllChunks_one_window by (simpl; lia). reflexivity.
Qed.

Lemma chunker_boundary_streams_witness :
  (NewNewlineDelimitedChunkReader (Some (bytes_NewReader [])) 128
   = inl (mkChunker (Some (bytes_NewReader [])) newline 128 [])
   /\ ReadAllChunks 3 (mkChunker (Some (bytes_NewReader [])) newline 128 [])
      = Some (inl [NewNewlineDelimitedFrameReader (bytes_NewReader []) true],
              mkChunker None newline 128 [])
   /\ chunked_frames 3 [] 128 = Some (inl []))
  /\ chunked_frames 3 c_bob 128 = Some (inl [c_bob])
  /\ chunked_frames 3 (c_bob ++ [newline]) 128 = Some (inl [c_bob]).
Proof.
  apply (chunker_boundary_streams 128 3); [lia | lia].
Defined.

(** ** Closers *)

Lemma close_range_logged {World : Type} (cs : list (Closer World)) :
  forall (i : nat) (w : World) (log : Log),
    exists entries,
      close_range (logged_from i cs) (w, log)
      = (fst (close_range cs w), (snd (close_range cs w), log ++ entries))
      /\ map fst entries = seq i (length entries)
      /\ length entries <= length cs
      /\ match fst (close_range cs w) with
         | None =>
             length entries = length cs
             /\ Forall (fun x => snd x = None) entries
         | Some e =>
             exists before,
               entries = before ++ [(i + length before, Some e)]
               /\ Forall (fun x => snd x = None) before
         end.
Proof.
  unfold Log. induction cs as [|c rest IH]; intros i w log.
  - exists []. simpl. rewrite app_nil_r. repeat split; auto.
  - cbn [logged_from close_range length]. unfold logged at 1.
    destruct (c w) as [[e|] w'] eqn:Ec.
    + exists [(i, Some e)]. simpl. repeat split; try lia.
      exists []. simpl. rewrite Nat.add_0_r. auto.
    + destruct (IH (S i) w' (log ++ [(i, None)]))
        as (entries & E & Hseq & Hlen & Hres).
      exists ((i, None) :: entries). rewrite E, <- app_assoc. simpl.
      split; [reflexivity|]. split; [now rewrite Hseq|].
      split; [lia|].
      destruct (fst (close_range rest w')) as [e|].
      * destruct Hres as (before & -> & Hall).
        exists ((i, None) :: before). simpl. split.
        -- now rewrite Nat.add_succ_r.
        -- constructor; auto.
      * destruct Hres as [Hl Hall]. split; [lia|]. constructor; auto.
Qed.

(** C8: with every closer of the chain made to log its position and its
    result, [Close] leaves a log that lists the positions from 0 upwards
    in the declared order; when it returns an error, the last entry is
    the closer that failed first with that error, every entry before it
    is a success, and no later closer appears in the log; when it
    returns nil, every closer is in the log, each with a success.
    Logging changes neither the result nor the world. *)
Theorem chainedCloser_Close_in_order {World W : Type} (sink : W)
    (cs : list (Closer World)) (w : World) :
  exists log,
    chainedCloser_Close (NewChainedCloser sink (logged_from 0 cs)) (w, [])
    = (fst (chainedCloser_Close (NewChainedCloser sink cs) w),
       (snd (chainedCloser_Close (NewChainedCloser sink cs) w), log))
    /\ map fst log = seq 0 (length log)
    /\ length log <= length cs
    /\ match fst (chainedCloser_Close (NewChainedCloser sink cs) w) with
       | None =>
           length log = length cs /\ Forall (fun x => snd x = None) log
       | Some e =>
           exists before,
             log = before ++ [(length before, Some e)]
             /\ Forall (fun x => snd x = None) before
       end.
Proof.
  unfold chainedCloser_Close, NewChainedCloser. simpl.
  destruct (close_range_logged cs 0 w []) as (entries & E & H1 & H2 & H3).
  exists entries. simpl in E. auto.
Qed.

(** The closer under a [closeOnce] runs at the first call only. *)
Lemma close_times_done {World : Type} (n : nat) (c : closeOnce World)
    (w : World) :
  once_done c = true ->
  close_times n c w = (repeat (err c) n, (c, w)).
Proof.
  intros Hd. induction n as [|n IH]; simpl; [reflexivity|].
  unfold closeOnce_Close. rewrite Hd, IH. reflexivity.
Qed.

(** C9: after any number [n >= 1] of [Close] calls on [SafeCloser u],
    the closer [u], made to log its runs, has run exactly once, and each
    of the [n] calls returned what that run returned. *)
Theorem closeOnce_Close_once {World : Type} (u : Closer World) (w : World)
    (n : nat) :
  1 <= n ->
  exists c',
    close_times n (SafeCloser (logged 0 u)) (w, [])
    = (repeat (fst (u w)) n, (c', (snd (u w), [(0, fst (u w))]))).
Proof.
  intros Hn. destruct n as [|n]; [lia|].
  cbn [close_times]. unfold closeOnce_Close, SafeCloser.
  cbn [once_done closer]. unfold logged at 1.
  destruct (u w) as [e w'] eqn:Eu.
  rewrite close_times_done by reflexivity. cbn [err fst snd repeat app].
  eexists. reflexivity.
Qed.

Example TestChainedCloser :
  chainedCloser_Close
    (NewChainedCloser tt [isClosed 0; isClosed 1; isClosed 2])
    (0, (0, 0, 0))
  = (None, (3, (1, 2, 3))).
Proof. reflexivity. Qed.

Lemma closeOnce_Close_once_witness :
  exists c',
    close_times 2 (SafeCloser (logged 0 (isClosed 0))) ((0, (0, 0, 0)), [])
    = (repeat (fst (isClosed 0 (0, (0, 0, 0)))) 2,
       (c', (snd (isClosed 0 (0, (0, 0, 0))),
             [(0, fst (isClosed 0 (0, (0, 0, 0))))]))).
Proof.
  apply (closeOnce_Close_once (isClosed 0) (0, (0, 0, 0)) 2). lia.
Defined.

Example chainedCloser_stops_at_first_failure :
  chainedCloser_Close
    (NewChainedCloser tt
       (logged_from 0
          [isClosed 0; (fun w => (Some (OtherErr 7), w)); isClosed 2]))
    ((0, (0, 0, 0)), [])
  = (Some (OtherErr 7),
     ((1, (1, 0, 0)), [(0, None); (1, Some (OtherErr 7))])).
Proof. reflexivity. Qed.

(** ** Varints *)

Lemma to_N_byte_of_N (n : N) : Byte.to_N (byte_of_N n) = (n mod 256)%N.
Proof.
  unfold byte_of_N. destruct (Byte.of_N (n mod 256)) as [b|] eqn:E.
  - now apply Byte.to_of_N.
  - apply Byte.of_N_None_iff in E.
    pose proof (N.mod_upper_bound n 256). lia.
Qed.

(** The continuation byte [byte(x) | 0x80]: its high bit is set and its
    low seven bits are those of [x]. *)
Lemma continuation_byte (b : byte) :
  ((N.lor (Byte.to_N b) 0x80 <? 256) = true
   /\ (N.lor (Byte.to_N b) 0x80 <? 0x80) = false
   /\ N.land (N.lor (Byte.to_N b) 0x80) 0x7f = Byte.to_N b mod 128)%N.
Proof. destruct b; repeat split. Qed.

Lemma mod_256_mod_128 (x : N) : ((x mod 256) mod 128 = x mod 128)%N.
Proof.
  rewrite (N.div_mod x 256) at 2 by lia.
  replace (256 * (x / 256) + x mod 256)%N
    with (x mod 256 + (2 * (x / 256)) * 128)%N by lia.
  now rewrite N.Div0.mod_add.
Qed.

Lemma to_N_continuation (x : N) :
  (Byte.to_N (byte_of_N (N.lor (x mod 256) 0x80)) = N.lor (x mod 256) 0x80
   /\ (N.lor (x mod 256) 0x80 <? 0x80) = false
   /\ N.land (N.lor (x mod 256) 0x80) 0x7f = x mod 128)%N.
Proof.
  pose proof (continuation_byte (byte_of_N x)) as (H1 & H2 & H3).
  rewrite to_N_byte_of_N in H1, H2, H3.
  rewrite mod_256_mod_128 in H3.
  apply N.ltb_lt in H1.
  rewrite to_N_byte_of_N, N.mod_small by exact H1. auto.
Qed.

(** Seven bits at a time: the low group placed at shift [s] and the rest
    placed seven bits higher make up the whole value placed at [s]. *)
Lemma lor_groups (acc x s : N) :
  (N.lor (N.lor acc (N.shiftl (x mod 128) s)) (N.shiftl (N.shiftr x 7) (s + 7))
   = N.lor acc (N.shiftl x s))%N.
Proof.
  rewrite <- N.lor_assoc. f_equal.
  apply N.bits_inj. intros k.
  rewrite N.lor_spec.
  change 128%N with (2 ^ 7)%N.
  destruct (N.lt_ge_cases k s) as [Hk|Hk].
  - rewrite !N.shiftl_spec_low by lia. reflexivity.
  - rewrite (N.shiftl_spec_high' x), (N.shiftl_spec_high' (x mod 2 ^ 7)) by lia.
    destruct (N.lt_ge_cases k (s + 7)) as [Hk7|Hk7].
    + rewrite N.shiftl_spec_low by lia.
      rewrite N.mod_pow2_bits_low by lia. now rewrite orb_false_r.
    + rewrite N.shiftl_spec_high' by lia.
      rewrite N.mod_pow2_bits_high by lia.
      rewrite N.shiftr_spec'. simpl. f_equal. lia.
Qed.

Lemma shiftl_below (x s b : N) :
  (x < 2 ^ b -> N.shiftl x s < 2 ^ (b + s))%N.
Proof.
  intros Hx. rewrite N.shiftl_mul_pow2, N.pow_add_r.
  apply N.mul_lt_mono_pos_r; [|exact Hx].
  apply N.neq_0_lt_0. apply N.pow_nonzero. lia.
Qed.

Lemma uint64_small (x : N) : (x < 2 ^ 64)%N -> uint64 x = x.
Proof. intros H. unfold uint64. now apply N.mod_small. Qed.

Lemma uint64_shiftl_group (x : N) (i : nat) :
  (x < 2 ^ 7)%N -> i <= 8 ->
  uint64 (N.shiftl x (7 * N.of_nat i)) = N.shiftl x (7 * N.of_nat i).
Proof.
  intros Hx Hi. apply uint64_small.
  eapply N.lt_le_trans; [apply shiftl_below; exact Hx|].
  apply N.pow_le_mono_r; lia.
Qed.

(** A buffer of [slots] bytes takes the values below [2 ^ (7 * slots)]
    and no others. *)
Lemma PutUvarint_panics (slots : nat) :
  forall x : N, (2 ^ (7 * N.of_nat slots) <= x)%N -> PutUvarint slots x = None.
Proof.
  induction slots as [|slots IH]; intros x Hx; [reflexivity|].
  cbn [PutUvarint].
  assert (H128 : (2 ^ 7 * 2 ^ (7 * N.of_nat slots) <= x)%N).
  { rewrite <- N.pow_add_r.
    replace (7 + 7 * N.of_nat slots)%N with (7 * N.of_nat (S slots))%N by lia.
    exact Hx. }
  assert (Hpos : (1 <= 2 ^ (7 * N.of_nat slots))%N).
  { pose proof (N.pow_nonzero 2 (7 * N.of_nat slots)). lia. }
  destruct (N.leb_spec 0x80 x) as [_|Hlt].
  - rewrite IH; [reflexivity|].
    rewrite N.shiftr_div_pow2.
    apply N.div_le_lower_bound; [lia | exact H128].
  - change (2 ^ 7)%N with 128%N in H128. nia.
Qed.

Lemma PutUvarint_fits (slots : nat) :
  forall x : N, (x < 2 ^ (7 * N.of_nat (S slots)))%N ->
    exists enc, PutUvarint (S slots) x = Some enc.
Proof.
  induction slots as [|slots IH]; intros x Hx.
  - cbn [PutUvarint]. change (2 ^ (7 * N.of_nat 1))%N with 128%N in Hx.
    destruct (N.leb_spec 0x80 x) as [Hge|Hlt]; [lia | eexists; reflexivity].
  - remember (S slots) as m eqn:Em. cbn [PutUvarint].
    destruct (N.leb_spec 0x80 x) as [Hge|Hlt]; [|eexists; reflexivity].
    subst m. destruct (IH (N.shiftr x 7)) as [enc ->]; [|eexists; reflexivity].
    rewrite N.shiftr_div_pow2.
    apply N.Div0.div_lt_upper_bound.
    rewrite <- N.pow_add_r.
    replace (7 + 7 * N.of_nat (S slots))%N
      with (7 * N.of_nat (S (S slots)))%N by lia.
    exact Hx.
Qed.

Lemma ReadUvarint_loop_atEnd (n : nat) :
  forall i x s rd, atEnd (snd (ReadUvarint_loop n i x s rd)) = atEnd rd.
Proof.
  induction n as [|n IH]; intros i x s rd; [reflexivity|].
  cbn [ReadUvarint_loop]. unfold ReadByte.
  destruct (unread rd) as [|b rest]; [reflexivity|].
  cbv zeta.
  destruct (Byte.to_N b <? 0x80)%N.
  - destruct ((i =? MaxVarintLen64 - 1) && (1 <? Byte.to_N b)%N); reflexivity.
  - rewrite IH. reflexivity.
Qed.

(** Decoding what [PutUvarint] stored gives the value back and stops
    right after it. *)
Lemma ReadUvarint_loop_PutUvarint (slots : nat) :
  forall (x : N) (enc : list byte),
    PutUvarint slots x = Some enc ->
    forall (n i : nat) (acc : N) (rest : list byte) (e : error),
      slots <= n -> i + slots <= 9 ->
      ReadUvarint_loop n i acc (7 * N.of_nat i) (mkReader (enc ++ rest) e)
      = (inl (N.lor acc (N.shiftl x (7 * N.of_nat i))), mkReader rest e).
Proof.
  induction slots as [|slots IH]; intros x enc Henc n i acc rest e Hn Hi;
    [discriminate|].
  destruct n as [|n]; [lia|].
  cbn [PutUvarint] in Henc.
  destruct (N.leb_spec 0x80 x) as [Hge|Hlt].
  - destruct (PutUvarint slots (N.shiftr x 7)) as [enc'|] eqn:E; [|discriminate].
    inversion Henc; subst enc; clear Henc.
    destruct (to_N_continuation x) as (H1 & H2 & H3).
    cbn [ReadUvarint_loop app ReadByte unread atEnd]. cbv zeta.
    rewrite H1, H2, H3.
    rewrite uint64_shiftl_group
      by (try lia; change (2 ^ 7)%N with 128%N; apply N.mod_upper_bound; lia).
    replace (7 * N.of_nat i + 7)%N with (7 * N.of_nat (S i))%N by lia.
    rewrite (IH _ _ E) by lia.
    replace (7 * N.of_nat (S i))%N with (7 * N.of_nat i + 7)%N by lia.
    now rewrite lor_groups.
  - inversion Henc; subst enc; clear Henc.
    cbn [ReadUvarint_loop app ReadByte unread atEnd]. cbv zeta.
    rewrite to_N_byte_of_N, N.mod_small by lia.
    destruct (N.ltb_spec x 0x80); [|lia].
    destruct (Nat.eqb_spec i (MaxVarintLen64 - 1)) as [Ei|_].
    { unfold MaxVarintLen64 in Ei. simpl in Ei. lia. }
    cbn [andb].
    rewrite uint64_shiftl_group by (try lia; change (2 ^ 7)%N with 128%N; lia).
    reflexivity.
Qed.

Lemma ReadUvarint_PutUvarint (x : N) (enc rest : list byte) (e : error) :
  PutUvarint MaxVarintLen32 x = Some enc ->
  ReadUvarint (mkReader (enc ++ rest) e) = (inl x, mkReader rest e).
Proof.
  intros Henc. unfold ReadUvarint.
  change 0%N with (7 * N.of_nat 0)%N at 2.
  rewrite (ReadUvarint_loop_PutUvarint _ _ _ Henc)
    by (unfold MaxVarintLen32, MaxVarintLen64; lia).
  simpl. now rewrite N.shiftl_0_r.
Qed.

(** ** The length-prefixed reader *)

Lemma ReadUvarint_atEnd (rd : Reader) :
  atEnd (snd (ReadUvarint rd)) = atEnd rd.
Proof. apply ReadUvarint_loop_atEnd. Qed.

Lemma allocates_make (fr : varLenFrameReader) (n : N) :
  allocates fr n ->
  (bufCap fr <? n)%N && (allocLimit fr <? n)%N = false.
Proof.
  unfold allocates. intros [Hc|Hl].
  - destruct (N.ltb_spec (bufCap fr) n); [lia | reflexivity].
  - destruct (N.ltb_spec (allocLimit fr) n); [lia|].
    now rewrite andb_false_r.
Qed.

(** C6: the stream of ten bytes [80 80 80 80 80 80 80 80 80 01] is the
    length prefix of [2 ^ 63] and nothing else: its payload is missing.
    [Read] decodes the prefix and panics in [make], also where memory is
    no limit, where the claim has it return [io.ErrUnexpectedEOF]; so
    [ReadAllFrames] does not return either. *)
Theorem varLen_Read_makeslice_panics :
  ReadUvarint (bytes_NewReader prefix_of_2_63)
  = (inl (2 ^ 63)%N, bytes_NewReader [])
  /\ Read (NewVarLenFrameReader (bytes_NewReader prefix_of_2_63)) = None
  /\ forall fuel,
       ReadAllFrames fuel
         (NewVarLenFrameReader (bytes_NewReader prefix_of_2_63)) = None.
Proof.
  split; [reflexivity|]. split; [reflexivity|].
  intros [|fuel]; reflexivity.
Qed.

(** X28: what C6 says holds where the decode buffer is there or can be
    made. On a stream that ends with [io.EOF], a [Read] that finds no
    byte of a new length prefix returns [io.EOF], the normal end of the
    stream; a [Read] that decoded a length prefix declaring more bytes
    than the stream has left, no more than the buffer holds or than
    [make] can give, returns [io.ErrUnexpectedEOF], which is a different
    error. *)
Theorem varLen_Read_end_or_truncated (fr : varLenFrameReader) :
  atEnd (bufReader fr) = EOF ->
  (unread (bufReader fr) = [] -> exists fr', Read fr = Some (inr EOF, fr'))
  /\ (forall (payloadLen : N) (rest : Reader),
        ReadUvarint (bufReader fr) = (inl payloadLen, rest) ->
        (N.of_nat (length (unread rest)) < payloadLen)%N ->
        allocates fr payloadLen ->
        exists fr', Read fr = Some (inr ErrUnexpectedEOF, fr'))
  /\ ErrUnexpectedEOF <> EOF.
Proof.
  intros Hend. split; [|split; [|discriminate]].
  - intros Hnil. unfold Read, varLen_FrameReader, varLen_Read, ReadUvarint.
    cbn [ReadUvarint_loop MaxVarintLen64]. unfold ReadByte.
    rewrite Hnil, Hend. eexists. reflexivity.
  - intros payloadLen rest Hvar Hshort Halloc.
    pose proof (ReadUvarint_atEnd (bufReader fr)) as Hrest.
    rewrite Hvar, Hend in Hrest. simpl in Hrest.
    unfold Read, varLen_FrameReader, varLen_Read. rewrite Hvar.
    rewrite (allocates_make fr payloadLen Halloc).
    rewrite io_ReadFull_short by (lia || assumption).
    destruct (unread rest); eexists; reflexivity.
Qed.

Lemma varLen_Read_end_or_truncated_witness :
  (exists fr',
     Read (NewVarLenFrameReader (bytes_NewReader [])) = Some (inr EOF, fr'))
  /\ (exists fr',
        Read (NewVarLenFrameReader (bytes_NewReader [x05; x61; x62]))
        = Some (inr ErrUnexpectedEOF, fr'))
  /\ ErrUnexpectedEOF <> EOF.
Proof.
  split; [|split].
  - apply (proj1 (varLen_Read_end_or_truncated
                    (NewVarLenFrameReader (bytes_NewReader [])) eq_refl)).
    reflexivity.
  - apply (proj1 (proj2 (varLen_Read_end_or_truncated
                    (NewVarLenFrameReader (bytes_NewReader [x05; x61; x62]))
                    eq_refl))
             5%N (mkReader [x61; x62] EOF)).
    + reflexivity.
    + simpl. lia.
    + left. simpl. unfold varlenFrameReaderBufferSize. lia.
  - apply (proj2 (proj2 (varLen_Read_end_or_truncated
                    (NewVarLenFrameReader (bytes_NewReader [])) eq_refl))).
Defined.

(** ** The length-prefixed writer *)

(** The scratch array of the writer has [MaxVarintLen32] = 5 bytes, room
    for a length below [2 ^ 35]: a longer payload makes [PutUvarint] index
    past the array, and the call panics before anything is written. *)
Lemma varLen_Write_panics {W : Type} `{Writer W} (fw : varLenFrameWriter W)
    (payload : frame) :
  (2 ^ 35 <= N.of_nat (length payload) < 2 ^ 64)%N ->
  varLen_Write fw payload = (None, fw).
Proof.
  intros [Hlo Hhi]. unfold varLen_Write.
  rewrite uint64_small by exact Hhi.
  rewrite PutUvarint_panics; [reflexivity|].
  unfold MaxVarintLen32. exact Hlo.
Qed.

Lemma huge_payload_length : N.of_nat (length huge_payload) = (2 ^ 35)%N.
Proof. unfold huge_payload. now rewrite repeat_length, N2Nat.id. Qed.

(** C5, at an input where the code departs from it: writing the single
    payload [huge_payload] panics and leaves the sink empty, so there is
    no stream to read back. *)
Theorem varLen_Write_huge_payload :
  fw_Write (NewVarLenFrameWriter ([] : Buffer)) huge_payload
  = (None, NewVarLenFrameWriter ([] : Buffer)).
Proof.
  unfold fw_Write, varLen_FrameWriter.
  apply varLen_Write_panics. rewrite huge_payload_length. split.
  - apply N.le_refl.
  - apply N.pow_lt_mono_r; lia.
Qed.

Section DrainsGeneric.
Context {T : Type} `{FrameReader T}.

Lemma Drains_deterministic (r : T) fs e :
  Drains r fs e -> forall fs' e', Drains r fs' e' -> fs = fs' /\ e = e'.
Proof.
  induction 1 as [r r' e Hr | r r' f fs e Hr Hd IH]; intros fs' e' H'.
  - inversion H' as [? ? ? Hr' | ? ? ? ? ? Hr' ?]; subst;
      rewrite Hr in Hr'; inversion Hr'; auto.
  - inversion H' as [? ? ? Hr' | ? ? ? ? ? Hr' Hd']; subst;
      rewrite Hr in Hr'; inversion Hr'; subst.
    destruct (IH _ _ Hd'); subst; auto.
Qed.

(** Readers whose next [Read] agrees drain alike. *)
Lemma Drains_same_Read (r1 r2 : T) fs e :
  Read r1 = Read r2 -> Drains r1 fs e -> Drains r2 fs e.
Proof.
  intros HR Hd. inversion Hd as [? r' ? Hr | ? r' ? ? ? Hr Hd']; subst.
  - apply (Drains_stop r2 r'). congruence.
  - apply (Drains_frame r2 r'); [congruence | exact Hd'].
Qed.

(** With more fuel than frames, [ReadAllFrames] returns them. *)
Lemma ReadAllFrames_loop_Drains (r : T) fs e :
  Drains r fs e ->
  forall fuel acc, length fs < fuel ->
    ReadAllFrames_loop fuel r acc
    = Some (match drained fs e with
            | inl fs' => inl (acc ++ fs')
            | inr e' => inr e'
            end).
Proof.
  induction 1 as [r r' e Hr | r r' f fs e Hr Hd IH]; intros fuel acc Hf;
    (destruct fuel as [|fuel]; [simpl in Hf; lia|]);
    cbn [ReadAllFrames_loop]; rewrite Hr.
  - unfold drained. destruct (error_eqb e EOF); [|reflexivity].
    now rewrite app_nil_r.
  - rewrite IH by (simpl in Hf; lia).
    unfold drained. destruct (error_eqb e EOF); [|reflexivity].
    now rewrite <- app_assoc.
Qed.

Lemma ReadAllFrames_Drains (r : T) fs e (fuel : nat) :
  Drains r fs e -> length fs < fuel ->
  ReadAllFrames fuel r = Some (drained fs e).
Proof.
  intros Hd Hf. unfold ReadAllFrames.
  rewrite (ReadAllFrames_loop_Drains r fs e Hd) by exact Hf.
  destruct (drained fs e); reflexivity.
Qed.

End DrainsGeneric.

(** The composite reader drains its readers one after the other. *)
Section DrainsMulti.
Context {T : Type} `{FrameReader T}.

Lemma Drains_multi_nil : Drains (MultiFrameReader (@nil T)) [] EOF.
Proof. now apply (Drains_stop _ (MultiFrameReader (@nil T))). Qed.

Lemma Read_multi (rs : list T) :
  Read (MultiFrameReader rs)
  = match multi_Read_loop rs with
    | Some (res, rs') => Some (res, mkMulti rs')
    | None => None
    end.
Proof. reflexivity. Qed.

Lemma Read_multi_skip (r r' : T) (rs : list T) :
  Read r = Some (inr EOF, r') ->
  Read (MultiFrameReader (r :: rs)) = Read (MultiFrameReader rs).
Proof.
  intros Hr. rewrite !Read_multi. cbn [multi_Read_loop]. now rewrite Hr.
Qed.

Lemma Drains_multi_cons (r : T) (rs : list T) fs fs' e :
  Drains r fs EOF -> Drains (MultiFrameReader rs) fs' e ->
  Drains (MultiFrameReader (r :: rs)) (fs ++ fs') e.
Proof.
  intros Hd. remember EOF as eof eqn:Ee.
  induction Hd as [r r' e0 Hr | r r' f fs e0 Hr Hd IH]; intros Hrs; subst e0.
  - simpl. eapply Drains_same_Read; [|exact Hrs].
    symmetry. eapply Read_multi_skip. exact Hr.
  - simpl. apply (Drains_frame _ (MultiFrameReader (r' :: rs))).
    + rewrite Read_multi. cbn [multi_Read_loop]. now rewrite Hr.
    + apply IH; auto.
Qed.

Lemma Drains_multi_cons_error (r : T) (rs : list T) fs e :
  Drains r fs e -> e <> EOF ->
  Drains (MultiFrameReader (r :: rs)) fs e.
Proof.
  intros Hd Hne.
  induction Hd as [r r' e0 Hr | r r' f fs e0 Hr Hd IH].
  - apply (Drains_stop _ (MultiFrameReader (r' :: rs))).
    rewrite Read_multi. cbn [multi_Read_loop]. rewrite Hr.
    destruct (error_eqb_spec e0 EOF); [contradiction | reflexivity].
  - apply (Drains_frame _ (MultiFrameReader (r' :: rs))).
    + rewrite Read_multi. cbn [multi_Read_loop]. now rewrite Hr.
    + apply IH; auto.
Qed.

Lemma Drains_multi_single (r : T) fs e :
  Drains r fs e -> Drains (MultiFrameReader [r]) fs e.
Proof.
  intros Hd. destruct (error_eqb_spec e EOF) as [->|Hne].
  - rewrite <- (app_nil_r fs).
    apply Drains_multi_cons; [exact Hd | apply Drains_multi_nil].
  - now apply Drains_multi_cons_error.
Qed.
End DrainsMulti.

(** ** Draining a newline-delimited reader *)

Lemma newline_Read_progress (n : nat) :
  forall fr f fr',
    length (pending (scanner fr)) <= n ->
    newline_Read fr = (inl f, fr') ->
    length (pending (scanner fr')) < length (pending (scanner fr)).
Proof.
  induction n as [|n IH]; intros fr f fr' Hn; rewrite newline_Read_step;
    destruct (Scan (scanner fr)) as [[line|] s'] eqn:ES; try discriminate;
    pose proof (Scan_progress ES) as Hp.
  - lia.
  - destruct (skipEmpty fr && (length line =? 0)).
    + intros HR. apply IH in HR; simpl in *; lia.
    + intros HR. inversion HR; subst. exact Hp.
Qed.

Lemma Read_newline_progress (fr : newlineFrameReader) f fr' :
  Read fr = Some (inl f, fr') ->
  length (pending (scanner fr')) < length (pending (scanner fr)).
Proof.
  intros HR. apply (newline_Read_progress _ fr f fr' (le_n _)).
  now inversion HR.
Qed.

(** Every newline-delimited reader drains, to at most one frame per
    pending byte. *)
Lemma Drains_newline_total (n : nat) :
  forall fr : newlineFrameReader,
    length (pending (scanner fr)) <= n -> exists fs e, Drains fr fs e.
Proof.
  induction n as [|n IH]; intros fr Hn;
    assert (ER : Read fr = Some (newline_Read fr)) by reflexivity;
    destruct (newline_Read fr) as [[f|e] fr'].
  - apply Read_newline_progress in ER. lia.
  - exists [], e. now apply (Drains_stop fr fr').
  - destruct (IH fr') as (fs & e & Hd).
    + apply Read_newline_progress in ER. lia.
    + exists (f :: fs), e. now apply (Drains_frame fr fr').
  - exists [], e. now apply (Drains_stop fr fr').
Qed.

Lemma Drains_newline_length (fr : newlineFrameReader) fs e :
  Drains fr fs e -> length fs <= length (pending (scanner fr)).
Proof.
  induction 1 as [r r' e Hr | r r' f fs e Hr Hd IH]; simpl; [lia|].
  apply Read_newline_progress in Hr. lia.
Qed.

Lemma break_line_app (a b : list byte) :
  break_line (a ++ newline :: b)
  = (fst (break_line a),
     Some (match snd (break_line a) with
           | Some r' => r' ++ newline :: b
           | None => b
           end)).
Proof.
  induction a as [|c a IH]; simpl.
  - reflexivity.
  - destruct (Byte.eqb c newline); [reflexivity|].
    rewrite IH. destruct (break_line a) as [l r']. reflexivity.
Qed.

Section Cursor.
Variable B : N.
Hypothesis B_pos : (0 < B)%N.

Lemma Read_spent_cursor :
  Read (spent_cursor B) = Some (inr EOF, spent_cursor B).
Proof.
  unfold Read, newline_FrameReader. rewrite newline_Read_step. reflexivity.
Qed.

Lemma Drains_spent_cursor fs e :
  Drains (spent_cursor B) fs e -> fs = [] /\ e = EOF.
Proof.
  intros Hd. inversion Hd as [? ? ? Hr | ? ? ? ? ? Hr ?]; subst;
    rewrite Read_spent_cursor in Hr; inversion Hr; auto.
Qed.

Lemma Read_cursor_too_long d l rest :
  break_line d = (l, rest) -> (B <= N.of_nat (length l))%N ->
  exists fr', Read (cursor B d) = Some (inr ErrTooLong, fr').
Proof.
  clear B_pos. intros Hb Hl. unfold Read, newline_FrameReader.
  rewrite newline_Read_step. unfold Scan, cursor.
  cbn [scanner serr pending bufsize src_end skipEmpty]. rewrite Hb.
  destruct (N.leb_spec B (N.of_nat (length l))); [|lia].
  eexists. reflexivity.
Qed.

Lemma Read_cursor_line d l r' :
  break_line d = (l, Some r') -> (N.of_nat (length l) < B)%N ->
  Read (cursor B d)
  = if length (dropCR l) =? 0 then Read (cursor B r')
    else Some (inl (dropCR l), cursor B r').
Proof.
  clear B_pos. intros Hb Hl. unfold Read, newline_FrameReader.
  rewrite newline_Read_step. unfold Scan, cursor.
  cbn [scanner serr pending bufsize src_end skipEmpty]. rewrite Hb.
  destruct (N.leb_spec B (N.of_nat (length l))); [lia|].
  cbn [andb]. destruct (length (dropCR l) =? 0); reflexivity.
Qed.

Lemma Read_cursor_last d l :
  break_line d = (l, None) -> (N.of_nat (length l) < B)%N ->
  Read (cursor B d)
  = if length (dropCR l) =? 0 then Some (inr EOF, spent_cursor B)
    else Some (inl (dropCR l), spent_cursor B).
Proof.
  clear B_pos. intros Hb Hl. unfold Read, newline_FrameReader.
  rewrite newline_Read_step. unfold Scan, cursor.
  cbn [scanner serr pending bufsize src_end skipEmpty]. rewrite Hb.
  destruct (N.leb_spec B (N.of_nat (length l))); [lia|].
  destruct l as [|c l].
  - reflexivity.
  - cbn [andb]. destruct (length (dropCR (c :: l)) =? 0); [|reflexivity].
    apply Read_spent_cursor.
Qed.

Lemma Read_cursor_leading_newline (d : list byte) :
  Read (cursor B (newline :: d)) = Read (cursor B d).
Proof.
  rewrite (Read_cursor_line (newline :: d) [] d); [reflexivity | reflexivity |].
  simpl. exact B_pos.
Qed.

(** Cutting the input at a delimiter: the part before it drains first,
    then the part after it; an error in the first part ends the whole. *)
Lemma Drains_cursor_app (n : nat) :
  forall a b fa ea,
    length a <= n ->
    Drains (cursor B a) fa ea ->
    (ea = EOF ->
     forall fb e, Drains (cursor B b) fb e ->
       Drains (cursor B (a ++ newline :: b)) (fa ++ fb) e)
    /\ (ea <> EOF -> Drains (cursor B (a ++ newline :: b)) fa ea).
Proof.
  induction n as [|n IH]; intros a b fa ea Hn Ha;
    pose proof (break_line_app a b) as Hab;
    destruct (break_line a) as [l rest] eqn:Hbl; cbn [fst snd] in Hab;
    (destruct (N.leb_spec B (N.of_nat (length l))) as [Hlong|Hshort];
     [ (* the first line is too long for the buffer *)
       destruct (Read_cursor_too_long a l rest Hbl Hlong) as [fr1 H1];
       destruct (Read_cursor_too_long _ l _ Hab Hlong) as [fr2 H2];
       inversion Ha as [? ? ? Hr | ? ? ? ? ? Hr ?]; subst;
       rewrite H1 in Hr; inversion Hr; subst;
       split; [discriminate | intros _; now apply (Drains_stop _ fr2)]
     | ]).
  - (* a is empty *)
    destruct a; [|simpl in Hn; lia]. simpl in Hbl. inversion Hbl; subst.
    pose proof (Read_cursor_last [] [] eq_refl Hshort) as H1. simpl in H1.
    inversion Ha as [? ? ? Hr | ? ? ? ? ? Hr ?]; subst;
      rewrite H1 in Hr; inversion Hr; subst.
    split; [|congruence]. intros _ fb e Hb. simpl.
    eapply Drains_same_Read; [|exact Hb].
    symmetry. apply Read_cursor_leading_newline.
  - destruct rest as [r'|].
    + (* a line of a, terminated inside a *)
      pose proof (break_line_Some Hbl) as Hlen.
      pose proof (Read_cursor_line a l r' Hbl Hshort) as H1.
      pose proof (Read_cursor_line _ l _ Hab Hshort) as H2.
      destruct (length (dropCR l) =? 0).
      * apply (Drains_same_Read _ (cursor B r')) in Ha; [|exact H1].
        destruct (IH r' b fa ea ltac:(lia) Ha) as [I1 I2].
        split.
        -- intros He fb e Hb.
           eapply Drains_same_Read; [symmetry; exact H2 | now apply I1].
        -- intros He.
           eapply Drains_same_Read; [symmetry; exact H2 | now apply I2].
      * inversion Ha as [? ? ? Hr | ? ? ? ? ? Hr Hd]; subst;
          rewrite H1 in Hr; inversion Hr; subst.
        destruct (IH r' b _ ea ltac:(lia) Hd) as [I1 I2].
        split.
        -- intros He fb e Hb. simpl.
           eapply Drains_frame; [exact H2 | now apply I1].
        -- intros He. eapply Drains_frame; [exact H2 | now apply I2].
    + (* the last line of a, which the cut terminates *)
      pose proof (Read_cursor_last a l Hbl Hshort) as H1.
      pose proof (Read_cursor_line _ l _ Hab Hshort) as H2.
      destruct (length (dropCR l) =? 0).
      * inversion Ha as [? ? ? Hr | ? ? ? ? ? Hr Hd]; subst;
          rewrite H1 in Hr; inversion Hr; subst.
        split; [|congruence]. intros _ fb e Hb. simpl.
        eapply Drains_same_Read; [symmetry; exact H2 | exact Hb].
      * inversion Ha as [? ? ? Hr | ? ? ? ? ? Hr Hd]; subst;
          rewrite H1 in Hr; inversion Hr; subst.
        apply Drains_spent_cursor in Hd. destruct Hd as [-> ->].
        split; [|congruence]. intros _ fb e Hb. simpl.
        eapply Drains_frame; [exact H2 | exact Hb].
Qed.
End Cursor.

Lemma lines_not_nil (data : list byte) : lines data <> [].
Proof.
  destruct data as [|c rest]; simpl; [discriminate|].
  destruct (Byte.eqb c newline); [discriminate|].
  destruct (lines rest); discriminate.
Qed.

Lemma short_lines_positive (size : Z) (data : list byte) :
  short_lines size data -> (0 < size)%Z.
Proof.
  unfold short_lines. pose proof (lines_not_nil data).
  destruct (lines data) as [|l ls]; [contradiction|].
  intros Hf. inversion Hf; subst. lia.
Qed.

Lemma short_lines_suffix (size : Z) (a b : list byte) :
  short_lines size (a ++ b) -> short_lines size b.
Proof.
  unfold short_lines. induction a as [|c a IH]; simpl; [auto|].
  destruct (Byte.eqb c newline).
  - intros Hf. inversion Hf; subst. auto.
  - pose proof (lines_not_nil (a ++ b)).
    destruct (lines (a ++ b)) as [|l ls]; [contradiction|].
    intros Hf. inversion Hf; subst. apply IH.
    constructor; [simpl in *; lia | assumption].
Qed.

Lemma lines_first (w rest : list byte) :
  ~ In newline w -> exists hd tl, lines (w ++ rest) = (w ++ hd) :: tl.
Proof.
  induction w as [|c w IH]; intros Hno.
  - pose proof (lines_not_nil rest). simpl.
    destruct (lines rest) as [|hd tl]; [contradiction|]. now exists hd, tl.
  - simpl. destruct (byte_eqb_spec c newline) as [->|Hc].
    + exfalso. apply Hno. now left.
    + destruct IH as (hd & tl & ->); [intros Hin; apply Hno; now right|].
      now exists hd, tl.
Qed.

Lemma short_lines_window (size : Z) (w rest : list byte) :
  short_lines size (w ++ rest) -> ~ In newline w ->
  (Z.of_nat (length w) < size)%Z.
Proof.
  unfold short_lines. intros Hf Hno.
  destruct (lines_first w rest Hno) as (hd & tl & E). rewrite E in Hf.
  inversion Hf; subst. rewrite length_app in *. lia.
Qed.

Lemma last_read_short (size : nat) (stream : list byte) :
  length stream < size -> last_read size stream = stream.
Proof.
  intros H. unfold last_read. rewrite Nat.div_small by exact H.
  now rewrite Nat.mul_0_r.
Qed.

Lemma last_read_skipn (size : nat) (stream : list byte) :
  0 < size -> size <= length stream ->
  last_read size (skipn size stream) = last_read size stream.
Proof.
  intros Hs Hl. unfold last_read. rewrite length_skipn, skipn_skipn.
  f_equal.
  replace (length stream) with (1 * size + (length stream - size)) at 2 by lia.
  rewrite Nat.div_add_l by lia. lia.
Qed.

Lemma ends_clean_tail (content tail : list byte) :
  ends_clean (content ++ newline :: tail) -> ~ In newline tail -> tail = [].
Proof.
  intros [Hno|[w' Hw]] Ht.
  - exfalso. apply Hno. apply in_or_app. right. now left.
  - destruct tail as [|t0 tail0] using rev_ind; [reflexivity|].
    exfalso. apply Ht.
    change (content ++ newline :: tail0 ++ [t0])
      with (content ++ (newline :: tail0) ++ [t0]) in Hw.
    rewrite app_assoc in Hw. apply app_inj_tail in Hw. destruct Hw as [_ ->].
    apply in_or_app. right. now left.
Qed.

(** ** Chunks against the whole stream *)

Lemma cursor_Mebibyte (d : list byte) :
  NewNewlineDelimitedFrameReader (bytes_NewReader d) true
  = cursor unit.Mebibyte d.
Proof. reflexivity. Qed.

Lemma Mebibyte_pos : (0 < unit.Mebibyte)%N.
Proof. reflexivity. Qed.

Lemma Drains_cursor_nil (B : N) : (0 < B)%N -> Drains (cursor B []) [] EOF.
Proof.
  intros HB. apply (Drains_stop _ (spent_cursor B)).
  now rewrite (Read_cursor_last B [] [] eq_refl) by (simpl; lia).
Qed.

(** A cursor over [a ++ "\n" ++ b] drains like the cursor over [a]
    followed by the cursors [rest], when these drain like a cursor over
    [b]. *)
Lemma Drains_cut (B : N) (a b : list byte) (rest : list newlineFrameReader) :
  (0 < B)%N ->
  (forall fs e, Drains (cursor B b) fs e ->
                Drains (MultiFrameReader rest) fs e) ->
  forall fs e,
    Drains (cursor B (a ++ newline :: b)) fs e ->
    Drains (MultiFrameReader (cursor B a :: rest)) fs e.
Proof.
  intros HB Hrest fs e Hwhole.
  destruct (Drains_newline_total _ (cursor B a) (le_n _)) as (fa & ea & Ha).
  destruct (Drains_cursor_app B HB _ a b fa ea (le_n _) Ha) as [I1 I2].
  destruct (error_eqb_spec ea EOF) as [->|Hne].
  - destruct (Drains_newline_total _ (cursor B b) (le_n _)) as (fb & eb & Hb).
    destruct (Drains_deterministic _ _ _ Hwhole _ _ (I1 eq_refl fb eb Hb))
      as [-> ->].
    apply Drains_multi_cons; [exact Ha | now apply Hrest].
  - destruct (Drains_deterministic _ _ _ Hwhole _ _ (I2 Hne)) as [-> ->].
    now apply Drains_multi_cons_error.
Qed.

(** The chunker from any state whose carry is [p] and whose source still
    holds [s]: its cursors, read one after the other, drain like one
    cursor over [p ++ s]. *)
Lemma ReadAllChunks_loop_cursors (size : Z) (n : nat) :
  forall (s p : list byte) (acc : list newlineFrameReader) (fuel : nat),
    length s <= n ->
    short_lines size s ->
    ends_clean (last_read (Z.to_nat size) s) ->
    length s + 2 <= fuel ->
    exists cursors c',
      ReadAllChunks_loop fuel
        (mkChunker (Some (bytes_NewReader s)) newline size p) acc
      = Some (inl (acc ++ cursors), c')
      /\ forall fs e,
           Drains (cursor unit.Mebibyte (p ++ s)) fs e ->
           Drains (MultiFrameReader cursors) fs e.
Proof.
  induction n as [n IH] using lt_wf_ind.
  unfold bytes_NewReader in *.
  intros s p acc fuel Hn Hshort Hclean Hfuel.
  pose proof (short_lines_positive _ _ Hshort) as Hsize.
  destruct fuel as [|fuel]; [lia|]. cbn [ReadAllChunks_loop].
  destruct (Z_le_gt_dec size (Z.of_nat (length s))) as [Hfull|Hless].
  - (* the read fills the window *)
    rewrite (NextChunk_full_read
               (mkChunker (Some (mkReader s EOF)) newline size p)
               (mkReader s EOF) eq_refl)
      by (simpl; lia).
    cbn [chunkSize unread atEnd].
    set (K := Z.to_nat size) in *.
    assert (Hsplit : s = firstn K s ++ skipn K s)
      by (now rewrite firstn_skipn).
    assert (Hin : In newline (firstn K s)).
    { destruct (In_dec Byte.byte_eq_dec newline (firstn K s)) as [i|Hno];
        [exact i|].
      rewrite Hsplit in Hshort.
      pose proof (short_lines_window _ _ _ Hshort Hno) as Hw.
      rewrite length_firstn in Hw. lia. }
    destruct (cut_chunk_with_delimiter
                (mkChunker (Some (mkReader s EOF)) newline size p)
                (Some (mkReader (skipn K s) EOF)) (firstn K s) Hin)
      as (content & tail & Ew & Htail & ->).
    cbn [delimiter chunkSize prev] in *.
    destruct (IH (length (skipn K s)) ltac:(rewrite length_skipn; lia)
                (skipn K s) (newline :: tail)
                (acc ++ [NewNewlineDelimitedFrameReader
                           (mkReader (p ++ content) EOF) true])
                fuel (le_n _))
      as (cursors & c' & Eloop & Hdrain).
    + rewrite Hsplit in Hshort. now apply short_lines_suffix in Hshort.
    + unfold K. rewrite last_read_skipn by lia. exact Hclean.
    + rewrite length_skipn. lia.
    + exists (cursor unit.Mebibyte (p ++ content) :: cursors), c'. split.
      * unfold bytes_NewReader. rewrite Eloop.
        now rewrite <- app_assoc.
      * intros fs e Hwhole.
        apply (Drains_cut unit.Mebibyte (p ++ content) (tail ++ skipn K s));
          [exact Mebibyte_pos | |].
        -- intros fs' e' Hd. apply Hdrain.
           eapply Drains_same_Read; [|exact Hd].
           symmetry. apply Read_cursor_leading_newline. exact Mebibyte_pos.
        -- rewrite Hsplit, Ew in Hwhole.
           now rewrite <- !app_assoc in *.
  - (* the read is cut short by the end of the input *)
    rewrite (NextChunk_short_read
               (mkChunker (Some (mkReader s EOF)) newline size p)
               (mkReader s EOF) eq_refl)
      by (simpl; auto; lia).
    cbn [unread].
    rewrite last_read_short in Hclean by lia.
    destruct fuel as [|fuel]; [lia|].
    destruct (In_dec Byte.byte_eq_dec newline s) as [Hin|Hno].
    + destruct (cut_chunk_with_delimiter
                  (mkChunker (Some (mkReader s EOF)) newline size p)
                  None s Hin)
        as (content & tail & Es & Htail & ->).
      cbn [delimiter chunkSize prev] in *.
      rewrite Es in Hclean.
      pose proof (ends_clean_tail _ _ Hclean Htail) as ->.
      cbn [ReadAllChunks_loop].
      rewrite NextChunk_exhausted by reflexivity. cbn [error_eqb].
      exists [cursor unit.Mebibyte (p ++ content)]. eexists.
      split; [reflexivity|].
      intros fs e Hwhole. rewrite Es, app_assoc in Hwhole.
      apply (Drains_cut unit.Mebibyte (p ++ content) []);
        [exact Mebibyte_pos | | exact Hwhole].
      intros fs' e' Hd.
      destruct (Drains_deterministic _ _ _ Hd _ _
                  (Drains_cursor_nil unit.Mebibyte Mebibyte_pos)) as [-> ->].
      apply Drains_multi_nil.
    + rewrite cut_chunk_without_delimiter by exact Hno.
      cbn [delimiter chunkSize prev].
      destruct (Z.eqb_spec (Z.of_nat (length s)) size); [lia|].
      cbn [ReadAllChunks_loop].
      rewrite NextChunk_exhausted by reflexivity. cbn [error_eqb].
      exists [cursor unit.Mebibyte (p ++ s)]. eexists.
      split; [reflexivity|].
      intros fs e Hwhole. now apply Drains_multi_single.
Qed.

(** C1, amended: for an in-memory stream every line of which is shorter
    than the chunk size, and whose last (short) read either holds no
    delimiter or ends with one, decoding the chunk cursors in chunk order
    gives what decoding the whole stream directly gives (the frames, or
    the same error), with empty lines skipped on both sides. *)
Theorem chunked_frames_agree (stream : list byte) (size : Z) (fuel : nat) :
  short_lines size stream ->
  ends_clean (last_read (Z.to_nat size) stream) ->
  length stream + 2 <= fuel ->
  exists result,
    direct_frames fuel stream = Some result
    /\ chunked_frames fuel stream size = Some result.
Proof.
  intros Hshort Hclean Hfuel.
  pose proof (short_lines_positive _ _ Hshort) as Hsize.
  destruct (Drains_newline_total _ (cursor unit.Mebibyte stream) (le_n _))
    as (fs & e & Hd).
  pose proof (Drains_newline_length _ _ _ Hd) as Hlen. simpl in Hlen.
  exists (drained fs e). split.
  - unfold direct_frames. rewrite cursor_Mebibyte.
    apply ReadAllFrames_Drains; [exact Hd | lia].
  - unfold chunked_frames.
    rewrite NewNewlineDelimitedChunkReader_positive by exact Hsize.
    destruct (ReadAllChunks_loop_cursors size _ stream [] [] fuel (le_n _)
                Hshort Hclean Hfuel) as (cursors & c' & Eloop & Hdrain).
    unfold ReadAllChunks. rewrite Eloop. cbn [app].
    apply ReadAllFrames_Drains; [now apply Hdrain | lia].
Qed.

Lemma chunked_frames_agree_witness :
  exists result,
    direct_frames 7 [x61; x0a; x62; x63; x0a] = Some result
    /\ chunked_frames 7 [x61; x0a; x62; x63; x0a] 4 = Some result.
Proof.
  apply (chunked_frames_agree [x61; x0a; x62; x63; x0a] 4 7).
  - unfold short_lines. simpl. repeat constructor.
  - right. exists []. reflexivity.
  - simpl. lia.
Defined.

(** The stream ["a\nbc\n"] in windows of four bytes, and the stream
    ["a\nbc"] in windows of three: the carry of the first window reaches
    the second chunk. *)
Example chunked_frames_two_windows :
  chunked_frames 7 [x61; x0a; x62; x63; x0a] 4 = Some (inl [[x61]; [x62; x63]])
  /\ chunked_frames 7 [x61; x0a; x62; x63] 3 = Some (inl [[x61]; [x62; x63]]).
Proof. split; reflexivity. Qed.

(** C1 fails as stated: the stream ["ab\n"] has one frame, of two bytes;
    with a chunk size of two the first window is ["ab"], full and without
    delimiter, and chunking fails where direct decoding succeeds. So does
    the stream ["ab\r\n"] with a chunk size of three: the chunker does not
    look for ['\r'], and the window ["ab\r"] holds no delimiter. *)
Lemma chunk_size_of_frame_length :
  (direct_frames 5 [x61; x62; x0a] = Some (inl [[x61; x62]])
   /\ (Z.of_nat (length [x61; x62]) <= 2)%Z
   /\ chunked_frames 5 [x61; x62; x0a] 2 = Some (inr NoFrameFoundErr)
   /\ chunked_frames 5 [x61; x62; x0a] 2 <> direct_frames 5 [x61; x62; x0a])
  /\ (direct_frames 6 [x61; x62; x0d; x0a] = Some (inl [[x61; x62]])
      /\ (Z.of_nat (length [x61; x62]) <= 3)%Z
      /\ chunked_frames 6 [x61; x62; x0d; x0a] 3 = Some (inr NoFrameFoundErr)).
Proof.
  split.
  - split; [reflexivity|]. split; [simpl; lia|]. split; [reflexivity|].
    intros H. vm_compute in H. discriminate H.
  - split; [reflexivity|]. split; [simpl; lia | reflexivity].
Qed.

(** ** Round trip of the length-prefixed format *)

Lemma payload_fits_prefix (p : frame) :
  payload_fits p ->
  uint64 (N.of_nat (length p)) = N.of_nat (length p)
  /\ exists enc,
       PutUvarint MaxVarintLen32 (N.of_nat (length p)) = Some enc.
Proof.
  unfold payload_fits. intros Hp. split.
  - apply uint64_small. eapply N.lt_trans; [exact Hp|].
    apply N.pow_lt_mono_r; lia.
  - apply (PutUvarint_fits 4). exact Hp.
Qed.

Lemma write_frames_Buffer (payloads : list frame) :
  Forall payload_fits payloads ->
  forall pre : Buffer,
    write_frames (NewVarLenFrameWriter pre) payloads
    = Some (NewVarLenFrameWriter (pre ++ concat (map frame_bytes payloads))).
Proof.
  induction 1 as [|p rest Hp _ IH]; intros pre; cbn [write_frames map concat].
  - now rewrite app_nil_r.
  - destruct (payload_fits_prefix p Hp) as [Hu [enc Henc]].
    unfold fw_Write, varLen_FrameWriter, varLen_Write, frame_bytes.
    rewrite Hu, Henc. unfold io_Write, Buffer_Writer, NewVarLenFrameWriter.
    cbn [vw_sink]. unfold NewVarLenFrameWriter in IH. rewrite IH.
    now rewrite <- !app_assoc.
Qed.

Lemma varLen_Read_frame (p : frame) (rest : list byte) (cap limit : N) :
  payload_fits p -> (2 ^ 35 <= limit)%N ->
  exists cap',
    Read (mkVarLenReader (mkReader (frame_bytes p ++ rest) EOF) cap limit)
    = Some (inl p, mkVarLenReader (mkReader rest EOF) cap' limit).
Proof.
  intros Hp Hlimit. destruct (payload_fits_prefix p Hp) as [Hu [enc Henc]].
  unfold frame_bytes. rewrite Hu, Henc, <- app_assoc.
  unfold Read, varLen_FrameReader, varLen_Read.
  cbn [bufReader bufCap allocLimit].
  rewrite (ReadUvarint_PutUvarint _ _ _ _ Henc).
  destruct (N.ltb_spec limit (N.of_nat (length p)));
    [unfold payload_fits in Hp; lia|].
  rewrite andb_false_r.
  rewrite io_ReadFull_full
    by (cbn [unread]; rewrite Nat2N.id, length_app; lia).
  cbn [unread atEnd errors_Is]. rewrite Nat2N.id.
  rewrite firstn_app, Nat.sub_diag, firstn_all, firstn_O, app_nil_r.
  rewrite skipn_app, Nat.sub_diag, skipn_all, skipn_O.
  eexists. reflexivity.
Qed.

Lemma Drains_varLen (payloads : list frame) (limit : N) :
  Forall payload_fits payloads -> (2 ^ 35 <= limit)%N ->
  forall cap,
    Drains (mkVarLenReader
              (mkReader (concat (map frame_bytes payloads)) EOF) cap limit)
      payloads EOF.
Proof.
  intros Hall Hlimit.
  induction Hall as [|p rest Hp _ IH]; intros cap; cbn [map concat].
  - eapply Drains_stop. reflexivity.
  - destruct (varLen_Read_frame p (concat (map frame_bytes rest)) cap limit
                Hp Hlimit) as [cap' HR].
    eapply Drains_frame; [exact HR | apply IH].
Qed.

Lemma maxAlloc_fits : (2 ^ 35 <= maxAlloc)%N.
Proof. unfold maxAlloc. apply N.pow_le_mono_r; lia. Qed.

(** X1: the round trip of [TestVarLenFraming], for payloads the writer can
    take: writing them to an empty buffer and reading the buffer back
    until end-of-stream gives the payloads, in order. The empty list and
    empty payloads are included. *)
Theorem varLen_round_trip (payloads : list frame) (fuel : nat) :
  Forall payload_fits payloads -> length payloads < fuel ->
  exists w,
    write_frames (NewVarLenFrameWriter ([] : Buffer)) payloads = Some w
    /\ ReadAllFrames fuel (NewVarLenFrameReader (bytes_NewReader (vw_sink w)))
       = Some (inl payloads).
Proof.
  intros Hfit Hfuel. eexists. split.
  - apply (write_frames_Buffer payloads Hfit).
  - cbn [vw_sink NewVarLenFrameWriter app].
    apply (ReadAllFrames_Drains _ payloads EOF);
      [apply (Drains_varLen payloads maxAlloc Hfit maxAlloc_fits)
      | exact Hfuel].
Qed.

Example varLen_round_trip_example :
  exists w,
    write_frames (NewVarLenFrameWriter ([] : Buffer)) [[]; [x61]; []; [x62; x63]]
    = Some w
    /\ ReadAllFrames 5 (NewVarLenFrameReader (bytes_NewReader (vw_sink w)))
       = Some (inl [[]; [x61]; []; [x62; x63]]).
Proof.
  apply varLen_round_trip.
  - repeat constructor.
  - simpl. lia.
Defined.

(** A sink that fails makes the writers return its error: the
    length-prefixed writer stops at the prefix, the newline-delimited
    writer at the separator. *)
Example varLen_Write_sink_error :
  fw_Write (NewVarLenFrameWriter (mkSink [] 0)) [x61]
  = (Some (0, Some (OtherErr 0)), NewVarLenFrameWriter (mkSink [] 0)).
Proof. reflexivity. Qed.

Example newline_Write_sink_error :
  fw_Write (mkNewlineWriter (mkSink [x61] 0) false) [x62]
  = (Some (0, Some (OtherErr 0)), mkNewlineWriter (mkSink [x61] 0) false).
Proof. reflexivity. Qed.

(** [TestNewlineDelimitedFraming] in small: frames written with the
    newline-delimited writer and read back without skipping empty lines.
    The empty first frame comes back because a second frame follows it. *)
Example newline_round_trip_example :
  exists w,
    write_frames (NewNewlineDelimitedFrameWriter ([] : Buffer))
      [[]; [x30]; [x30; x31]] = Some w
    /\ ReadAllFrames 4
         (NewNewlineDelimitedFrameReader (bytes_NewReader (nw_sink w)) false)
       = Some (inl [[]; [x30]; [x30; x31]]).
Proof. eexists. split; reflexivity. Qed.

(** * Whole streams, composed readers and buffered writes *)

(** ** Newline-delimited readers over any source *)
Lemma Read_spent_reader (B : N) (e0 : error) (skip : bool) :
  Read (spent_reader B e0 skip) = Some (inr e0, spent_reader B e0 skip).
Proof.
  unfold Read, newline_FrameReader. rewrite newline_Read_step.
  unfold Scan, spent_reader, Scanner_Err. cbn [scanner serr pending skipEmpty].
  destruct (error_eqb_spec e0 EOF) as [->|]; reflexivity.
Qed.

Lemma Read_line_reader (B : N) (e0 : error) (skip : bool) (d : list byte) :
  Read (line_reader B e0 skip d) =
  let (l, rest) := break_line d in
  if (B <=? N.of_nat (length l))%N then
    Some (inr ErrTooLong,
          mkNewlineReader
            (mkScanner (firstn (N.to_nat B) d) e0 (Some ErrTooLong) B) skip)
  else
    match rest with
    | Some r' =>
        if skip && (length (dropCR l) =? 0) then Read (line_reader B e0 skip r')
        else Some (inl (dropCR l), line_reader B e0 skip r')
    | None =>
        if length l =? 0 then Some (inr e0, spent_reader B e0 skip)
        else if skip && (length (dropCR l) =? 0)
             then Some (inr e0, spent_reader B e0 skip)
             else Some (inl (dropCR l), spent_reader B e0 skip)
    end.
Proof.
  unfold Read, newline_FrameReader. rewrite newline_Read_step.
  unfold Scan, line_reader. cbn [scanner serr pending bufsize src_end skipEmpty].
  destruct (break_line d) as [l rest].
  destruct (B <=? N.of_nat (length l))%N; [reflexivity|].
  destruct rest as [r'|].
  - destruct (skip && (length (dropCR l) =? 0)); reflexivity.
  - destruct l as [|c l].
    + cbn [length Nat.eqb]. unfold Scanner_Err. cbn [serr].
      destruct (error_eqb_spec e0 EOF) as [->|]; reflexivity.
    + cbn [length Nat.eqb].
      destruct (skip && (length (dropCR (c :: l)) =? 0)); [|reflexivity].
      apply Read_spent_reader.
Qed.

Lemma lines_break_line (d : list byte) :
  lines d = fst (break_line d)
            :: match snd (break_line d) with
               | Some r' => lines r'
               | None => []
               end.
Proof.
  induction d as [|c d IH]; simpl; [reflexivity|].
  destruct (Byte.eqb c newline); [reflexivity|].
  rewrite IH. destruct (break_line d) as [l rest]. reflexivity.
Qed.

Lemma tokens_cons (l : list byte) (d : list byte) :
  tokens (l :: lines d) = l :: tokens (lines d).
Proof.
  pose proof (lines_not_nil d). simpl. destruct (lines d); [contradiction|].
  reflexivity.
Qed.

Lemma kept_cons (skip : bool) (t : frame) (toks : list frame) :
  kept skip (t :: toks)
  = if skip && (length t =? 0) then kept skip toks else t :: kept skip toks.
Proof.
  unfold kept. destruct skip; simpl; [|reflexivity].
  destruct (length t =? 0); reflexivity.
Qed.

(** A reader over [d] whose lines all fit the buffer drains to the kept
    tokens of [d] and then to the end of its source. *)
Lemma Drains_line_reader (B : N) (e0 : error) (skip : bool) (n : nat) :
  forall d, length d <= n -> Forall (fits B) (lines d) ->
    Drains (line_reader B e0 skip d) (decoded skip d) e0.
Proof.
  induction n as [|n IH]; intros d Hn Hfit;
    pose proof (Read_line_reader B e0 skip d) as HR;
    pose proof (lines_break_line d) as HL;
    destruct (break_line d) as [l rest] eqn:Hbl; cbn [fst snd] in HL;
    rewrite HL in Hfit; inversion Hfit as [|? ? Hl Hrest]; subst;
    unfold fits in Hl;
    (destruct (N.leb_spec B (N.of_nat (length l))); [lia|]).
  - destruct d; [|simpl in Hn; lia]. simpl in Hbl. inversion Hbl; subst.
    unfold decoded. simpl in *. unfold kept. destruct skip; simpl;
      eapply Drains_stop; exact HR.
  - unfold decoded. rewrite HL. destruct rest as [r'|].
    + pose proof (break_line_Some Hbl) as Hlen.
      rewrite tokens_cons. cbn [map]. rewrite kept_cons.
      destruct (skip && (length (dropCR l) =? 0)).
      * eapply Drains_same_Read; [symmetry; exact HR|].
        apply IH; [lia | exact Hrest].
      * eapply Drains_frame; [exact HR|]. apply IH; [lia | exact Hrest].
    + cbn [tokens]. destruct (length l =? 0) eqn:El.
      * cbn [map]. unfold kept. destruct skip; simpl;
          eapply Drains_stop; exact HR.
      * cbn [map]. rewrite kept_cons.
        destruct (skip && (length (dropCR l) =? 0)).
        -- unfold kept. destruct skip; simpl; eapply Drains_stop; exact HR.
        -- eapply Drains_frame; [exact HR|].
           unfold kept. destruct skip; simpl;
             eapply Drains_stop; apply Read_spent_reader.
Qed.

(** When a line does not fit, the reader drains to the kept tokens before
    it and to [ErrTooLong]. *)
Lemma Drains_line_reader_too_long (B : N) (e0 : error) (skip : bool) (n : nat) :
  forall d pre l post, length d <= n ->
    lines d = pre ++ l :: post -> Forall (fits B) pre ->
    (B <= N.of_nat (length l))%N ->
    Drains (line_reader B e0 skip d) (kept skip (map dropCR pre)) ErrTooLong.
Proof.
  induction n as [|n IH]; intros d pre l post Hn Hlines Hfit Hlong;
    pose proof (Read_line_reader B e0 skip d) as HR;
    pose proof (lines_break_line d) as HL;
    destruct (break_line d) as [l0 rest] eqn:Hbl; cbn [fst snd] in HL;
    rewrite HL in Hlines.
  - destruct d; [|simpl in Hn; lia]. simpl in Hbl. inversion Hbl; subst.
    destruct pre as [|p pre]; simpl in Hlines; inversion Hlines; subst.
    + destruct (N.leb_spec B (N.of_nat (length (@nil byte)))); [|lia].
      unfold kept; destruct skip; simpl; eapply Drains_stop; exact HR.
    + destruct pre; discriminate.
  - destruct pre as [|p pre]; simpl in Hlines; inversion Hlines; subst.
    + destruct (N.leb_spec B (N.of_nat (length l))); [|lia].
      unfold kept; destruct skip; simpl; eapply Drains_stop; exact HR.
    + inversion Hfit as [|? ? Hp Hpre]; subst. unfold fits in Hp.
      destruct (N.leb_spec B (N.of_nat (length p))); [lia|].
      destruct rest as [r'|]; [|destruct pre; discriminate].
      pose proof (break_line_Some Hbl) as Hlen.
      cbn [map]. rewrite kept_cons.
      destruct (skip && (length (dropCR p) =? 0)).
      * eapply Drains_same_Read; [symmetry; exact HR|].
        eapply IH; eauto. lia.
      * eapply Drains_frame; [exact HR|]. eapply IH; eauto. lia.
Qed.

Lemma ReadAllFrames_loop_inv {T : Type} `{FrameReader T} (fuel : nat) :
  forall (r : T) acc res,
    ReadAllFrames_loop fuel r acc = Some res ->
    exists fs e,
      Drains r fs e
      /\ res = match drained fs e with
               | inl fs' => inl (acc ++ fs')
               | inr e' => inr e'
               end.
Proof.
  induction fuel as [|fuel IH]; intros r acc res; [discriminate|].
  cbn [ReadAllFrames_loop].
  destruct (Read r) as [[[f|e] r']|] eqn:ER; [| |discriminate].
  - intros Hloop. destruct (IH _ _ _ Hloop) as (fs & e & Hd & ->).
    exists (f :: fs), e. split; [eapply Drains_frame; eauto|].
    unfold drained. destruct (error_eqb e EOF); [|reflexivity].
    now rewrite <- app_assoc.
  - intros Hres. exists [], e. split; [eapply Drains_stop; eauto|].
    unfold drained. destruct (error_eqb e EOF); inversion Hres;
      now rewrite ?app_nil_r.
Qed.

Lemma ReadAllFrames_inv {T : Type} `{FrameReader T} (fuel : nat) (r : T) res :
  ReadAllFrames fuel r = Some res ->
  exists fs e, Drains r fs e /\ res = drained fs e.
Proof.
  intros Hres. destruct (ReadAllFrames_loop_inv fuel r [] res Hres)
    as (fs & e & Hd & ->).
  exists fs, e. split; [exact Hd|]. destruct (drained fs e); reflexivity.
Qed.

Lemma NewNewlineDelimitedFrameReader_line_reader (rd : Reader) (skip : bool) :
  NewNewlineDelimitedFrameReader rd skip
  = line_reader unit.Mebibyte (atEnd rd) skip (unread rd).
Proof. reflexivity. Qed.

Lemma fits_dec (B : N) (l : list byte) : {fits B l} + {~ fits B l}.
Proof.
  unfold fits. destruct (N.of_nat (length l) <? B)%N eqn:E.
  - left. now apply N.ltb_lt.
  - right. apply N.ltb_ge in E. lia.
Qed.

Lemma first_misfit (B : N) (ls : list (list byte)) :
  ~ Forall (fits B) ls ->
  exists pre l post,
    ls = pre ++ l :: post /\ Forall (fits B) pre
    /\ (B <= N.of_nat (length l))%N.
Proof.
  induction ls as [|l ls IH]; intros Hn.
  - exfalso. apply Hn. constructor.
  - destruct (fits_dec B l) as [Hl|Hl].
    + destruct IH as (pre & l' & post & -> & Hpre & Hlong).
      * intros Hf. apply Hn. now constructor.
      * exists (l :: pre), l', post. repeat split; auto.
    + exists [], l, ls. repeat split; auto. unfold fits in Hl. lia.
Qed.


Lemma ReadAllFrames_line_reader (B : N) (e0 : error) (skip : bool)
    (d : list byte) (fuel : nat) :
  Forall (fits B) (lines d) -> length d < fuel ->
  ReadAllFrames fuel (line_reader B e0 skip d)
  = Some (drained (decoded skip d) e0).
Proof.
  intros Hfit Hfuel.
  pose proof (Drains_line_reader B e0 skip _ d (le_n _) Hfit) as Hd.
  pose proof (Drains_newline_length _ _ _ Hd) as Hlen. simpl in Hlen.
  apply ReadAllFrames_Drains; [exact Hd | lia].
Qed.

Lemma ReadAllFrames_line_reader_too_long (B : N) (e0 : error) (skip : bool)
    (d : list byte) (fuel : nat) :
  Exists (fun l => (B <= N.of_nat (length l))%N) (lines d) ->
  length d < fuel ->
  ReadAllFrames fuel (line_reader B e0 skip d) = Some (inr ErrTooLong).
Proof.
  intros Hlong Hfuel.
  assert (Hn : ~ Forall (fits B) (lines d)).
  { intros Hf. apply Exists_exists in Hlong. destruct Hlong as (l & Hin & Hl).
    rewrite Forall_forall in Hf. specialize (Hf l Hin). unfold fits in Hf. lia. }
  destruct (first_misfit _ _ Hn) as (pre & l & post & El & Hpre & Hl).
  pose proof (Drains_line_reader_too_long B e0 skip _ d
                _ _ _ (le_n _) El Hpre Hl) as Hd.
  pose proof (Drains_newline_length _ _ _ Hd) as Hlen. simpl in Hlen.
  change (Some (inr ErrTooLong))
    with (Some (drained (kept skip (map dropCR pre)) ErrTooLong)).
  apply ReadAllFrames_Drains; [exact Hd | lia].
Qed.

(** X7: for an in-memory stream every line of which is shorter than the
    scanner's buffer of one mebibyte, [ReadAllFrames] over the
    newline-delimited reader returns, without error, the lines of the
    stream in order, each without its ['\n'] and without one trailing
    ['\r']; an empty last line (a stream that is empty or ends with
    ['\n']) gives no frame; with [skipEmpty] the empty frames are left
    out. *)
Theorem NewNewlineDelimitedFrameReader_decodes (stream : list byte)
    (skip : bool) (fuel : nat) :
  Forall (fits unit.Mebibyte) (lines stream) -> length stream < fuel ->
  ReadAllFrames fuel
    (NewNewlineDelimitedFrameReader (bytes_NewReader stream) skip)
  = Some (inl (decoded skip stream)).
Proof.
  intros Hfit Hfuel.
  rewrite NewNewlineDelimitedFrameReader_line_reader.
  apply (ReadAllFrames_line_reader _ EOF); assumption.
Qed.

Lemma NewNewlineDelimitedFrameReader_decodes_witness :
  ReadAllFrames 9
    (NewNewlineDelimitedFrameReader
       (bytes_NewReader [x61; x0d; x0a; x0a; x62; x0a; x0d; x0a]) false)
  = Some (inl [[x61]; []; [x62]; []]).
Proof.
  apply (NewNewlineDelimitedFrameReader_decodes
           [x61; x0d; x0a; x0a; x62; x0a; x0d; x0a] false 9).
  - simpl. repeat constructor.
  - simpl. lia.
Defined.

(** X8: when some line of the stream has one mebibyte or more,
    [ReadAllFrames] over the newline-delimited reader returns
    [bufio.ErrTooLong] and no frame, also when shorter lines came
    first. *)
Theorem NewNewlineDelimitedFrameReader_line_too_long (stream : list byte)
    (skip : bool) (fuel : nat) :
  Exists (fun l => (unit.Mebibyte <= N.of_nat (length l))%N) (lines stream) ->
  length stream < fuel ->
  ReadAllFrames fuel
    (NewNewlineDelimitedFrameReader (bytes_NewReader stream) skip)
  = Some (inr ErrTooLong).
Proof.
  intros Hlong Hfuel.
  rewrite NewNewlineDelimitedFrameReader_line_reader.
  now apply ReadAllFrames_line_reader_too_long.
Qed.

(** X9: when the source under the newline-delimited reader ends with an
    error other than [io.EOF], [ReadAllFrames] returns that error and no
    frame, although every line of the source could be decoded. *)
Theorem NewNewlineDelimitedFrameReader_source_error (rd : Reader)
    (skip : bool) (fuel : nat) :
  atEnd rd <> EOF ->
  Forall (fits unit.Mebibyte) (lines (unread rd)) ->
  length (unread rd) < fuel ->
  ReadAllFrames fuel (NewNewlineDelimitedFrameReader rd skip)
  = Some (inr (atEnd rd)).
Proof.
  intros Herr Hfit Hfuel.
  rewrite NewNewlineDelimitedFrameReader_line_reader.
  rewrite ReadAllFrames_line_reader by assumption.
  unfold drained. destruct (error_eqb_spec (atEnd rd) EOF); [contradiction|].
  reflexivity.
Qed.

Lemma NewNewlineDelimitedFrameReader_source_error_witness :
  ReadAllFrames 4
    (NewNewlineDelimitedFrameReader
       (mkReader [x61; x0a; x62] (OtherErr 7)) false)
  = Some (inr (OtherErr 7)).
Proof.
  apply (NewNewlineDelimitedFrameReader_source_error
           (mkReader [x61; x0a; x62] (OtherErr 7)) false 4).
  - discriminate.
  - simpl. repeat constructor.
  - simpl. lia.
Defined.

Lemma lines_repeat (b : byte) (n : nat) :
  b <> newline -> lines (repeat b n) = [repeat b n].
Proof.
  intros Hb. induction n as [|n IH]; simpl; [reflexivity|].
  destruct (byte_eqb_spec b newline); [contradiction|]. now rewrite IH.
Qed.

Lemma NewNewlineDelimitedFrameReader_line_too_long_witness :
  ReadAllFrames (S (length long_line))
    (NewNewlineDelimitedFrameReader (bytes_NewReader long_line) true)
  = Some (inr ErrTooLong).
Proof.
  apply NewNewlineDelimitedFrameReader_line_too_long.
  - unfold long_line. rewrite lines_repeat by discriminate.
    constructor. rewrite repeat_length, N2Nat.id. apply N.le_refl.
  - apply Nat.lt_succ_diag_r.
Defined.


Lemma tokens_incl (ls : list (list byte)) (t : list byte) :
  In t (tokens ls) -> In t ls.
Proof.
  induction ls as [|l ls IH]; simpl; [tauto|].
  destruct ls as [|l' ls].
  - destruct (length l =? 0); simpl; tauto.
  - intros [E|Hin]; [now left | right; now apply IH].
Qed.


Lemma dropCR_snoc (p : list byte) : dropCR (p ++ [carriage]) = p.
Proof.
  unfold dropCR. rewrite last_last, removelast_last, length_app. simpl.
  destruct (Nat.ltb_spec 0 (length p + 1)); [reflexivity | lia].
Qed.




Lemma write_frames_newline_rest (ps : list frame) :
  forall pre : Buffer,
    write_frames (mkNewlineWriter pre false) ps
    = Some (mkNewlineWriter (pre ++ concat (map (cons newline) ps)) false).
Proof.
  induction ps as [|p ps IH]; intros pre; cbn [write_frames map concat].
  - now rewrite app_nil_r.
  - unfold fw_Write, newline_FrameWriter, newline_Write.
    cbn [nw_first nw_sink]. unfold io_Write, Buffer_Writer.
    rewrite IH. now rewrite <- !app_assoc.
Qed.

Lemma write_frames_newline (ps : list frame) :
  exists first,
    write_frames (NewNewlineDelimitedFrameWriter ([] : Buffer)) ps
    = Some (mkNewlineWriter (joined ps) first).
Proof.
  destruct ps as [|p ps]; [now exists true|]. exists false.
  cbn [write_frames]. unfold fw_Write, newline_FrameWriter, newline_Write.
  unfold NewNewlineDelimitedFrameWriter. cbn [nw_first nw_sink].
  unfold io_Write, Buffer_Writer. rewrite write_frames_newline_rest.
  reflexivity.
Qed.

Lemma lines_app_newline (p x : list byte) :
  ~ In newline p -> lines (p ++ newline :: x) = p :: lines x.
Proof.
  induction p as [|c p IH]; intros Hp; simpl.
  - reflexivity.
  - destruct (byte_eqb_spec c newline) as [->|Hc].
    + exfalso. apply Hp. now left.
    + rewrite IH; [reflexivity|]. intros Hin. apply Hp. now right.
Qed.

Lemma lines_line (p : list byte) : ~ In newline p -> lines p = [p].
Proof.
  induction p as [|c p IH]; intros Hp; simpl; [reflexivity|].
  destruct (byte_eqb_spec c newline) as [->|Hc].
  - exfalso. apply Hp. now left.
  - rewrite IH; [reflexivity|]. intros Hin. apply Hp. now right.
Qed.

Lemma lines_joined (p : frame) (rest : list frame) :
  Forall (fun q => ~ In newline q) (p :: rest) ->
  lines (joined (p :: rest)) = p :: rest.
Proof.
  revert p. induction rest as [|q rest IH]; intros p Hall;
    inversion Hall as [|? ? Hp Hrest]; subst; cbn [joined map concat].
  - rewrite app_nil_r. now apply lines_line.
  - cbn [app]. rewrite lines_app_newline by exact Hp.
    f_equal. apply (IH q Hrest).
Qed.

Lemma tokens_snoc_empty (ps : list (list byte)) : tokens (ps ++ [[]]) = ps.
Proof.
  induction ps as [|p ps IH]; [reflexivity|].
  cbn [app tokens]. destruct (ps ++ [[]]) as [|x y] eqn:E.
  - destruct ps; discriminate.
  - now rewrite IH.
Qed.

Lemma tokens_last_not_empty (ps : list (list byte)) :
  (forall ps', ps <> ps' ++ [[]]) -> tokens ps = ps.
Proof.
  induction ps as [|p ps IH]; intros Hlast; [reflexivity|].
  cbn [tokens]. destruct ps as [|q ps].
  - destruct p as [|c p]; [|reflexivity].
    exfalso. apply (Hlast []). reflexivity.
  - f_equal. apply IH. intros ps' E. apply (Hlast (p :: ps')).
    rewrite E. reflexivity.
Qed.

Lemma filter_tokens (ls : list (list byte)) :
  filter (fun t => negb (length t =? 0)) (tokens ls)
  = filter (fun t => negb (length t =? 0)) ls.
Proof.
  induction ls as [|l ls IH]; [reflexivity|].
  cbn [tokens]. destruct ls as [|l' ls].
  - destruct l; reflexivity.
  - cbn [filter] in *. now rewrite IH.
Qed.

Lemma map_dropCR_payloads (ps : list frame) :
  Forall line_payload ps -> map dropCR ps = ps.
Proof.
  induction 1 as [|p ps (_ & Hp & _) _ IH]; simpl; [reflexivity|].
  now rewrite Hp, IH.
Qed.

Lemma line_payloads_lines (ps : list frame) :
  Forall line_payload ps ->
  Forall (fun q => ~ In newline q) ps /\ Forall (fits unit.Mebibyte) ps.
Proof.
  intros H. split; eapply Forall_impl; try exact H; intros p (H1 & H2 & H3);
    assumption.
Qed.

(** What the reader makes of the payloads the writer joined. *)
Lemma decoded_joined (skip : bool) (ps : list frame) :
  Forall line_payload ps ->
  Forall (fits unit.Mebibyte) (lines (joined ps))
  /\ decoded skip (joined ps) = kept skip (tokens ps).
Proof.
  intros Hps. destruct (line_payloads_lines ps Hps) as [Hnl Hfit].
  destruct ps as [|p rest].
  - split; [repeat constructor | reflexivity].
  - unfold decoded. rewrite (lines_joined p rest Hnl). split; [exact Hfit|].
    f_equal. apply map_dropCR_payloads.
    apply Forall_forall. intros t Ht. apply tokens_incl in Ht.
    exact (proj1 (Forall_forall _ _) Hps t Ht).
Qed.

(** X11: the round trip of the newline-delimited format. Payloads
    without ['\n'], not ending in ['\r'] and shorter than one mebibyte,
    the last of which is not empty, written to an empty buffer, leave in
    it the payloads joined by ['\n'], and reading the buffer back without
    skipping empty lines returns the payloads, in order. *)
Theorem newline_round_trip (payloads : list frame) (fuel : nat) :
  Forall line_payload payloads ->
  (forall ps', payloads <> ps' ++ [[]]) ->
  length (joined payloads) < fuel ->
  exists w,
    write_frames (NewNewlineDelimitedFrameWriter ([] : Buffer)) payloads
    = Some w
    /\ nw_sink w = joined payloads
    /\ ReadAllFrames fuel
         (NewNewlineDelimitedFrameReader (bytes_NewReader (nw_sink w)) false)
       = Some (inl payloads).
Proof.
  intros Hps Hlast Hfuel.
  destruct (write_frames_newline payloads) as [first Hw].
  eexists. split; [exact Hw|]. cbn [nw_sink]. split; [reflexivity|].
  destruct (decoded_joined false payloads Hps) as [Hfit Hdec].
  rewrite NewNewlineDelimitedFrameReader_line_reader;
  rewrite (ReadAllFrames_line_reader _ EOF) by assumption; cbn [unread atEnd bytes_NewReader]; unfold drained; cbn [error_eqb].
  rewrite Hdec, tokens_last_not_empty by exact Hlast. reflexivity.
Qed.

Lemma newline_round_trip_witness :
  exists w,
    write_frames (NewNewlineDelimitedFrameWriter ([] : Buffer))
      [[]; [x30]; []; [x30; x31]] = Some w
    /\ nw_sink w = joined [[]; [x30]; []; [x30; x31]]
    /\ ReadAllFrames 7
         (NewNewlineDelimitedFrameReader (bytes_NewReader (nw_sink w)) false)
       = Some (inl [[]; [x30]; []; [x30; x31]]).
Proof.
  apply (newline_round_trip [[]; [x30]; []; [x30; x31]] 7).
  - repeat constructor; simpl; intuition discriminate.
  - intros ps' E. apply (f_equal (fun l => last l [x00])) in E.
    rewrite last_last in E. discriminate E.
  - simpl. lia.
Defined.

(** X12: an empty payload written last is lost: after writing such
    payloads followed by an empty one, reading back returns the payloads
    without the last, empty one. *)
Theorem newline_trailing_empty_payload_lost (payloads : list frame)
    (fuel : nat) :
  Forall line_payload payloads ->
  length (joined (payloads ++ [[]])) < fuel ->
  exists w,
    write_frames (NewNewlineDelimitedFrameWriter ([] : Buffer))
      (payloads ++ [[]]) = Some w
    /\ ReadAllFrames fuel
         (NewNewlineDelimitedFrameReader (bytes_NewReader (nw_sink w)) false)
       = Some (inl payloads).
Proof.
  intros Hps Hfuel.
  assert (Hall : Forall line_payload (payloads ++ [[]])).
  { apply Forall_app. split; [exact Hps|]. repeat constructor. simpl. tauto. }
  destruct (write_frames_newline (payloads ++ [[]])) as [first Hw].
  eexists. split; [exact Hw|]. cbn [nw_sink].
  destruct (decoded_joined false _ Hall) as [Hfit Hdec].
  rewrite NewNewlineDelimitedFrameReader_line_reader;
  rewrite (ReadAllFrames_line_reader _ EOF) by assumption; cbn [unread atEnd bytes_NewReader]; unfold drained; cbn [error_eqb].
  rewrite Hdec, tokens_snoc_empty. reflexivity.
Qed.

Lemma newline_trailing_empty_payload_lost_witness :
  exists w,
    write_frames (NewNewlineDelimitedFrameWriter ([] : Buffer))
      ([[x61]; []] ++ [[]]) = Some w
    /\ ReadAllFrames 4
         (NewNewlineDelimitedFrameReader (bytes_NewReader (nw_sink w)) false)
       = Some (inl [[x61]; []]).
Proof.
  apply (newline_trailing_empty_payload_lost [[x61]; []] 4).
  - repeat constructor; simpl; intuition discriminate.
  - simpl. lia.
Defined.

(** X13: reading back with [skipEmpty] what the newline-delimited writer
    wrote returns the payloads that are not empty, in order. *)
Theorem newline_round_trip_skipEmpty (payloads : list frame) (fuel : nat) :
  Forall line_payload payloads ->
  length (joined payloads) < fuel ->
  exists w,
    write_frames (NewNewlineDelimitedFrameWriter ([] : Buffer)) payloads
    = Some w
    /\ ReadAllFrames fuel
         (NewNewlineDelimitedFrameReader (bytes_NewReader (nw_sink w)) true)
       = Some (inl (filter (fun p => negb (length p =? 0)) payloads)).
Proof.
  intros Hps Hfuel.
  destruct (write_frames_newline payloads) as [first Hw].
  eexists. split; [exact Hw|]. cbn [nw_sink].
  destruct (decoded_joined true payloads Hps) as [Hfit Hdec].
  rewrite NewNewlineDelimitedFrameReader_line_reader;
  rewrite (ReadAllFrames_line_reader _ EOF) by assumption; cbn [unread atEnd bytes_NewReader]; unfold drained; cbn [error_eqb].
  rewrite Hdec. unfold kept. now rewrite filter_tokens.
Qed.

Lemma newline_round_trip_skipEmpty_witness :
  exists w,
    write_frames (NewNewlineDelimitedFrameWriter ([] : Buffer))
      [[]; [x30]; []; [x31]; []] = Some w
    /\ ReadAllFrames 7
         (NewNewlineDelimitedFrameReader (bytes_NewReader (nw_sink w)) true)
       = Some (inl (filter (fun p => negb (length p =? 0))
                      [[]; [x30]; []; [x31]; []])).
Proof.
  apply (newline_round_trip_skipEmpty [[]; [x30]; []; [x31]; []] 7).
  - repeat constructor; simpl; intuition discriminate.
  - simpl. lia.
Defined.

(** X14: the newline-delimited reader accepts lines that end with
    ["\r\n"]: a stream of payloads without ['\n'], each followed by
    ["\r\n"], is decoded into the payloads (those that are not empty with
    [skipEmpty]); a payload that itself ends in ['\r'] keeps it. *)
Lemma lines_crlf_stream (ps : list frame) :
  Forall (fun p => ~ In newline p) ps ->
  lines (crlf_stream ps) = map (fun p => p ++ [carriage]) ps ++ [[]].
Proof.
  induction 1 as [|p ps Hp _ IH]; [reflexivity|].
  unfold crlf_stream in *. cbn [map concat app].
  rewrite <- app_assoc.
  change (p ++ [carriage; newline] ++ concat (map (fun p0 => p0 ++ [carriage; newline]) ps))
    with (p ++ [carriage] ++ newline :: concat (map (fun p0 => p0 ++ [carriage; newline]) ps)).
  rewrite app_assoc, lines_app_newline, IH; [reflexivity|].
  intros Hin. apply in_app_or in Hin. destruct Hin as [Hin|[E|[]]];
    [contradiction | discriminate E].
Qed.

Theorem newline_reader_accepts_crlf (payloads : list frame) (skip : bool)
    (fuel : nat) :
  Forall (fun p => ~ In newline p
                   /\ (N.of_nat (length p) + 1 < unit.Mebibyte)%N) payloads ->
  length (crlf_stream payloads) < fuel ->
  ReadAllFrames fuel
    (NewNewlineDelimitedFrameReader
       (bytes_NewReader (crlf_stream payloads)) skip)
  = Some (inl (kept skip payloads)).
Proof.
  intros Hps Hfuel.
  assert (Hnl : Forall (fun p => ~ In newline p) payloads)
    by (eapply Forall_impl; [|exact Hps]; simpl; tauto).
  rewrite NewNewlineDelimitedFrameReader_line_reader;
  rewrite (ReadAllFrames_line_reader _ EOF); [| |exact Hfuel]; cbn [unread atEnd bytes_NewReader]; unfold drained; cbn [error_eqb].
  - unfold decoded. rewrite (lines_crlf_stream _ Hnl), tokens_snoc_empty.
    rewrite map_map. do 3 f_equal.
    rewrite <- (map_id payloads) at 2. apply map_ext.
    intros p. apply dropCR_snoc.
  - rewrite (lines_crlf_stream _ Hnl). apply Forall_app. split.
    + apply Forall_forall. intros l Hl. apply in_map_iff in Hl.
      destruct Hl as (p & <- & Hp).
      pose proof (proj1 (Forall_forall _ _) Hps p Hp) as [_ Hlen].
      unfold fits. rewrite length_app. simpl. lia.
    + repeat constructor.
Qed.

Lemma newline_reader_accepts_crlf_witness :
  ReadAllFrames 11
    (NewNewlineDelimitedFrameReader
       (bytes_NewReader (crlf_stream [[x61]; []; [x62; x0d]])) false)
  = Some (inl (kept false [[x61]; []; [x62; x0d]])).
Proof.
  apply (newline_reader_accepts_crlf [[x61]; []; [x62; x0d]] false 11).
  - repeat constructor; simpl; intuition discriminate.
  - simpl. lia.
Defined.

(** ** Slices of frames and chains of readers *)

Lemma skipn_nth (frames : list frame) :
  forall pos, pos < length frames ->
    skipn pos frames = nth pos frames [] :: skipn (S pos) frames.
Proof.
  induction frames as [|f frames IH]; intros pos Hpos; [simpl in Hpos; lia|].
  destruct pos as [|pos]; [reflexivity|].
  cbn [skipn nth]. apply IH. simpl in Hpos. lia.
Qed.

Lemma Drains_slice (frames : list frame) (k : nat) :
  forall pos, pos + k = length frames ->
    Drains (mkSlice frames pos) (skipn pos frames) EOF.
Proof.
  induction k as [|k IH]; intros pos Hpos.
  - rewrite skipn_all2 by lia. apply (Drains_stop _ (mkSlice frames pos)).
    unfold Read, slice_FrameReader. cbn [sl_pos sl_frames].
    destruct (Nat.eqb_spec pos (length frames)); [reflexivity | lia].
  - rewrite skipn_nth by lia.
    apply (Drains_frame _ (mkSlice frames (S pos))).
    + unfold Read, slice_FrameReader. cbn [sl_pos sl_frames].
      destruct (Nat.eqb_spec pos (length frames)); [lia | reflexivity].
    + apply IH. lia.
Qed.

(** X15: [ReadAllFrames] over [SliceFrameReader frames] returns
    [frames]. *)
Theorem SliceFrameReader_round_trip (frames : list frame) (fuel : nat) :
  length frames < fuel ->
  ReadAllFrames fuel (SliceFrameReader frames) = Some (inl frames).
Proof.
  intros Hfuel.
  change (Some (inl frames)) with (Some (drained frames EOF)).
  apply ReadAllFrames_Drains; [|exact Hfuel].
  apply (Drains_slice frames (length frames) 0). reflexivity.
Qed.

Lemma SliceFrameReader_round_trip_witness :
  ReadAllFrames 4 (SliceFrameReader [[x61]; []; [x62; x0a]])
  = Some (inl [[x61]; []; [x62; x0a]]).
Proof.
  apply (SliceFrameReader_round_trip [[x61]; []; [x62; x0a]] 4).
  simpl. lia.
Defined.

Lemma ReadAllFrames_loop_length {T : Type} `{FrameReader T} (fuel : nat) :
  forall (r : T) acc res fs e,
    ReadAllFrames_loop fuel r acc = Some res ->
    Drains r fs e -> length fs < fuel.
Proof.
  induction fuel as [|fuel IH]; intros r acc res fs e; [discriminate|].
  cbn [ReadAllFrames_loop]. intros Hloop Hd.
  inversion Hd as [? ? ? Hr | ? ? ? ? ? Hr Hd']; subst; rewrite Hr in Hloop.
  - simpl. lia.
  - simpl. apply -> Nat.succ_lt_mono. exact (IH _ _ _ _ _ Hloop Hd').
Qed.

Lemma ReadAllFrames_frames_inv {T : Type} `{FrameReader T} (fuel : nat)
    (r : T) (fs : list frame) :
  ReadAllFrames fuel r = Some (inl fs) -> Drains r fs EOF.
Proof.
  intros Hres. destruct (ReadAllFrames_inv _ _ _ Hres) as (fs' & e & Hd & Hdr).
  unfold drained in Hdr.
  destruct (error_eqb_spec e EOF) as [->|Hne]; [|discriminate].
  inversion Hdr; subst. exact Hd.
Qed.

Lemma ReadAllFrames_error_inv {T : Type} `{FrameReader T} (fuel : nat)
    (r : T) (err : error) :
  ReadAllFrames fuel r = Some (inr err) ->
  err <> EOF /\ exists fs, Drains r fs err /\ length fs < fuel.
Proof.
  intros Hres. destruct (ReadAllFrames_inv _ _ _ Hres) as (fs' & e & Hd & Hdr).
  unfold drained in Hdr.
  destruct (error_eqb_spec e EOF) as [->|Hne]; [discriminate|].
  inversion Hdr; subst. split; [exact Hne|]. exists fs'. split; [exact Hd|].
  exact (ReadAllFrames_loop_length _ _ _ _ _ _ Hres Hd).
Qed.

Lemma Drains_multi_concat {T : Type} `{FrameReader T} (rs : list T)
    (fss : list (list frame)) :
  Forall2 (fun r fs => Drains r fs EOF) rs fss ->
  forall (rest : list T) fs e,
    Drains (MultiFrameReader rest) fs e ->
    Drains (MultiFrameReader (rs ++ rest)) (concat fss ++ fs) e.
Proof.
  induction 1 as [|r fs0 rs fss Hr _ IH]; intros rest fs e Hrest.
  - exact Hrest.
  - cbn [app concat]. rewrite <- app_assoc.
    apply Drains_multi_cons; [exact Hr | now apply IH].
Qed.

(** X16: [MultiFrameReader] concatenates: when each of the readers,
    drained by [ReadAllFrames], returns its frames without error, the
    multi-reader over them returns the frames of the first reader, then
    those of the second, and so on. *)
Theorem MultiFrameReader_concatenates {T : Type} `{FrameReader T}
    (rs : list T) (fss : list (list frame)) (fuel : nat) :
  Forall2 (fun r fs => exists k, ReadAllFrames k r = Some (inl fs)) rs fss ->
  length (concat fss) < fuel ->
  ReadAllFrames fuel (MultiFrameReader rs) = Some (inl (concat fss)).
Proof.
  intros Hall Hfuel.
  change (Some (inl (concat fss))) with (Some (drained (concat fss) EOF)).
  apply ReadAllFrames_Drains; [|exact Hfuel].
  rewrite <- (app_nil_r rs), <- (app_nil_r (concat fss)).
  apply Drains_multi_concat; [|apply Drains_multi_nil].
  eapply Forall2_impl; [|exact Hall].
  intros r fs [k Hk]. exact (ReadAllFrames_frames_inv _ _ _ Hk).
Qed.

Lemma MultiFrameReader_concatenates_witness :
  ReadAllFrames 4
    (MultiFrameReader
       [SliceFrameReader [[x61]]; SliceFrameReader [];
        SliceFrameReader [[x62]; [x63]]])
  = Some (inl (concat [[[x61]]; []; [[x62]; [x63]]])).
Proof.
  apply (MultiFrameReader_concatenates
           [SliceFrameReader [[x61]]; SliceFrameReader [];
            SliceFrameReader [[x62]; [x63]]]
           [[[x61]]; []; [[x62]; [x63]]] 4).
  - repeat constructor; exists 3; reflexivity.
  - simpl. lia.
Defined.

(** X17: [MultiFrameReader] stops at the first reader that fails: when
    the readers before it drain without error and it fails with an error
    other than [io.EOF], [ReadAllFrames] over the multi-reader returns that
    error and no frame, whatever readers follow. *)
Theorem MultiFrameReader_first_error {T : Type} `{FrameReader T}
    (before after : list T) (failing : T) (fss : list (list frame))
    (err : error) (k fuel : nat) :
  Forall2 (fun r fs => exists k, ReadAllFrames k r = Some (inl fs))
    before fss ->
  ReadAllFrames k failing = Some (inr err) ->
  length (concat fss) + k <= fuel ->
  ReadAllFrames fuel (MultiFrameReader (before ++ failing :: after))
  = Some (inr err).
Proof.
  intros Hall Hfail Hfuel.
  destruct (ReadAllFrames_error_inv _ _ _ Hfail) as (Hne & fs & Hd & Hlen).
  assert (Hdr : drained (concat fss ++ fs) err = inr err).
  { unfold drained. destruct (error_eqb_spec err EOF); [contradiction|].
    reflexivity. }
  rewrite <- Hdr. apply ReadAllFrames_Drains.
  - apply Drains_multi_concat.
    + eapply Forall2_impl; [|exact Hall].
      intros r fs' [k' Hk']. exact (ReadAllFrames_frames_inv _ _ _ Hk').
    + now apply Drains_multi_cons_error.
  - rewrite length_app. lia.
Qed.

Lemma MultiFrameReader_first_error_witness :
  ReadAllFrames 4
    (MultiFrameReader
       ([NewVarLenFrameReader (bytes_NewReader [x01; x61])]
        ++ NewVarLenFrameReader (bytes_NewReader [x01; x62; x02; x63])
        :: [NewVarLenFrameReader (bytes_NewReader [x01; x64])]))
  = Some (inr ErrUnexpectedEOF).
Proof.
  apply (MultiFrameReader_first_error
           [NewVarLenFrameReader (bytes_NewReader [x01; x61])]
           [NewVarLenFrameReader (bytes_NewReader [x01; x64])]
           (NewVarLenFrameReader (bytes_NewReader [x01; x62; x02; x63]))
           [[[x61]]] ErrUnexpectedEOF 3 4).
  - repeat constructor. exists 2. reflexivity.
  - reflexivity.
  - simpl. lia.
Defined.

(** ** The length-prefixed format: counts, failing sinks, cut streams *)

Lemma PutUvarint_length (slots : nat) :
  forall x enc, PutUvarint slots x = Some enc ->
    1 <= length enc <= slots.
Proof.
  induction slots as [|slots IH]; intros x enc; cbn [PutUvarint];
    [discriminate|].
  destruct (0x80 <=? x)%N.
  - destruct (PutUvarint slots (N.shiftr x 7)) as [rest|] eqn:E;
      [|discriminate].
    intros Henc. inversion Henc; subst. specialize (IH _ _ E). simpl. lia.
  - intros Henc. inversion Henc; subst. simpl. lia.
Qed.

Lemma frame_bytes_prefix (p : frame) :
  payload_fits p ->
  exists enc,
    PutUvarint MaxVarintLen32 (uint64 (N.of_nat (length p))) = Some enc
    /\ frame_bytes p = enc ++ p
    /\ 1 <= length enc <= 5.
Proof.
  intros Hp. destruct (payload_fits_prefix p Hp) as [Hu [enc Henc]].
  exists enc. unfold frame_bytes. rewrite Hu, Henc.
  split; [reflexivity|]. split; [reflexivity|].
  exact (PutUvarint_length _ _ _ Henc).
Qed.

(** X2: writing a payload shorter than [2 ^ 35] bytes with the
    length-prefixed writer appends the payload's frame to a buffer that
    never fails, and returns the length of that frame and no error; the
    frame is the payload and a prefix of one to five bytes. *)
Theorem varLen_Write_count (sink : Buffer) (payload : frame) :
  payload_fits payload ->
  fw_Write (NewVarLenFrameWriter sink) payload
  = (Some (length (frame_bytes payload), None),
     NewVarLenFrameWriter (sink ++ frame_bytes payload))
  /\ length payload + 1 <= length (frame_bytes payload) <= length payload + 5.
Proof.
  intros Hp. destruct (frame_bytes_prefix payload Hp) as (enc & Henc & Efb & Hlen).
  split.
  - unfold fw_Write, varLen_FrameWriter, varLen_Write. rewrite Henc, Efb.
    unfold io_Write, Buffer_Writer, NewVarLenFrameWriter. cbn [vw_sink].
    rewrite length_app, <- app_assoc, (Nat.add_comm (length enc)).
    reflexivity.
  - rewrite Efb, length_app. lia.
Qed.

Lemma varLen_Write_count_witness :
  fw_Write (NewVarLenFrameWriter ([x07] : Buffer)) [x61; x62]
  = (Some (length (frame_bytes [x61; x62]), None),
     NewVarLenFrameWriter ([x07] ++ frame_bytes [x61; x62]))
  /\ length [x61; x62] + 1 <= length (frame_bytes [x61; x62])
     <= length [x61; x62] + 5.
Proof.
  apply (varLen_Write_count [x07] [x61; x62]).
  unfold payload_fits. simpl. lia.
Defined.

(** X3: when the sink has room for fewer bytes than the frame has, the
    length-prefixed writer returns the sink's error and the number of
    bytes of the frame that reached the sink, whether the sink failed
    inside the prefix or inside the payload. *)
Theorem varLen_Write_failing_sink (sink : LimitedSink) (payload : frame) :
  payload_fits payload ->
  room sink < length (frame_bytes payload) ->
  fw_Write (NewVarLenFrameWriter sink) payload
  = (Some (room sink, Some (OtherErr 0)),
     NewVarLenFrameWriter
       (mkSink (taken sink ++ firstn (room sink) (frame_bytes payload)) 0)).
Proof.
  intros Hp Hroom.
  destruct (frame_bytes_prefix payload Hp) as (enc & Henc & Efb & Hlen).
  rewrite Efb in *. rewrite length_app in Hroom.
  unfold fw_Write, varLen_FrameWriter, varLen_Write. rewrite Henc.
  unfold io_Write, LimitedSink_Writer, NewVarLenFrameWriter. cbn [vw_sink].
  destruct (Nat.leb_spec (length enc) (room sink)) as [Hfit|Hshort].
  - cbn [room taken].
    destruct (Nat.leb_spec (length payload) (room sink - length enc));
      [lia|].
    rewrite firstn_app.
    rewrite (firstn_all2 (n := room sink)) by lia.
    rewrite <- app_assoc.
    replace (room sink - length enc + length enc) with (room sink) by lia.
    reflexivity.
  - rewrite firstn_app.
    replace (room sink - length enc) with 0 by lia.
    rewrite firstn_O, app_nil_r. reflexivity.
Qed.

Lemma varLen_Write_failing_sink_witness :
  fw_Write (NewVarLenFrameWriter (mkSink [x07] 2)) [x61; x62]
  = (Some (2, Some (OtherErr 0)),
     NewVarLenFrameWriter
       (mkSink ([x07] ++ firstn 2 (frame_bytes [x61; x62])) 0)).
Proof.
  apply (varLen_Write_failing_sink (mkSink [x07] 2) [x61; x62]).
  - unfold payload_fits. simpl. lia.
  - simpl. lia.
Defined.





Lemma io_ReadFull_length (rd : Reader) (n : nat) :
  snd (fst (io_ReadFull rd n)) = None ->
  length (fst (fst (io_ReadFull rd n))) = n.
Proof.
  unfold io_ReadFull. destruct (Nat.leb_spec n (length (unread rd))).
  - intros _. cbn [fst snd]. rewrite length_firstn. lia.
  - discriminate.
Qed.

(** X5: wherever [Read] returns, the capacity of the length-prefixed
    reader's buffer has not shrunk, and a frame that [Read] returns fits
    in it. *)
Theorem varLen_Read_capacity (fr fr' : varLenFrameReader)
    (res : frame + error) :
  Read fr = Some (res, fr') ->
  (bufCap fr <= bufCap fr')%N
  /\ forall f, res = inl f -> (N.of_nat (length f) <= bufCap fr')%N.
Proof.
  unfold Read, varLen_FrameReader, varLen_Read.
  destruct (ReadUvarint (bufReader fr)) as [[n|e] r1].
  - destruct ((bufCap fr <? n)%N && (allocLimit fr <? n)%N); [discriminate|].
    pose proof (io_ReadFull_length r1 (N.to_nat n)) as Hlen.
    destruct (io_ReadFull r1 (N.to_nat n)) as [[got err] r2].
    cbn [fst snd] in Hlen.
    assert (Hcap : (bufCap fr <= (if (bufCap fr <? n)%N then n else bufCap fr)
                    /\ n <= (if (bufCap fr <? n)%N then n else bufCap fr))%N)
      by (destruct (N.ltb_spec (bufCap fr) n); lia).
    destruct (errors_Is err EOF);
      [intros E; inversion E; subst; cbn [bufCap];
       split; [apply Hcap | discriminate]|].
    destruct err as [e|]; intros E; inversion E; subst; cbn [bufCap];
      [split; [apply Hcap | discriminate]|].
    split; [apply Hcap|]. intros f Hf. inversion Hf; subst f.
    rewrite (Hlen eq_refl), N2Nat.id. apply Hcap.
  - intros E. inversion E; subst. cbn [bufCap]. split; [lia | discriminate].
Qed.

Lemma varLen_Read_capacity_witness :
  (bufCap (mkVarLenReader (bytes_NewReader [x03; x61; x62; x63; x00]) 2 8)
   <= bufCap (mkVarLenReader (mkReader [x00] EOF) 3 8))%N
  /\ forall f, (inl [x61; x62; x63] : frame + error) = inl f ->
       (N.of_nat (length f)
        <= bufCap (mkVarLenReader (mkReader [x00] EOF) 3 8))%N.
Proof.
  apply (varLen_Read_capacity
           (mkVarLenReader (bytes_NewReader [x03; x61; x62; x63; x00]) 2 8)
           (mkVarLenReader (mkReader [x00] EOF) 3 8)
           (inl [x61; x62; x63] : frame + error)).
  reflexivity.
Defined.

(** X6: the length-prefixed reader asks for a buffer of the length the
    prefix announces before it reads the payload. On a stream that holds
    only the prefix of a length above the 256 bytes of the first buffer,
    [Read] does not return when [make] cannot give that many bytes;
    when it can, [Read] fails with [io.ErrUnexpectedEOF] and is left
    with a buffer of the announced length. *)
Theorem varLen_Read_allocates_announced_length (n limit : N)
    (enc : list byte) :
  PutUvarint MaxVarintLen32 n = Some enc ->
  (varlenFrameReaderBufferSize < n)%N ->
  Read (mkVarLenReader (bytes_NewReader enc) varlenFrameReaderBufferSize
          limit)
  = if (n <=? limit)%N
    then Some (inr ErrUnexpectedEOF, mkVarLenReader (mkReader [] EOF) n limit)
    else None.
Proof.
  intros Henc Hbig.
  unfold Read, varLen_FrameReader, varLen_Read, bytes_NewReader.
  cbn [bufReader bufCap allocLimit].
  rewrite <- (app_nil_r enc), (ReadUvarint_PutUvarint _ _ _ _ Henc).
  destruct (N.ltb_spec varlenFrameReaderBufferSize n); [|lia].
  cbn [andb]. rewrite N.ltb_antisym.
  destruct (n <=? limit)%N; [|reflexivity]. cbn [negb].
  rewrite io_ReadFull_short
    by (cbn [unread atEnd]; auto; unfold varlenFrameReaderBufferSize in Hbig;
        simpl; lia).
  reflexivity.
Qed.

Lemma varLen_Read_allocates_announced_length_witness :
  Read (mkVarLenReader (bytes_NewReader [xac; x02])
          varlenFrameReaderBufferSize 1000)
  = (if (300 <=? 1000)%N
     then Some (inr ErrUnexpectedEOF,
                mkVarLenReader (mkReader [] EOF) 300 1000)
     else None)
  /\ Read (mkVarLenReader (bytes_NewReader [xff; xff; xff; xff; x7f])
             varlenFrameReaderBufferSize (2 ^ 34))
     = (if (2 ^ 35 - 1 <=? 2 ^ 34)%N
        then Some (inr ErrUnexpectedEOF,
                   mkVarLenReader (mkReader [] EOF) (2 ^ 35 - 1) (2 ^ 34))
        else None).
Proof.
  split.
  - apply (varLen_Read_allocates_announced_length 300 1000 [xac; x02]);
      reflexivity.
  - apply (varLen_Read_allocates_announced_length (2 ^ 35 - 1) (2 ^ 34)
             [xff; xff; xff; xff; x7f]); reflexivity.
Defined.

(** ** The chunker over a whole stream *)

Lemma NextChunk_chunk (c : delimitedChunker) fr c' :
  chunker_ok c -> NextChunk c = (inl fr, c') ->
  exists part,
    fr = cursor unit.Mebibyte (prev c ++ part)
    /\ prev c ++ source_left c = (prev c ++ part) ++ prev c' ++ source_left c'
    /\ chunker_ok c' /\ chunkSize c' = chunkSize c
    /\ (Z.of_nat (length part) < chunkSize c)%Z
    /\ ((exists tail, prev c' = newline :: tail) \/ r c' = None).
Proof.
  intros (Hsize & Hdel & Hlive & Hcarry & Hplen).
  destruct (r c) as [rd|] eqn:Hr;
    [|rewrite NextChunk_exhausted by exact Hr; discriminate].
  unfold source_left at 1. rewrite Hr.
  destruct (Z_le_gt_dec (chunkSize c) (Z.of_nat (length (unread rd))))
    as [Hfull|Hshort].
  - rewrite (NextChunk_full_read c rd Hr) by lia.
    set (K := Z.to_nat (chunkSize c)).
    assert (HK : length (firstn K (unread rd)) = K)
      by (rewrite length_firstn; lia).
    destruct (In_dec Byte.byte_eq_dec (delimiter c) (firstn K (unread rd)))
      as [Hin|Hno].
    + destruct (cut_chunk_with_delimiter c
                  (Some (mkReader (skipn K (unread rd)) (atEnd rd)))
                  (firstn K (unread rd)) Hin)
        as (content & tail & Ew & Htail & ->).
      rewrite Hdel in *. intros E. inversion E; subst fr c'. clear E.
      exists content. unfold source_left, chunker_ok.
      cbn [r prev chunkSize delimiter unread atEnd].
      assert (Hl : K = length content + S (length tail)).
      { rewrite <- HK, Ew, length_app. reflexivity. }
      split; [reflexivity|]. split.
      * rewrite <- (firstn_skipn K (unread rd)) at 1. rewrite Ew.
        now rewrite <- !app_assoc.
      * split; [|split; [reflexivity|split; [lia|left; now exists tail]]].
        split; [exact Hsize|]. split; [reflexivity|]. split; [exact Hlive|].
        split; [right; now exists tail|]. simpl length. lia.
    + rewrite cut_chunk_without_delimiter by exact Hno.
      destruct (Z.eqb_spec (Z.of_nat (length (firstn K (unread rd))))
                  (chunkSize c)); [discriminate | lia].
  - rewrite (NextChunk_short_read c rd Hr) by (lia || assumption).
    destruct (In_dec Byte.byte_eq_dec (delimiter c) (unread rd))
      as [Hin|Hno].
    + destruct (cut_chunk_with_delimiter c None (unread rd) Hin)
        as (content & tail & Ew & Htail & ->).
      rewrite Hdel in *. intros E. inversion E; subst fr c'. clear E.
      exists content. unfold source_left, chunker_ok.
      cbn [r prev chunkSize delimiter unread atEnd].
      assert (Hl : length (unread rd) = length content + S (length tail)).
      { rewrite Ew at 1. rewrite length_app. reflexivity. }
      split; [reflexivity|]. split.
      * rewrite Ew at 1. now rewrite app_nil_r, <- !app_assoc.
      * split; [|split; [reflexivity|split; [lia|left; now exists tail]]].
        split; [exact Hsize|]. split; [reflexivity|]. split; [exact I|].
        split; [right; now exists tail|]. simpl length. lia.
    + rewrite cut_chunk_without_delimiter by exact Hno.
      destruct (Z.eqb_spec (Z.of_nat (length (unread rd))) (chunkSize c));
        [discriminate|].
      intros E. inversion E; subst fr c'. clear E.
      exists (unread rd). unfold source_left, chunker_ok.
      cbn [r prev chunkSize delimiter unread atEnd].
      split; [reflexivity|]. split; [now rewrite !app_nil_r|].
      split; [|split; [reflexivity|split; [lia|now right]]].
      split; [exact Hsize|]. split; [exact Hdel|]. split; [exact I|].
      split; [now left|]. simpl. lia.
Qed.

Lemma NextChunk_error (c : delimitedChunker) (e : error) c' :
  chunker_ok c -> NextChunk c = (inr e, c') ->
  (e = EOF /\ r c = None /\ c' = c) \/ e = NoFrameFoundErr.
Proof.
  intros (Hsize & Hdel & Hlive & Hcarry & Hplen).
  destruct (r c) as [rd|] eqn:Hr.
  - destruct (Z_le_gt_dec (chunkSize c) (Z.of_nat (length (unread rd))))
      as [Hfull|Hshort].
    + rewrite (NextChunk_full_read c rd Hr) by lia.
      unfold cut_chunk.
      destruct (0 <? length (prev c));
        destruct (LastIndexByte _ (delimiter c) =? -1)%Z;
        try destruct (Z.of_nat _ =? chunkSize c)%Z;
        intros E; inversion E; now right.
    + rewrite (NextChunk_short_read c rd Hr) by (lia || assumption).
      unfold cut_chunk.
      destruct (0 <? length (prev c));
        destruct (LastIndexByte _ (delimiter c) =? -1)%Z;
        try destruct (Z.of_nat _ =? chunkSize c)%Z;
        intros E; inversion E; now right.
  - rewrite NextChunk_exhausted by exact Hr. intros E. inversion E. now left.
Qed.

(** The chunks of a successful run: their contents, back to back and
    followed by the last carry, are the first carry and the source; every
    content but the first starts with a delimiter. *)
Lemma ReadAllChunks_loop_chunks (fuel : nat) :
  forall (c : delimitedChunker) acc rs c',
    chunker_ok c ->
    ReadAllChunks_loop fuel c acc = Some (inl rs, c') ->
    exists parts,
      rs = acc ++ map (cursor unit.Mebibyte) parts
      /\ concat parts ++ prev c' = prev c ++ source_left c
      /\ r c' = None /\ carry_ok (prev c')
      /\ chunkSize c' = chunkSize c
      /\ (forall tail, prev c = newline :: tail ->
            Forall (fun p => exists t, p = newline :: t) parts)
      /\ Forall (fun p => exists t, p = newline :: t) (tl parts)
      /\ Forall (fun p => (Z.of_nat (length p) < 2 * chunkSize c)%Z) parts.
Proof.
  induction fuel as [|fuel IH]; intros c acc rs c' Hok; [discriminate|].
  cbn [ReadAllChunks_loop].
  destruct (NextChunk c) as [[fr|e] c1] eqn:EN.
  - destruct (NextChunk_chunk c fr c1 Hok EN)
      as (part & -> & Hbytes & Hok1 & Hsz & Hpart & Hnext).
    intros Hloop.
    destruct (IH _ _ _ _ Hok1 Hloop)
      as (parts & -> & Hcat & Hr' & Hc' & Hsz' & Hhead & Htl & Hlen).
    exists ((prev c ++ part) :: parts). cbn [map concat tl].
    split; [now rewrite <- app_assoc|].
    split; [rewrite Hbytes, <- Hcat; now rewrite <- !app_assoc|].
    split; [exact Hr'|]. split; [exact Hc'|]. split; [congruence|].
    assert (Hparts : Forall (fun p => exists t, p = newline :: t) parts).
    { destruct Hnext as [[tail Hp]|Hnone]; [exact (Hhead tail Hp)|].
      destruct fuel as [|fuel']; [discriminate|].
      cbn [ReadAllChunks_loop] in Hloop.
      rewrite NextChunk_exhausted in Hloop by exact Hnone.
      cbn [error_eqb] in Hloop. inversion Hloop as [[Hrs Hc1]].
      rewrite <- app_nil_r in Hrs at 1. apply app_inv_head in Hrs.
      destruct parts; [constructor | discriminate]. }
    split.
    + intros tail Hp. constructor; [|exact Hparts].
      rewrite Hp. now exists (tail ++ part).
    + split; [exact Hparts|]. constructor.
      * destruct Hok as (_ & _ & _ & _ & Hplen). rewrite length_app. lia.
      * rewrite Hsz in Hlen. exact Hlen.
  - destruct (error_eqb_spec e EOF) as [->|Hne]; [|discriminate].
    intros E. inversion E; subst rs c1. clear E.
    destruct (NextChunk_error c EOF c' Hok EN) as [(_ & Hr & ->)|Hbad];
      [|discriminate].
    exists []. cbn [map concat tl]. unfold source_left. rewrite Hr.
    rewrite !app_nil_r. destruct Hok as (_ & _ & _ & Hcarry & _).
    repeat (split; [first [reflexivity | assumption | constructor]|]).
    constructor.
Qed.

Lemma NewNewlineDelimitedChunkReader_ok (stream : list byte) (size : Z)
    (c : delimitedChunker) :
  NewNewlineDelimitedChunkReader (Some (bytes_NewReader stream)) size = inl c ->
  c = mkChunker (Some (bytes_NewReader stream)) newline size []
  /\ chunker_ok c.
Proof.
  unfold NewNewlineDelimitedChunkReader.
  destruct (Z.ltb_spec size 0); [discriminate|].
  intros E. inversion E. split; [reflexivity|].
  unfold chunker_ok. cbn [r prev chunkSize delimiter atEnd bytes_NewReader].
  repeat split; [assumption | now left | simpl; lia].
Qed.

Lemma chunk_bytes_cursors (parts : list (list byte)) :
  map chunk_bytes (map (cursor unit.Mebibyte) parts) = parts.
Proof.
  induction parts as [|p parts IH]; [reflexivity|].
  cbn [map]. now rewrite IH.
Qed.

(** X18: whenever [ReadAllChunks] succeeds on an in-memory stream, the
    contents of the cursors, in order, followed by the carry left in the
    chunker are the stream, byte for byte; the chunker has dropped its
    reader; and the carry left is empty or is a ['\n'] followed by bytes
    without ['\n']. *)
Theorem ReadAllChunks_conserves_bytes (stream : list byte) (size : Z)
    (fuel : nat) (c c' : delimitedChunker) (cursors : list newlineFrameReader) :
  NewNewlineDelimitedChunkReader (Some (bytes_NewReader stream)) size = inl c ->
  ReadAllChunks fuel c = Some (inl cursors, c') ->
  concat (map chunk_bytes cursors) ++ prev c' = stream
  /\ r c' = None
  /\ (prev c' = []
      \/ exists tail, prev c' = newline :: tail /\ ~ In newline tail).
Proof.
  intros Hnew Hall.
  destruct (NewNewlineDelimitedChunkReader_ok _ _ _ Hnew) as [Ec Hok].
  destruct (ReadAllChunks_loop_chunks _ _ _ _ _ Hok Hall)
    as (parts & -> & Hcat & Hr' & Hc' & _).
  cbn [app]. rewrite chunk_bytes_cursors, Hcat, Ec.
  split; [reflexivity|]. split; [exact Hr' | exact Hc'].
Qed.

Lemma ReadAllChunks_conserves_bytes_witness :
  concat (map chunk_bytes
            [cursor unit.Mebibyte [x61]; cursor unit.Mebibyte [x0a; x62; x63]])
    ++ prev (mkChunker None newline 4 [x0a; x64])
  = [x61; x0a; x62; x63; x0a; x64]
  /\ r (mkChunker None newline 4 [x0a; x64]) = None
  /\ (prev (mkChunker None newline 4 [x0a; x64]) = []
      \/ exists tail, prev (mkChunker None newline 4 [x0a; x64])
                      = newline :: tail /\ ~ In newline tail).
Proof.
  apply (ReadAllChunks_conserves_bytes [x61; x0a; x62; x63; x0a; x64] 4 3
           (mkChunker (Some (bytes_NewReader [x61; x0a; x62; x63; x0a; x64]))
              newline 4 [])).
  - reflexivity.
  - reflexivity.
Defined.

(** X19: whenever [ReadAllChunks] succeeds on an in-memory stream, every
    cursor is a newline-delimited reader, skipping empty lines, over
    bytes in memory, fewer than twice the chunk size; and the content of
    every cursor but the first starts with a ['\n']. *)
Theorem ReadAllChunks_chunk_boundaries (stream : list byte) (size : Z)
    (fuel : nat) (c c' : delimitedChunker) (cursors : list newlineFrameReader) :
  NewNewlineDelimitedChunkReader (Some (bytes_NewReader stream)) size = inl c ->
  ReadAllChunks fuel c = Some (inl cursors, c') ->
  Forall (fun fr => fr = NewNewlineDelimitedFrameReader
                           (bytes_NewReader (chunk_bytes fr)) true
                    /\ (Z.of_nat (length (chunk_bytes fr)) < 2 * size)%Z)
    cursors
  /\ Forall (fun fr => exists tail, chunk_bytes fr = newline :: tail)
       (tl cursors).
Proof.
  intros Hnew Hall.
  destruct (NewNewlineDelimitedChunkReader_ok _ _ _ Hnew) as [Ec Hok].
  destruct (ReadAllChunks_loop_chunks _ _ _ _ _ Hok Hall)
    as (parts & -> & _ & _ & _ & _ & _ & Htl & Hlen).
  cbn [app]. rewrite Ec in Hlen. cbn [chunkSize] in Hlen. split.
  - apply Forall_forall. intros fr Hfr. apply in_map_iff in Hfr.
    destruct Hfr as (p & <- & Hp). split; [reflexivity|].
    exact (proj1 (Forall_forall _ _) Hlen p Hp).
  - destruct parts as [|p parts]; [constructor|]. cbn [map tl] in *.
    apply Forall_forall. intros fr Hfr. apply in_map_iff in Hfr.
    destruct Hfr as (q & <- & Hq).
    exact (proj1 (Forall_forall _ _) Htl q Hq).
Qed.

Lemma ReadAllChunks_chunk_boundaries_witness :
  Forall (fun fr => fr = NewNewlineDelimitedFrameReader
                           (bytes_NewReader (chunk_bytes fr)) true
                    /\ (Z.of_nat (length (chunk_bytes fr)) < 2 * 4)%Z)
    [cursor unit.Mebibyte [x61]; cursor unit.Mebibyte [x0a; x62; x63]]
  /\ Forall (fun fr => exists tail, chunk_bytes fr = newline :: tail)
       (tl [cursor unit.Mebibyte [x61]; cursor unit.Mebibyte [x0a; x62; x63]]).
Proof.
  apply (ReadAllChunks_chunk_boundaries [x61; x0a; x62; x63; x0a; x64] 4 3
           (mkChunker (Some (bytes_NewReader [x61; x0a; x62; x63; x0a; x64]))
              newline 4 [])
           (mkChunker None newline 4 [x0a; x64])).
  - reflexivity.
  - reflexivity.
Defined.

(** Cursors over pieces cut in front of delimiters drain like one cursor
    over the pieces back to back. *)
Lemma Drains_pieces (B : N) (parts : list (list byte)) :
  (0 < B)%N ->
  Forall (fun p => exists t, p = newline :: t) (tl parts) ->
  forall fs e,
    Drains (cursor B (concat parts)) fs e ->
    Drains (MultiFrameReader (map (cursor B) parts)) fs e.
Proof.
  intros HB. induction parts as [|a parts IH]; intros Htl fs e Hd.
  - destruct (Drains_deterministic _ _ _ Hd _ _ (Drains_cursor_nil B HB))
      as [-> ->].
    apply Drains_multi_nil.
  - cbn [tl] in Htl. destruct parts as [|b parts].
    + cbn [concat map] in *. rewrite app_nil_r in Hd.
      now apply Drains_multi_single.
    + inversion Htl as [|? ? [t Hb] Hrest]; subst.
      cbn [map]. cbn [concat] in Hd.
      change (a ++ (newline :: t) ++ concat parts)
        with (a ++ newline :: (t ++ concat parts)) in Hd.
      apply (Drains_cut B a (t ++ concat parts)); [exact HB | | exact Hd].
      intros fs' e' Hd'. apply IH.
      * cbn [tl]. exact Hrest.
      * cbn [concat].
        eapply Drains_same_Read; [|exact Hd'].
        symmetry. apply (Read_cursor_leading_newline B HB).
Qed.

(** X20: whenever [ReadAllChunks] succeeds on an in-memory stream,
    decoding the cursors in order gives what decoding directly the
    stream without the carry left in the chunker gives: the same frames,
    or the same error. *)
Theorem ReadAllChunks_frames (stream : list byte) (size : Z)
    (fuel fuel' : nat) (c c' : delimitedChunker)
    (cursors : list newlineFrameReader) :
  NewNewlineDelimitedChunkReader (Some (bytes_NewReader stream)) size = inl c ->
  ReadAllChunks fuel c = Some (inl cursors, c') ->
  length stream < fuel' ->
  exists delivered result,
    stream = delivered ++ prev c'
    /\ direct_frames fuel' delivered = Some result
    /\ ReadAllFrames fuel' (MultiFrameReader cursors) = Some result.
Proof.
  intros Hnew Hall Hfuel.
  destruct (NewNewlineDelimitedChunkReader_ok _ _ _ Hnew) as [Ec Hok].
  destruct (ReadAllChunks_loop_chunks _ _ _ _ _ Hok Hall)
    as (parts & -> & Hcat & _ & _ & _ & _ & Htl & _).
  rewrite Ec in Hcat. cbn [prev source_left r unread bytes_NewReader app] in Hcat.
  destruct (Drains_newline_total _ (cursor unit.Mebibyte (concat parts))
              (le_n _)) as (fs & e & Hd).
  pose proof (Drains_newline_length _ _ _ Hd) as Hlen. simpl in Hlen.
  assert (Hl : length (concat parts) <= length stream)
    by (rewrite <- Hcat, length_app; lia).
  exists (concat parts), (drained fs e). split; [now symmetry|]. split.
  - unfold direct_frames. rewrite cursor_Mebibyte.
    apply ReadAllFrames_Drains; [exact Hd | lia].
  - cbn [app]. apply ReadAllFrames_Drains; [|lia].
    apply Drains_pieces; [exact Mebibyte_pos | exact Htl | exact Hd].
Qed.

Lemma ReadAllChunks_frames_witness :
  exists delivered result,
    [x61; x0a; x62; x63; x0a; x64]
    = delivered ++ prev (mkChunker None newline 4 [x0a; x64])
    /\ direct_frames 7 delivered = Some result
    /\ ReadAllFrames 7
         (MultiFrameReader
            [cursor unit.Mebibyte [x61]; cursor unit.Mebibyte [x0a; x62; x63]])
       = Some result.
Proof.
  apply (ReadAllChunks_frames [x61; x0a; x62; x63; x0a; x64] 4 3 7
           (mkChunker (Some (bytes_NewReader [x61; x0a; x62; x63; x0a; x64]))
              newline 4 [])).
  - reflexivity.
  - reflexivity.
  - simpl. lia.
Defined.

Lemma blind_window_first (size : nat) (s : list byte) :
  size <= length s -> ~ In newline (firstn size s) -> blind_window size s.
Proof.
  intros Hl Hno. exists 0. rewrite Nat.mul_0_r. split; [lia | exact Hno].
Qed.

Lemma blind_window_skipn (size : nat) (s : list byte) :
  size <= length s -> In newline (firstn size s) ->
  (blind_window size s <-> blind_window size (skipn size s)).
Proof.
  intros Hl Hin. split; intros (k & Hk & Hno).
  - destruct k as [|k].
    + rewrite Nat.mul_0_r in Hno. contradiction.
    + exists k. rewrite length_skipn, skipn_skipn. split; [lia|].
      replace (size * k + size) with (size * S k) by lia. exact Hno.
  - exists (S k). rewrite length_skipn in Hk. rewrite skipn_skipn in Hno.
    split; [lia|].
    replace (size * S k) with (size * k + size) by lia. exact Hno.
Qed.

Lemma blind_window_short (size : nat) (s : list byte) :
  length s < size -> ~ blind_window size s.
Proof. intros Hl (k & Hk & _). lia. Qed.

(** The chunker from any carry over an in-memory source: the run ends,
    and it fails exactly when a full window holds no delimiter. *)
Lemma ReadAllChunks_loop_total (size : Z) (n : nat) :
  (0 < size)%Z ->
  forall (s p : list byte) (acc : list newlineFrameReader) (fuel : nat),
    length s <= n -> length s + 2 <= fuel ->
    exists res c',
      ReadAllChunks_loop fuel
        (mkChunker (Some (bytes_NewReader s)) newline size p) acc
      = Some (res, c')
      /\ (blind_window (Z.to_nat size) s -> res = inr NoFrameFoundErr)
      /\ (~ blind_window (Z.to_nat size) s -> exists rs, res = inl rs).
Proof.
  intros Hsize. induction n as [n IH] using lt_wf_ind.
  unfold bytes_NewReader in *. intros s p acc fuel Hn Hfuel.
  destruct fuel as [|fuel]; [lia|]. cbn [ReadAllChunks_loop].
  set (K := Z.to_nat size) in *.
  destruct (Z_le_gt_dec size (Z.of_nat (length s))) as [Hfull|Hless].
  - rewrite (NextChunk_full_read
               (mkChunker (Some (mkReader s EOF)) newline size p)
               (mkReader s EOF) eq_refl)
      by (simpl; lia).
    cbn [chunkSize unread atEnd]. fold K.
    assert (HK : length (firstn K s) = K) by (rewrite length_firstn; lia).
    destruct (In_dec Byte.byte_eq_dec newline (firstn K s)) as [Hin|Hno].
    + destruct (cut_chunk_with_delimiter
                  (mkChunker (Some (mkReader s EOF)) newline size p)
                  (Some (mkReader (skipn K s) EOF)) (firstn K s) Hin)
        as (content & tail & Ew & Htail & ->).
      cbn [delimiter chunkSize prev] in *.
      destruct (IH (length (skipn K s)) ltac:(rewrite length_skipn; lia)
                  (skipn K s) (newline :: tail)
                  (acc ++ [NewNewlineDelimitedFrameReader
                             (mkReader (p ++ content) EOF) true])
                  fuel (le_n _))
        as (res & c' & Eloop & Hbad & Hgood);
        [rewrite length_skipn; lia|].
      exists res, c'. split; [exact Eloop|].
      pose proof (blind_window_skipn K s ltac:(lia) Hin) as Hiff.
      split; intros H; [apply Hbad | apply Hgood]; tauto.
    + rewrite cut_chunk_without_delimiter by exact Hno.
      cbn [delimiter chunkSize prev].
      destruct (Z.eqb_spec (Z.of_nat (length (firstn K s))) size); [|lia].
      cbn [error_eqb]. eexists. eexists. split; [reflexivity|].
      split; [reflexivity|]. intros Hnb. exfalso. apply Hnb.
      apply blind_window_first; [lia | exact Hno].
  - rewrite (NextChunk_short_read
               (mkChunker (Some (mkReader s EOF)) newline size p)
               (mkReader s EOF) eq_refl)
      by (simpl; auto; lia).
    cbn [unread].
    pose proof (blind_window_short K s ltac:(lia)) as Hnb.
    destruct fuel as [|fuel]; [lia|].
    destruct (In_dec Byte.byte_eq_dec newline s) as [Hin|Hno].
    + destruct (cut_chunk_with_delimiter
                  (mkChunker (Some (mkReader s EOF)) newline size p)
                  None s Hin)
        as (content & tail & Es & Htail & ->).
      cbn [ReadAllChunks_loop].
      rewrite NextChunk_exhausted by reflexivity. cbn [error_eqb].
      eexists. eexists. split; [reflexivity|].
      split; [contradiction | intros _; eexists; reflexivity].
    + rewrite cut_chunk_without_delimiter by exact Hno.
      cbn [delimiter chunkSize prev].
      destruct (Z.eqb_spec (Z.of_nat (length s)) size); [lia|].
      cbn [ReadAllChunks_loop].
      rewrite NextChunk_exhausted by reflexivity. cbn [error_eqb].
      eexists. eexists. split; [reflexivity|].
      split; [contradiction | intros _; eexists; reflexivity].
Qed.

(** X21: [ReadAllChunks] on an in-memory stream returns, and it fails
    with [NoFrameFoundErr] exactly when one of the windows of chunk-size
    bytes, counted from the start of the stream, is full and holds no
    ['\n']; otherwise it returns cursors. *)
Theorem ReadAllChunks_fails_on_blind_window (stream : list byte) (size : Z)
    (fuel : nat) (c : delimitedChunker) :
  NewNewlineDelimitedChunkReader (Some (bytes_NewReader stream)) size = inl c ->
  length stream + 2 <= fuel ->
  exists result c',
    ReadAllChunks fuel c = Some (result, c')
    /\ (blind_window (Z.to_nat size) stream -> result = inr NoFrameFoundErr)
    /\ (~ blind_window (Z.to_nat size) stream ->
        exists cursors, result = inl cursors).
Proof.
  intros Hnew Hfuel.
  destruct (NewNewlineDelimitedChunkReader_ok _ _ _ Hnew)
    as [-> (Hsize & _)]. cbn [chunkSize] in Hsize.
  destruct (Z.eq_dec size 0) as [->|Hpos].
  - destruct fuel as [|fuel]; [lia|]. unfold ReadAllChunks.
    cbn [ReadAllChunks_loop]. rewrite zero_size_chunker_stuck.
    cbn [error_eqb]. eexists. eexists. split; [reflexivity|].
    split; [reflexivity|]. intros Hnb. exfalso. apply Hnb.
    exists 0. simpl. split; [lia | tauto].
  - apply (ReadAllChunks_loop_total size (length stream)); [lia | lia | lia].
Qed.

Lemma ReadAllChunks_fails_on_blind_window_witness :
  exists result c',
    ReadAllChunks 8
      (mkChunker (Some (bytes_NewReader [x61; x0a; x62; x63; x64; x0a]))
         newline 2 [])
    = Some (result, c')
    /\ (blind_window (Z.to_nat 2) [x61; x0a; x62; x63; x64; x0a] ->
        result = inr NoFrameFoundErr)
    /\ (~ blind_window (Z.to_nat 2) [x61; x0a; x62; x63; x64; x0a] ->
        exists cursors, result = inl cursors).
Proof.
  apply (ReadAllChunks_fails_on_blind_window
           [x61; x0a; x62; x63; x64; x0a] 2 8).
  - reflexivity.
  - simpl. lia.
Defined.

Lemma NextChunk_broken_source (c : delimitedChunker) (rd : Reader) :
  r c = Some rd -> broken rd ->
  match NextChunk c with
  | (inl _, c') => exists rd', r c' = Some rd' /\ atEnd rd' = atEnd rd
  | (inr e, _) => e = atEnd rd \/ e = NoFrameFoundErr
  end.
Proof.
  intros Hr [H1 H2].
  unfold NextChunk, delimitedChunker_ChunkReader, delimitedChunker_NextChunk.
  rewrite Hr. unfold io_ReadFull.
  destruct (Z.to_nat (chunkSize c) <=? length (unread rd)).
  - cbn [errors_Is orb]. unfold cut_chunk.
    destruct (0 <? length (prev c));
      destruct (LastIndexByte _ (delimiter c) =? -1)%Z;
      try destruct (Z.of_nat _ =? chunkSize c)%Z;
      try (now right); eexists; split; reflexivity.
  - destruct (error_eqb_spec (atEnd rd) EOF) as [E|_]; [contradiction|].
    cbn [andb errors_Is].
    destruct (error_eqb_spec (atEnd rd) ErrUnexpectedEOF) as [E|_];
      [contradiction|].
    destruct (error_eqb_spec (atEnd rd) EOF) as [E|_]; [contradiction|].
    cbn [orb]. now left.
Qed.

Lemma ReadAllChunks_loop_broken_source (fuel : nat) :
  forall (c : delimitedChunker) (rd : Reader) acc res c',
    r c = Some rd -> broken rd ->
    ReadAllChunks_loop fuel c acc = Some (res, c') ->
    res = inr (atEnd rd) \/ res = inr NoFrameFoundErr.
Proof.
  induction fuel as [|fuel IH]; intros c rd acc res c' Hr Hb; [discriminate|].
  cbn [ReadAllChunks_loop].
  pose proof (NextChunk_broken_source c rd Hr Hb) as Hstep.
  destruct (NextChunk c) as [[fr|e] c1].
  - destruct Hstep as (rd' & Hr' & He'). intros Hloop.
    rewrite <- He'. refine (IH c1 rd' _ _ c' Hr' _ Hloop).
    unfold broken. rewrite He'. exact Hb.
  - destruct Hb as [H1 H2].
    destruct Hstep as [->| ->].
    + destruct (error_eqb_spec (atEnd rd) EOF); [contradiction|].
      intros E. inversion E. now left.
    + cbn [error_eqb]. intros E. inversion E. now right.
Qed.

(** X22: over a source that ends with an error other than [io.EOF] and
    [io.ErrUnexpectedEOF], [ReadAllChunks] never returns cursors: when it
    returns, it returns the source's error or [NoFrameFoundErr]. *)
Theorem ReadAllChunks_broken_source (rd : Reader) (size : Z) (fuel : nat)
    (c c' : delimitedChunker) (result : list newlineFrameReader + error) :
  atEnd rd <> EOF -> atEnd rd <> ErrUnexpectedEOF ->
  NewNewlineDelimitedChunkReader (Some rd) size = inl c ->
  ReadAllChunks fuel c = Some (result, c') ->
  result = inr (atEnd rd) \/ result = inr NoFrameFoundErr.
Proof.
  intros H1 H2 Hnew Hall.
  unfold NewNewlineDelimitedChunkReader in Hnew.
  destruct (size <? 0)%Z; [discriminate|]. inversion Hnew; subst c.
  apply (ReadAllChunks_loop_broken_source fuel
           (mkChunker (Some rd) newline size []) rd [] result c' eq_refl);
    [split; assumption | exact Hall].
Qed.

Lemma ReadAllChunks_broken_source_witness :
  (inr (OtherErr 3) : list newlineFrameReader + error)
  = inr (atEnd (mkReader [x61; x0a; x62; x0a; x63] (OtherErr 3)))
  \/ (inr (OtherErr 3) : list newlineFrameReader + error)
     = inr NoFrameFoundErr.
Proof.
  apply (ReadAllChunks_broken_source
           (mkReader [x61; x0a; x62; x0a; x63] (OtherErr 3)) 2 5
           (mkChunker (Some (mkReader [x61; x0a; x62; x0a; x63] (OtherErr 3)))
              newline 2 [])
           (mkChunker (Some (mkReader [] (OtherErr 3))) newline 2 [x0a])).
  - discriminate.
  - discriminate.
  - reflexivity.
  - reflexivity.
Defined.

(** ** The buffered write-closer *)

Lemma bufio_Write_loop_fits {S : Type} `{Writer S} (fuel : nat)
    (b : bufio_Writer S) (p : list byte) (nn : nat) :
  bw_err b = None -> length p <= Available b ->
  bufio_Write_loop fuel b p nn
  = Some ((nn + length p, None),
          mkBufio None (bw_buf b ++ p) (bw_size b) (bw_wr b)).
Proof.
  intros He Hfit.
  destruct fuel; cbn [bufio_Write_loop];
    (destruct (Nat.ltb_spec (Available b) (length p)); [lia|]);
    cbn [andb]; rewrite He; reflexivity.
Qed.

Lemma bufio_Write_loop_direct {S : Type} `{Writer S} (fuel : nat)
    (b : bufio_Writer S) (p : list byte) (nn : nat) :
  bw_err b = None -> bw_buf b = [] -> Available b < length p ->
  bufio_Write_loop (Datatypes.S fuel) b p nn
  = let '((n, err), w') := io_Write (bw_wr b) p in
    bufio_Write_loop fuel (mkBufio err [] (bw_size b) w') (skipn n p) (nn + n).
Proof.
  intros He Hbuf Hbig. cbn [bufio_Write_loop].
  destruct (Nat.ltb_spec (Available b) (length p)); [|lia].
  rewrite He, Hbuf. reflexivity.
Qed.

Lemma bufio_Write_loop_fill {S : Type} `{Writer S} (fuel : nat)
    (b : bufio_Writer S) (p : list byte) (nn : nat) :
  bw_err b = None -> bw_buf b <> [] -> Available b < length p ->
  bufio_Write_loop (Datatypes.S fuel) b p nn
  = let '(_, b') :=
      bufio_Flush (mkBufio None (bw_buf b ++ firstn (Available b) p)
                     (bw_size b) (bw_wr b)) in
    bufio_Write_loop fuel b' (skipn (Available b) p) (nn + Available b).
Proof.
  intros He Hbuf Hbig. cbn [bufio_Write_loop].
  destruct (Nat.ltb_spec (Available b) (length p)); [|lia].
  rewrite He. cbn [andb].
  destruct (bw_buf b) as [|c buf]; [contradiction | reflexivity].
Qed.

Lemma write_all_buffered {S : Type} `{Writer S} (fuel : nat)
    (payloads : list (list byte)) :
  forall b : bufio_Writer S,
    bw_err b = None ->
    length (bw_buf b) + length (concat payloads) <= bw_size b ->
    write_all (bufio_Write fuel) b payloads
    = Some (mkBufio None (bw_buf b ++ concat payloads) (bw_size b) (bw_wr b)).
Proof.
  induction payloads as [|p ps IH]; intros b He Hfit; cbn [write_all concat].
  - rewrite app_nil_r. destruct b; simpl in *. now rewrite He.
  - cbn [concat] in Hfit. rewrite length_app in Hfit. unfold bufio_Write at 1.
    rewrite bufio_Write_loop_fits by (unfold Available; auto; lia).
    cbn [Nat.add]. rewrite Nat.eqb_refl.
    rewrite IH by (cbn [bw_err bw_buf bw_size]; rewrite ?length_app; auto; lia).
    cbn [bw_buf bw_size bw_wr]. now rewrite <- app_assoc.
Qed.

Lemma write_all_new_Writer {S : Type} `{Writer S} (fuel : nat)
    (payloads : list (list byte)) :
  forall b b' : bufio_Writer S,
    write_all (bufio_Write fuel) b payloads = Some b' ->
    write_all (buf_Write fuel) (new_Writer b) payloads = Some (new_Writer b').
Proof.
  induction payloads as [|p ps IH]; intros b b'; cbn [write_all].
  - intros E. inversion E. reflexivity.
  - cbn [buf_Write].
    destruct (bufio_Write fuel b p) as [[[n [e|]] b1]|]; try discriminate.
    destruct (n =? length p); [apply IH | discriminate].
Qed.

Lemma bufio_NewWriterSize_fresh {S : Type} (is_bufio : option (is_bufio_Writer S))
    (sink : S) (size : Z) :
  match is_bufio with
  | Some m => (Z.of_nat (buf_len m sink) < size)%Z
  | None => True
  end ->
  bufio_NewWriterSize is_bufio sink size
  = new_Writer
      (mkBufio None [] (Z.to_nat (if (size <=? 0)%Z then 4096%Z else size))
         sink).
Proof.
  unfold bufio_NewWriterSize. destruct is_bufio as [m|]; [|reflexivity].
  intros Hsmall. destruct (Z.leb_spec size (Z.of_nat (buf_len m sink)));
    [lia | reflexivity].
Qed.

(** When the sink is a [*bufio.Writer] with a buffer of [size] bytes or
    more, the write-closer has no buffer of its own: its world is the
    sink, and a write through it is a write to the sink. *)
Lemma NewBufferWriteCloserSize_reuses_bufio_sink {S : Type} `{Writer S}
    (m : is_bufio_Writer S) (closer : option (S -> option error * S))
    (sink : S) (size : Z) (p : list byte) (fuel : nat) :
  ((if (size <? 0)%Z then defaultBufSize else size)
   <= Z.of_nat (buf_len m sink))%Z ->
  snd (NewBufferWriteCloserSize (Some m) closer sink size) = sink_itself m sink
  /\ cc_Writer (fst (NewBufferWriteCloserSize (Some m) closer sink size)) fuel
       (sink_itself m sink) p
     = Some (fst (io_Write sink p), sink_itself m (snd (io_Write sink p))).
Proof.
  intros Hbig. unfold NewBufferWriteCloserSize, NewChainedCloser.
  cbn [fst snd cc_Writer]. split.
  - unfold bufio_NewWriterSize.
    destruct (Z.leb_spec (if (size <? 0)%Z then defaultBufSize else size)
                (Z.of_nat (buf_len m sink))); [reflexivity | lia].
  - cbn [buf_Write]. destruct (io_Write sink p). reflexivity.
Qed.

(** X23: writes through [NewBufferWriteCloserSize(w, size)] that total at
    most the buffer size ([size], or 4096 when [size] is negative or
    zero) all succeed and leave the sink untouched, the bytes waiting in
    the new buffer in order, for every sink but one: a sink that is
    itself a [*bufio.Writer] with a buffer of at least [size] bytes
    (4096 for a negative [size]), which [bufio.NewWriterSize] hands
    back as it is. *)
Theorem BufferWriteCloser_holds_small_writes {S : Type} `{Writer S}
    (is_bufio : option (is_bufio_Writer S))
    (closer : option (S -> option error * S)) (sink : S) (size : Z)
    (payloads : list (list byte)) (fuel : nat) :
  match is_bufio with
  | Some m =>
      (Z.of_nat (buf_len m sink)
       < (if (size <? 0)%Z then defaultBufSize else size))%Z
  | None => True
  end ->
  (Z.of_nat (length (concat payloads))
   <= (if (size <=? 0)%Z then defaultBufSize else size))%Z ->
  exists buf,
    write_all
      (cc_Writer (fst (NewBufferWriteCloserSize is_bufio closer sink size))
         fuel)
      (snd (NewBufferWriteCloserSize is_bufio closer sink size)) payloads
    = Some (new_Writer buf)
    /\ bw_wr buf = sink /\ bw_buf buf = concat payloads.
Proof.
  intros Hfresh Hfit. unfold NewBufferWriteCloserSize, NewChainedCloser.
  cbn [fst snd cc_Writer].
  rewrite bufio_NewWriterSize_fresh by exact Hfresh. eexists. split.
  - apply write_all_new_Writer. apply write_all_buffered; [reflexivity|].
    cbn [bw_buf bw_size length Nat.add].
    unfold defaultBufSize in *.
    destruct (Z.ltb_spec size 0); destruct (Z.leb_spec size 0);
      try destruct (Z.leb_spec 4096 0); lia.
  - split; reflexivity.
Qed.

Lemma BufferWriteCloser_holds_small_writes_witness :
  exists buf,
    write_all
      (cc_Writer
         (fst (NewBufferWriteCloserSize None None ([x07] : Buffer) 4)) 0)
      (snd (NewBufferWriteCloserSize None None ([x07] : Buffer) 4))
      [[x61; x62]; []; [x63; x64]]
    = Some (new_Writer buf)
    /\ bw_wr buf = ([x07] : Buffer)
    /\ bw_buf buf = concat [[x61; x62]; []; [x63; x64]].
Proof.
  apply (BufferWriteCloser_holds_small_writes None None ([x07] : Buffer) 4
           [[x61; x62]; []; [x63; x64]] 0).
  - exact I.
  - simpl. lia.
Defined.

Lemma bufio_Flush_Buffer (b : bufio_Writer Buffer) :
  bw_err b = None ->
  bufio_Flush b = (None, mkBufio None [] (bw_size b) (accepted b)).
Proof.
  intros He. unfold bufio_Flush, accepted. rewrite He.
  destruct b as [e buf size wr]. cbn [bw_buf bw_size bw_wr bw_err] in *.
  destruct buf as [|c buf]; cbn [length Nat.eqb].
  - now rewrite He, app_nil_r.
  - unfold io_Write, Buffer_Writer. rewrite Nat.ltb_irrefl. reflexivity.
Qed.

Lemma bufio_Write_Buffer (fuel : nat) (b : bufio_Writer Buffer)
    (p : list byte) :
  bw_err b = None ->
  exists b',
    bufio_Write (S (S fuel)) b p = Some ((length p, None), b')
    /\ bw_err b' = None /\ bw_size b' = bw_size b
    /\ accepted b' = accepted b ++ p.
Proof.
  intros He. unfold bufio_Write.
  destruct (Nat.leb_spec (length p) (Available b)) as [Hfit|Hbig].
  - rewrite bufio_Write_loop_fits by assumption. eexists.
    split; [reflexivity|]. unfold accepted. cbn [bw_err bw_size bw_wr bw_buf].
    now rewrite app_assoc.
  - destruct (bw_buf b) as [|c buf] eqn:Ebuf.
    + rewrite bufio_Write_loop_direct by assumption.
      unfold io_Write, Buffer_Writer.
      rewrite bufio_Write_loop_fits
        by (cbn [bw_err]; rewrite ?skipn_all; simpl; auto; lia).
      rewrite skipn_all. eexists.
      split; [cbn [length]; rewrite Nat.add_0_r; reflexivity|].
      unfold accepted. cbn [bw_err bw_size bw_wr bw_buf]. rewrite Ebuf.
      now rewrite !app_nil_r.
    + rewrite bufio_Write_loop_fill by (rewrite ?Ebuf; auto; discriminate).
      rewrite bufio_Flush_Buffer by reflexivity.
      unfold accepted at 1. cbn [bw_wr bw_buf bw_size]. rewrite Ebuf.
      set (n := Available b) in *.
      set (b1 := mkBufio None [] (bw_size b)
                   (bw_wr b ++ (c :: buf) ++ firstn n p)).
      assert (Hn : length (firstn n p) = n) by (rewrite length_firstn; lia).
      destruct (Nat.leb_spec (length (skipn n p)) (Available b1)) as [Hf|Hb].
      * rewrite bufio_Write_loop_fits by (auto; reflexivity).
        eexists. split.
        -- rewrite length_skipn. cbn [Nat.add].
           replace (n + (length p - n)) with (length p) by lia. reflexivity.
        -- unfold accepted, b1. cbn [bw_err bw_size bw_wr bw_buf app].
           rewrite Ebuf. split; [reflexivity|]. split; [reflexivity|].
           rewrite <- !app_assoc. cbn [app].
           rewrite <- ?app_assoc, firstn_skipn. reflexivity.
      * rewrite bufio_Write_loop_direct by (auto; reflexivity).
        unfold io_Write, Buffer_Writer.
        rewrite bufio_Write_loop_fits
          by (cbn [bw_err]; rewrite ?skipn_all; simpl; auto; lia).
        rewrite skipn_all. eexists. split.
        -- cbn [length]. rewrite length_skipn, Nat.add_0_r. cbn [Nat.add].
           replace (n + (length p - n)) with (length p) by lia. reflexivity.
        -- unfold accepted, b1. cbn [bw_err bw_size bw_wr bw_buf app].
           rewrite Ebuf. split; [reflexivity|]. split; [reflexivity|].
           rewrite !app_nil_r, <- !app_assoc. cbn [app].
           rewrite <- ?app_assoc, firstn_skipn. reflexivity.
Qed.

Lemma write_all_Buffer (fuel : nat) (payloads : list (list byte)) :
  forall b : bufio_Writer Buffer,
    bw_err b = None ->
    exists b',
      write_all (bufio_Write (S (S fuel))) b payloads = Some b'
      /\ bw_err b' = None
      /\ accepted b' = accepted b ++ concat payloads.
Proof.
  induction payloads as [|p ps IH]; intros b He; cbn [write_all concat].
  - exists b. now rewrite app_nil_r.
  - destruct (bufio_Write_Buffer fuel b p He) as (b1 & -> & He1 & _ & Hd1).
    rewrite Nat.eqb_refl.
    destruct (IH b1 He1) as (b' & -> & He' & Hd').
    exists b'. split; [reflexivity|]. split; [exact He'|].
    now rewrite Hd', Hd1, <- app_assoc.
Qed.

(** X24: [TestBufferWriterCloser] for any buffer size and any writes:
    over a [bytes.Buffer], every write through the write-closer returns
    its payload's length and no error, [Close] returns nil, and the sink
    then holds what it held before followed by the payloads in order,
    with nothing left in the buffer. *)
Theorem BufferWriteCloser_delivers (sink : Buffer) (size : Z)
    (payloads : list (list byte)) (fuel : nat) :
  2 <= fuel ->
  exists buf closed,
    write_all
      (cc_Writer (fst (NewBufferWriteCloserSize None None sink size)) fuel)
      (snd (NewBufferWriteCloserSize None None sink size)) payloads
    = Some (new_Writer buf)
    /\ chainedCloser_Close
         (fst (NewBufferWriteCloserSize None None sink size)) (new_Writer buf)
       = (None, new_Writer closed)
    /\ bw_wr closed = sink ++ concat payloads
    /\ bw_buf closed = [].
Proof.
  intros Hfuel. destruct fuel as [|[|fuel]]; try lia.
  unfold NewBufferWriteCloserSize, NewChainedCloser.
  cbn [fst snd cc_Writer]. rewrite bufio_NewWriterSize_fresh by exact I.
  destruct (write_all_Buffer fuel payloads
              (mkBufio None []
                 (Z.to_nat
                    (if ((if (size <? 0)%Z then defaultBufSize else size)
                         <=? 0)%Z
                     then 4096%Z
                     else if (size <? 0)%Z then defaultBufSize else size))
                 sink) eq_refl)
    as (buf & Hw & He & Hd).
  exists buf. eexists. split; [apply write_all_new_Writer; exact Hw|].
  unfold chainedCloser_Close. cbn [cs app close_range]. unfold CloserFn.
  cbn [buf_Flush].
  rewrite bufio_Flush_Buffer by exact He. split; [reflexivity|].
  cbn [bw_wr bw_buf]. rewrite Hd. unfold accepted.
  cbn [bw_wr bw_buf]. rewrite app_nil_r. split; reflexivity.
Qed.

Lemma BufferWriteCloser_delivers_witness :
  exists buf closed,
    write_all
      (cc_Writer
         (fst (NewBufferWriteCloserSize None None ([x07] : Buffer) 3)) 2)
      (snd (NewBufferWriteCloserSize None None ([x07] : Buffer) 3))
      [[x61; x62]; [x63; x64]; [x65; x66; x67; x68; x69]]
    = Some (new_Writer buf)
    /\ chainedCloser_Close
         (fst (NewBufferWriteCloserSize None None ([x07] : Buffer) 3))
         (new_Writer buf)
       = (None, new_Writer closed)
    /\ bw_wr closed
       = [x07] ++ concat [[x61; x62]; [x63; x64]; [x65; x66; x67; x68; x69]]
    /\ bw_buf closed = [].
Proof.
  apply (BufferWriteCloser_delivers [x07] 3
           [[x61; x62]; [x63; x64]; [x65; x66; x67; x68; x69]] 2).
  lia.
Defined.

(** X25: when flushing the buffer fails, [Close] of the buffered
    write-closer returns the flush's error and does not close the sink;
    a second [Close] returns the same error and leaves the sink as it
    is. *)
Theorem BufferWriteCloser_failed_flush_leaves_sink_open {S : Type} `{Writer S}
    (close : S -> option error * S) (sink : S) (size : Z)
    (buf buf' : bufio_Writer S) (e : error) :
  bufio_Flush buf = (Some e, buf') ->
  chainedCloser_Close
    (fst (NewBufferWriteCloserSize None (Some close) sink size))
    (new_Writer buf)
  = (Some e, new_Writer buf')
  /\ chainedCloser_Close
       (fst (NewBufferWriteCloserSize None (Some close) sink size))
       (new_Writer buf')
     = (Some e, new_Writer buf').
Proof.
  intros Hflush.
  unfold NewBufferWriteCloserSize, NewChainedCloser, chainedCloser_Close.
  cbn [fst cs app close_range]. unfold CloserFn. cbn [buf_Flush].
  rewrite Hflush. split; [reflexivity|].
  assert (He : bw_err buf' = Some e).
  { unfold bufio_Flush in Hflush.
    destruct (bw_err buf) as [e0|] eqn:E0.
    - inversion Hflush; subst. exact E0.
    - destruct (length (bw_buf buf) =? 0); [discriminate|].
      destruct (io_Write (bw_wr buf) (bw_buf buf)) as [[n err] w'].
      destruct err as [e1|]; [|destruct (n <? length (bw_buf buf))];
        inversion Hflush; reflexivity. }
  unfold bufio_Flush. rewrite He. reflexivity.
Qed.

Lemma BufferWriteCloser_failed_flush_leaves_sink_open_witness :
  chainedCloser_Close
    (fst (NewBufferWriteCloserSize None
            (Some (fun s : LimitedSink => (None, mkSink (taken s ++ [xff]) 0)))
            (mkSink [] 1) 8))
    (new_Writer (mkBufio None [x61; x62] 8 (mkSink [] 1)))
  = (Some (OtherErr 0),
     new_Writer (mkBufio (Some (OtherErr 0)) [x62] 8 (mkSink [x61] 0)))
  /\ chainedCloser_Close
       (fst (NewBufferWriteCloserSize None
               (Some (fun s : LimitedSink => (None, mkSink (taken s ++ [xff]) 0)))
               (mkSink [] 1) 8))
       (new_Writer (mkBufio (Some (OtherErr 0)) [x62] 8 (mkSink [x61] 0)))
     = (Some (OtherErr 0),
        new_Writer (mkBufio (Some (OtherErr 0)) [x62] 8 (mkSink [x61] 0))).
Proof.
  apply (BufferWriteCloser_failed_flush_leaves_sink_open
           (fun s : LimitedSink => (None, mkSink (taken s ++ [xff]) 0))
           (mkSink [] 1) 8
           (mkBufio None [x61; x62] 8 (mkSink [] 1))
           (mkBufio (Some (OtherErr 0)) [x62] 8 (mkSink [x61] 0))
           (OtherErr 0)).
  reflexivity.
Defined.

(** X26: a first write through [NewBufferWriteCloser(w)] returns its
    payload's length and no error; a payload of at most 4096 bytes stays
    in the buffer, a longer one goes to the sink at once and leaves the
    buffer empty. *)
Theorem NewBufferWriteCloser_threshold (sink : Buffer) (p : list byte)
    (fuel : nat) :
  exists buf,
    cc_Writer (fst (NewBufferWriteCloser None None sink)) (S fuel)
      (snd (NewBufferWriteCloser None None sink)) p
    = Some ((length p, None), new_Writer buf)
    /\ if length p <=? 4096
       then bw_wr buf = sink /\ bw_buf buf = p
       else bw_wr buf = sink ++ p /\ bw_buf buf = [].
Proof.
  unfold NewBufferWriteCloser, NewBufferWriteCloserSize, NewChainedCloser.
  cbn [fst snd cc_Writer]. rewrite bufio_NewWriterSize_fresh by exact I.
  cbn [buf_Write]. unfold bufio_Write.
  set (b := mkBufio None [] _ sink).
  assert (Hb : bw_err b = None /\ bw_buf b = [] /\ bw_wr b = sink
               /\ Available b = 4096).
  { unfold b, Available, defaultBufSize.
    cbn [bw_err bw_buf bw_wr bw_size length]. repeat split. }
  destruct Hb as (He & Hbuf & Hwr & Hav).
  destruct (Nat.leb_spec (length p) 4096) as [Hfit|Hbig].
  - rewrite bufio_Write_loop_fits by (auto; lia). eexists.
    split; [reflexivity|]. cbn [bw_wr bw_buf]. now rewrite Hbuf, Hwr.
  - rewrite bufio_Write_loop_direct by (auto; lia).
    unfold io_Write, Buffer_Writer.
    rewrite bufio_Write_loop_fits
      by (cbn [bw_err]; rewrite ?skipn_all; simpl; auto; lia).
    rewrite skipn_all. eexists. split.
    + cbn [length]. now rewrite Nat.add_0_r.
    + cbn [bw_wr bw_buf app]. now rewrite Hwr.
Qed.

(** ** The newline-delimited writer over a sink that fails *)

(** X27: when the sink has room for fewer bytes than a call of the
    newline-delimited writer sends (the payload, after a ['\n'] on every
    call but the first), the call returns the sink's error and the number
    of bytes that reached the sink, separator included; and the writer no
    longer counts the next payload as the first, also when the first
    call failed. *)
Theorem newline_Write_failing_sink (sink : LimitedSink) (first : bool)
    (payload : frame) :
  room sink
  < length (if first then payload else newline :: payload) ->
  fw_Write (mkNewlineWriter sink first) payload
  = (Some (room sink, Some (OtherErr 0)),
     mkNewlineWriter
       (mkSink (taken sink
                  ++ firstn (room sink)
                       (if first then payload else newline :: payload)) 0)
       false).
Proof.
  intros Hroom. unfold fw_Write, newline_FrameWriter, newline_Write.
  cbn [nw_first nw_sink]. unfold io_Write, LimitedSink_Writer.
  destruct first.
  - destruct (Nat.leb_spec (length payload) (room sink)); [lia|].
    reflexivity.
  - cbn [length] in *.
    destruct (Nat.leb_spec 1 (room sink)) as [Hone|Hnone].
    + cbn [room taken].
      destruct (Nat.leb_spec (length payload) (room sink - 1)); [lia|].
      destruct (room sink) as [|k] eqn:Ek; [lia|].
      cbn [firstn]. replace (S k - 1) with k by lia.
      rewrite <- app_assoc. replace (k + 1) with (S k) by lia. reflexivity.
    + replace (room sink) with 0 by lia. reflexivity.
Qed.

Lemma newline_Write_failing_sink_witness :
  fw_Write (mkNewlineWriter (mkSink [x61] 2) false) [x62; x63]
  = (Some (room (mkSink [x61] 2), Some (OtherErr 0)),
     mkNewlineWriter
       (mkSink (taken (mkSink [x61] 2)
                  ++ firstn (room (mkSink [x61] 2))
                       (if false then [x62; x63] else newline :: [x62; x63]))
          0)
       false).
Proof.
  apply (newline_Write_failing_sink (mkSink [x61] 2) false [x62; x63]).
  simpl. lia.
Defined.
